(** * FMM gravitation kernel of flecsph: [mpisph/tree_gravitation.h]

    A shallow embedding of the class [tree_colorer] (frontier selection,
    cell-to-cell traversal, reduction of the exchanged cells and
    cell-to-particle descent) together with the properties stated about it.

    Conventions of the embedding.
    - A C++ [double] is a real number of [R]: the statements below are the
      exact-arithmetic ones, rounding is not modelled.  The IEEE special
      values are written out only where they decide control flow (a division
      by a zero distance in [MAC]).
    - [assert] is a fallible step: a function that may hit a failing
      assertion returns a [result], and [Abort] names the assertion.
    - [double jacobi[9]] and [double hessian[27]] are lists indexed by
      position; every index the code uses is in range.
    - bodies live in a store addressed by index (the [body*] of the code);
      the tree only holds the holders that point into it.
    - the iterations of the OpenMP loop of [mpi_compute_fmm] write disjoint
      cells and are run in index order.
    - the byte counts and displacements that the source keeps in [int] are
      natural numbers; the properties that depend on their values are stated
      for counts that fit an [int] ([fits_int]). *)

From Stdlib Require Import String ZArith Reals Lra Lia List Bool Arith.
Import ListNotations.
Open Scope R_scope.

(** ** Numbers *)

Definition dlt (x y : R) : bool := if Rlt_dec x y then true else false.
Definition dle (x y : R) : bool := if Rle_dec x y then true else false.
Definition deq (x y : R) : bool := if Req_dec_T x y then true else false.

(** ** Points: [flecsi::point<double,3>] *)

Record point_t : Type := mkPoint { px : R; py : R; pz : R }.

Definition pzero : point_t := mkPoint 0 0 0.

(** [p[i]] *)
Definition pidx (p : point_t) (i : nat) : R :=
  match i with
  | O => px p
  | S O => py p
  | _ => pz p
  end.

(** [p[i] += v] *)
Definition padd_at (p : point_t) (i : nat) (v : R) : point_t :=
  match i with
  | O => mkPoint (px p + v) (py p) (pz p)
  | S O => mkPoint (px p) (py p + v) (pz p)
  | _ => mkPoint (px p) (py p) (pz p + v)
  end.

Definition padd (a b : point_t) : point_t :=
  mkPoint (px a + px b) (py a + py b) (pz a + pz b).

Definition psub (a b : point_t) : point_t :=
  mkPoint (px a - px b) (py a - py b) (pz a - pz b).

Definition pscale (c : R) (a : point_t) : point_t :=
  mkPoint (c * px a) (c * py a) (c * pz a).

(** Modelled from the spec: the point class of flecsi is not part of the
    sources.  The spec gives points an element-wise comparison, "strict
    less/greater used as a bounding-box containment test", and an
    element-wise equality. *)
Definition peq (a b : point_t) : bool :=
  deq (px a) (px b) && deq (py a) (py b) && deq (pz a) (pz b).

Definition plt (a b : point_t) : bool :=
  dlt (px a) (px b) && dlt (py a) (py b) && dlt (pz a) (pz b).

Definition pgt (a b : point_t) : bool := plt b a.

(** Modelled from the spec: [flecsi::distance] is not part of the sources;
    the spec calls it the Euclidean distance. *)
Definition distance (a b : point_t) : R :=
  sqrt ((px a - px b) * (px a - px b)
        + (py a - py b) * (py a - py b)
        + (pz a - pz b) * (pz a - pz b)).

(** ** Arrays of doubles *)

(** [a[k]] *)
Definition aget (a : list R) (k : nat) : R := nth k a 0.

(** [a[k] = f(a[k])] on any array; the code never indexes out of range. *)
Fixpoint upd {A : Type} (k : nat) (f : A -> A) (a : list A) : list A :=
  match a, k with
  | [], _ => []
  | x :: r, O => f x :: r
  | x :: r, S k' => x :: upd k' f r
  end.

(** [a[k] += v] *)
Definition add_at (k : nat) (v : R) (a : list R) : list R :=
  upd k (fun x => x + v) a.

Definition zeros (n : nat) : list R := repeat 0 n.

(** [for(int i=0;i<n;++i) body] *)
Definition for_loop {S : Type} (n : nat) (body : nat -> S -> S) (s : S) : S :=
  fold_left (fun s i => body i s) (seq 0 n) s.

(** ** Assertions *)

Inductive failure : Type :=
| AssertDistPositive      (* assert(dist > 0.0) *)
| AssertOwnOrder          (* assert(vcells[i].position == recvCOM[...].position) *)
| AssertRecvSize          (* assert((int)recvcells.size()==ncells*size) *)
| AssertSamePosition      (* assert(recvcells[j].position == recvcells[i*ncells+j].position) *)
| AssertSameId            (* assert(recvcells[j].id == recvcells[i*ncells+j].id) *)
| AssertHessianBound      (* assert(recvcells[j].dfcdrdr[k] < 1000) *)
| AssertSinkFound         (* assert(sink!=nullptr) *)
| AssertSubparts.         (* assert(subparts.size()!=0) *)

Inductive result (A : Type) : Type :=
| Ok (a : A)
| Abort (f : failure).
Arguments Ok {A} a.
Arguments Abort {A} f.

Definition bind {A B : Type} (r : result A) (k : A -> result B) : result B :=
  match r with
  | Ok a => k a
  | Abort f => Abort f
  end.

Notation "x <- e ;; k" := (bind e (fun x => k))
  (at level 61, e at next level, right associativity).

Definition assert (b : bool) (f : failure) : result unit :=
  if b then Ok tt else Abort f.

(** A loop whose body may abort. *)
Definition for_loopM {S : Type} (n : nat) (body : nat -> S -> result S) (s : S)
  : result S :=
  fold_left (fun r i => bind r (body i)) (seq 0 n) (Ok s).

Definition for_eachM {X S : Type} (body : X -> S -> result S) (l : list X) (s : S)
  : result S :=
  fold_left (fun r x => bind r (body x)) l (Ok s).

(** ** The multipole accumulators [fc], [jacobi], [hessian] of one sink *)

Record accum : Type := mkAccum {
  a_fc : point_t;
  a_jacobi : list R;
  a_hessian : list R
}.

Definition accum_zero : accum := mkAccum pzero (zeros 9) (zeros 27).

(** [int] value of a C++ [bool]. *)
Definition b2i (b : bool) : nat := if b then 1%nat else 0%nat.

(** The inner statement block of the Hessian loop for one [(i,j,k)]. *)
Definition hessian_step (diffPos : point_t) (dist hessiancoeff : R)
    (i j k : nat) (hessian : list R) : list R :=
  let matrixPos := (i * 9)%nat in
  let position := (matrixPos + j * 3 + k)%nat in
  let firstterm := 0 in
  let firstterm := if (i =? j)%nat then firstterm + pidx diffPos k else firstterm in
  let firstterm := if (j =? k)%nat then firstterm + pidx diffPos i else firstterm in
  let firstterm := if (k =? i)%nat then firstterm + pidx diffPos j else firstterm in
  (* [i==j==k] parses as [(i==j)==k]: the truth value of [i==j] against [k] *)
  let firstterm :=
    if negb (b2i (i =? j)%nat =? k)%nat then firstterm * 3 else firstterm in
  add_at position
    (hessiancoeff * firstterm
     + hessiancoeff * -5 / (dist * dist)
       * pidx diffPos i * pidx diffPos j * pidx diffPos k)
    hessian.

Definition jacobi_step (diffPos : point_t) (dist jacobicoeff : R)
    (i j : nat) (jacobi : list R) : list R :=
  if (i =? j)%nat then
    add_at (i * 3 + j)
      (jacobicoeff * (1 - 3 * pidx diffPos i * pidx diffPos j / (dist * dist)))
      jacobi
  else
    add_at (i * 3 + j)
      (jacobicoeff * (-3 * pidx diffPos i * pidx diffPos j / (dist * dist)))
      jacobi.

(** [computeAcceleration]; [assert(!std::isnan(jacobi[..]))] has no
    counterpart over the reals. *)
Definition computeAcceleration (sinkPosition sourcePosition : point_t)
    (sourceMass : R) (acc : accum) : result accum :=
  let dist := distance sinkPosition sourcePosition in
  _ <- assert (dlt 0 dist) AssertDistPositive ;;
  let diffPos := psub sinkPosition sourcePosition in
  let fc := padd (a_fc acc) (pscale (- sourceMass / (dist * dist * dist)) diffPos) in
  let jacobicoeff := - sourceMass / (dist * dist * dist) in
  let jacobi :=
    for_loop 3 (fun i => for_loop 3 (fun j => jacobi_step diffPos dist jacobicoeff i j))
      (a_jacobi acc) in
  let hessiancoeff := -3 * sourceMass / (dist * dist * dist * dist * dist) in
  let hessian :=
    for_loop 3 (fun i => for_loop 3 (fun j => for_loop 3 (fun k =>
      hessian_step diffPos dist hessiancoeff i j k)))
      (a_hessian acc) in
  Ok (mkAccum fc jacobi hessian).

(** ** Bodies, holders, branches

    [tree.h], which declares [body], [body_holder], [branch_t],
    [branch_id_t] and [tree_topology_t], is not part of the sources; the
    types below carry what the data model of the specification lists and
    what the code reads through the accessors. *)

(** Modelled from the spec: [branch_id_t] is not part of the sources; the
    spec calls it a stable, globally unique identifier. *)
Definition branch_id_t : Type := nat.
Bind Scope nat_scope with branch_id_t.

(** Modelled from the spec: [body] is not part of the sources; the spec gives
    it a position, a mass and the mutable acceleration. *)
Record body : Type := mkBody {
  bd_position : point_t;
  bd_mass : R;
  bd_acceleration : point_t
}.

(** [body*]: an address in the particle store. *)
Definition body_ptr : Type := nat.
Bind Scope nat_scope with body_ptr.

(** Modelled from the spec: [body_holder] is not part of the sources.  The
    code reads [getPosition], [getMass] and [is_local] from the holder [bi]
    of a leaf and reaches the body through [getBody]; the locality flag of
    the spec's body is the one of its holder. *)
Record body_holder : Type := mkHolder {
  h_position : point_t;
  h_mass : R;
  h_local : bool;
  h_body : body_ptr
}.

(** Modelled from the spec: [branch_t] is not part of the sources; the spec
    gives a branch its identifier, centre of mass, subtree mass (0 if
    non-local) and bounding box. *)
Record branch_info : Type := mkInfo {
  i_id : branch_id_t;
  i_position : point_t;
  i_mass : R;
  i_bmin : point_t;
  i_bmax : point_t
}.

#[local] Set Warnings "-register-all".

(** Modelled from the spec: a branch is a leaf, over which the code iterates
    to reach its holders, or an internal branch with its children by
    index. *)
Inductive branch_t : Type :=
| Leaf (info : branch_info) (ents : list body_holder)
| Node (info : branch_info) (children : list branch_t).

Definition info_of (b : branch_t) : branch_info :=
  match b with
  | Leaf i _ => i
  | Node i _ => i
  end.

Definition id (b : branch_t) : branch_id_t := i_id (info_of b).
Definition getPosition (b : branch_t) : point_t := i_position (info_of b).
Definition getMass (b : branch_t) : R := i_mass (info_of b).
Definition getBMin (b : branch_t) : point_t := i_bmin (info_of b).
Definition getBMax (b : branch_t) : point_t := i_bmax (info_of b).

Definition is_leaf (b : branch_t) : bool :=
  match b with
  | Leaf _ _ => true
  | Node _ _ => false
  end.

(** The children [tree.child(b,0)], ..., [tree.child(b,(1<<dimension)-1)]. *)
Definition children_of (b : branch_t) : list branch_t :=
  match b with
  | Leaf _ _ => []
  | Node _ cs => cs
  end.

(** Modelled from the spec: [tree.get(id)] is not part of the sources; the
    spec has it return the branch carrying the identifier, or null.  The
    tree is searched from the root, parents before children. *)
Fixpoint tree_get (i : branch_id_t) (b : branch_t) : option branch_t :=
  if (id b =? i)%nat then Some b
  else
    match b with
    | Leaf _ _ => None
    | Node _ cs =>
        fold_left (fun r c => match r with Some x => Some x | None => tree_get i c end)
          cs None
    end.

(** The particle store. *)
Definition store : Type := list body.

Definition body_default : body := mkBody pzero 0 pzero.

Definition getBody (st : store) (p : body_ptr) : body := nth p st body_default.

(** [p->setAcceleration(a)] *)
Definition setAcceleration (p : body_ptr) (a : point_t) (st : store) : store :=
  upd p (fun b => mkBody (bd_position b) (bd_mass b) a) st.

(** ** [mpi_cell_t] *)

Record mpi_cell_t : Type := mkCell {
  position : point_t;
  fc : point_t;
  dfcdr : list R;
  dfcdrdr : list R;
  bmax : point_t;
  bmin : point_t;
  c_id : branch_id_t
}.

(** The four-argument constructor: the tensor fields keep their zero
    initialisers. *)
Definition mpi_cell (position_ bmin_ bmax_ : point_t) (id_ : branch_id_t)
  : mpi_cell_t :=
  mkCell position_ pzero (zeros 9) (zeros 27) bmax_ bmin_ id_.

(** ** Frontier selection: the lambda [traverse] of [mpi_exchange_cells] *)

Fixpoint traverse (maxMass : R) (b : branch_t) (vcells : list mpi_cell_t)
  : list mpi_cell_t :=
  if deq (getMass b) 0 then vcells
  else if is_leaf b || dlt (getMass b) maxMass then
    vcells ++ [mpi_cell (getPosition b) (getBMin b) (getBMax b) (id b)]
  else
    match b with
    | Leaf _ _ => vcells
    | Node _ cs => fold_left (fun v c => traverse maxMass c v) cs vcells
    end.

(** The same traversal, recording which branch is emitted and where it sits
    in the tree (the child indices from the root) instead of the cell built
    from it. *)
Definition path : Type := list nat.

(** [for(int i=0;i<(1<<dimension);++i) f(i, tree.child(b,i))], collecting
    what each call yields; [i] is the index of the first child of [cs]. *)
Fixpoint over_children {A : Type} (f : nat -> branch_t -> list A)
    (cs : list branch_t) (i : nat) : list A :=
  match cs with
  | [] => []
  | c :: r => f i c ++ over_children f r (S i)
  end.

Fixpoint frontier_from (maxMass : R) (here : path) (b : branch_t)
  : list (path * branch_t) :=
  if deq (getMass b) 0 then []
  else if is_leaf b || dlt (getMass b) maxMass then [(here, b)]
  else
    match b with
    | Leaf _ _ => []
    | Node _ cs =>
        over_children (fun i c => frontier_from maxMass (here ++ [i]) c) cs 0%nat
    end.

Definition frontier (maxMass : R) (root : branch_t) : list (path * branch_t) :=
  frontier_from maxMass [] root.

Definition cell_of_branch (b : branch_t) : mpi_cell_t :=
  mpi_cell (getPosition b) (getBMin b) (getBMax b) (id b).

(** The branch found by following child indices. *)
Fixpoint branch_at (p : path) (b : branch_t) : option branch_t :=
  match p with
  | [] => Some b
  | i :: q =>
      match nth_error (children_of b) i with
      | Some c => branch_at q c
      | None => None
      end
  end.

(** [p] is the address of a strict ancestor of the branch at [q]. *)
Definition strict_prefix (p q : path) : Prop :=
  exists i r, q = p ++ i :: r.

Definition sum_R (l : list R) : R := fold_right Rplus 0 l.

(** The total mass of the recorded branches. *)
Definition frontier_mass (l : list (path * branch_t)) : R :=
  sum_R (map (fun x => getMass (snd x)) l).

(** Every internal branch carries the sum of the masses of its children. *)
Fixpoint mass_consistent (b : branch_t) : Prop :=
  match b with
  | Leaf _ _ => True
  | Node i cs =>
      i_mass i = sum_R (map getMass cs)
      /\ fold_right (fun c rest => mass_consistent c /\ rest) True cs
  end.

(** ** Cell-to-cell traversal *)

(** [MAC].  Both distances are non-negative.  When [disttoc] is zero the
    quotient of the code is [+inf] or [NaN], and neither compares below a
    finite angle; otherwise it is the real quotient. *)
Definition MAC (sink source : branch_t) (macangle : R) : bool :=
  let dmax := distance (getBMin source) (getBMax source) in
  let disttoc := distance (getPosition sink) (getPosition source) in
  if deq disttoc 0 then false else dlt (dmax / disttoc) macangle.

(** [box_intersection] *)
Definition box_intersection (sinkBMin sinkBMax sourceBMin sourceBMax : point_t)
  : bool :=
  (dle (pidx sinkBMin 0) (pidx sourceBMax 0) && dle (pidx sourceBMin 0) (pidx sinkBMax 0))
  && (dle (pidx sinkBMin 1) (pidx sourceBMax 1) && dle (pidx sourceBMin 1) (pidx sinkBMax 1))
  && (dle (pidx sinkBMin 2) (pidx sourceBMax 2) && dle (pidx sourceBMin 2) (pidx sinkBMax 2)).

(** The accumulators of the sink together with what was printed. *)
Definition c2c_state : Type := (accum * list string)%type.

(** [std::cout<<"Same Id"<<std::endl] *)
Definition log_same_id (s : c2c_state) : c2c_state :=
  (fst s, snd s ++ ["Same Id"%string]).

Definition accumulate (sinkPosition sourcePosition : point_t) (sourceMass : R)
    (s : c2c_state) : result c2c_state :=
  a <- computeAcceleration sinkPosition sourcePosition sourceMass (fst s) ;;
  Ok (a, snd s).

(** The body of [for(auto bi: *source)] in the leaf case. *)
Definition c2c_leaf_body (sink : branch_t) (bi : body_holder) (s : c2c_state)
  : result c2c_state :=
  if h_local bi then
    if negb (plt (h_position bi) (getBMax sink) && pgt (h_position bi) (getBMin sink))
    then accumulate (getPosition sink) (h_position bi) (h_mass bi) s
    else Ok s
  else Ok s.

Fixpoint tree_traversal_c2c (sink : branch_t) (macangle : R) (source : branch_t)
    (s : c2c_state) : result c2c_state :=
  let s := if (id sink =? id source)%nat then log_same_id s else s in
  if deq (getMass source) 0 then Ok s
  else if peq (getBMin sink) (getBMin source) && peq (getBMax sink) (getBMax source)
  then Ok s
  else if plt (getBMin sink) (getBMin source) && pgt (getBMax sink) (getBMax source)
  then Ok s
  else if MAC sink source macangle then
    accumulate (getPosition sink) (getPosition source) (getMass source) s
  else
    match source with
    | Leaf _ ents => for_eachM (c2c_leaf_body sink) ents s
    | Node _ cs =>
        fold_left (fun r c => bind r (tree_traversal_c2c sink macangle c)) cs (Ok s)
    end.

(** Modelled from the spec: the default constructor of [branch_t] is not part
    of the sources.  [mpi_compute_fmm] overwrites position and box of the fresh
    sink and leaves its identifier alone ([setId] is commented out), so the
    identifier a fresh branch carries is a parameter. *)
Definition fresh_sink (fresh_id : branch_id_t) (cell : mpi_cell_t) : branch_t :=
  Leaf (mkInfo fresh_id (position cell) 0 (bmin cell) (bmax cell)) [].

(** One iteration of the loop of [mpi_compute_fmm]. *)
Definition compute_cell (fresh_id : branch_id_t) (root : branch_t) (macangle : R)
    (cell : mpi_cell_t) (out : list string) : result (mpi_cell_t * list string) :=
  let sink := fresh_sink fresh_id cell in
  r <- tree_traversal_c2c sink macangle root
         (mkAccum (fc cell) (dfcdr cell) (dfcdrdr cell), out) ;;
  let a := fst r in
  Ok (mkCell (position cell) (a_fc a) (a_jacobi a) (a_hessian a)
        (bmax cell) (bmin cell) (c_id cell), snd r).

(** ** Cell-to-particle descent *)

(** The value [grav] computed for one holder in the leaf loop. *)
Definition taylor_grav (sinkPosition : point_t) (fc : point_t)
    (jacobi hessian : list R) (bi : body_holder) : point_t :=
  let diffPos := psub (h_position bi) sinkPosition in
  let grav := fc in
  let grav :=
    for_loop 3 (fun i => for_loop 3 (fun j g =>
      padd_at g i (aget jacobi (i * 3 + j) * pidx diffPos j))) grav in
  let tmpMatrix :=
    for_loop 3 (fun i => for_loop 3 (fun j => for_loop 3 (fun k m =>
      add_at (i * 3 + j) (pidx diffPos k * aget hessian (i * 9 + j + k * 3)) m)))
      (zeros 9) in
  let tmpVector :=
    for_loop 3 (fun i => for_loop 3 (fun j v =>
      add_at i (aget tmpMatrix (i * 3 + j) * pidx diffPos j) v)) (zeros 3) in
  for_loop 3 (fun i g => padd_at g i (1 / 2 * aget tmpVector i)) grav.

Record c2p_state : Type := mkC2P {
  neighbors : list body_ptr;
  nbody : nat;
  c2p_bodies : store
}.

(** The body of [for(auto bi: *b)] in the leaf case. *)
Definition c2p_leaf_body (sinkPosition : point_t) (fc : point_t)
    (jacobi hessian : list R) (bi : body_holder) (s : c2p_state) : c2p_state :=
  if negb (h_local bi) then s
  else
    let grav := taylor_grav sinkPosition fc jacobi hessian bi in
    let st := c2p_bodies s in
    mkC2P (neighbors s ++ [h_body bi])
          (S (nbody s))
          (setAcceleration (h_body bi)
             (padd grav (bd_acceleration (getBody st (h_body bi)))) st).

Fixpoint sink_traversal_c2p (b : branch_t) (sinkPosition : point_t) (fc : point_t)
    (jacobi hessian : list R) (s : c2p_state) : c2p_state :=
  if dle (getMass b) 0 then s
  else
    match b with
    | Leaf _ ents =>
        fold_left (fun s bi => c2p_leaf_body sinkPosition fc jacobi hessian bi s) ents s
    | Node _ cs =>
        fold_left (fun s c => sink_traversal_c2p c sinkPosition fc jacobi hessian s) cs s
    end.

(** ** Reduction of the gathered cells *)

(** Modelled from the spec: what the default constructor [mpi_cell_t(){}]
    leaves in the fields without an initialiser depends on [point_t] and
    [branch_id_t], which are not part of the sources; such cells are always
    overwritten before they are read. *)
Definition cell_default : mpi_cell_t :=
  mkCell pzero pzero (zeros 9) (zeros 27) pzero pzero 0%nat.

Definition cget (l : list mpi_cell_t) (k : nat) : mpi_cell_t := nth k l cell_default.

Definition set_fc (v : point_t) (c : mpi_cell_t) : mpi_cell_t :=
  mkCell (position c) v (dfcdr c) (dfcdrdr c) (bmax c) (bmin c) (c_id c).
Definition set_dfcdr (v : list R) (c : mpi_cell_t) : mpi_cell_t :=
  mkCell (position c) (fc c) v (dfcdrdr c) (bmax c) (bmin c) (c_id c).
Definition set_dfcdrdr (v : list R) (c : mpi_cell_t) : mpi_cell_t :=
  mkCell (position c) (fc c) (dfcdr c) v (bmax c) (bmin c) (c_id c).

(** The body of [for(int k=0;k<27;++k)]. *)
Definition reduce_component (ncells i j k : nat) (recvcells : list mpi_cell_t)
  : result (list mpi_cell_t) :=
  let recvcells :=
    if (k <? 9)%nat then
      upd j (fun c =>
        set_dfcdr (add_at k (aget (dfcdr (cget recvcells (i * ncells + j))) k) (dfcdr c)) c)
        recvcells
    else recvcells in
  let recvcells :=
    upd j (fun c =>
      set_dfcdrdr
        (add_at k (aget (dfcdrdr (cget recvcells (i * ncells + j))) k) (dfcdrdr c)) c)
      recvcells in
  _ <- assert (dlt (aget (dfcdrdr (cget recvcells j)) k) 1000) AssertHessianBound ;;
  Ok recvcells.

(** The body of [for(int j=0;j<ncells;++j)]. *)
Definition reduce_slot (ncells i j : nat) (recvcells : list mpi_cell_t)
  : result (list mpi_cell_t) :=
  _ <- assert (peq (position (cget recvcells j))
                   (position (cget recvcells (i * ncells + j)))) AssertSamePosition ;;
  _ <- assert (c_id (cget recvcells j) =? c_id (cget recvcells (i * ncells + j)))%nat
         AssertSameId ;;
  let recvcells :=
    upd j (fun c => set_fc (padd (fc c) (fc (cget recvcells (i * ncells + j)))) c)
      recvcells in
  for_loopM 27 (reduce_component ncells i j) recvcells.

(** [for(int i=lo;i<hi;++i) body] *)
Definition for_range {S : Type} (lo hi : nat) (body : nat -> S -> S) (s : S) : S :=
  fold_left (fun s i => body i s) (seq lo (hi - lo)) s.

Definition for_rangeM {S : Type} (lo hi : nat) (body : nat -> S -> result S) (s : S)
  : result S :=
  fold_left (fun r i => bind r (body i)) (seq lo (hi - lo)) (Ok s).

(** "Reduce the sum on the COM": the loop nest over [i] and [j]. *)
Definition reduce_cells (size ncells : nat) (recvcells : list mpi_cell_t)
  : result (list mpi_cell_t) :=
  for_rangeM 1 size (fun i => for_loopM ncells (reduce_slot ncells i)) recvcells.

(** ** Propagation to the particles *)

(** "Also apply the subcells": the direct sum over the bodies collected by the
    descent. *)
Definition direct_grav (st : store) (bi : body_ptr) (subparts : list body_ptr)
  : point_t :=
  fold_left (fun grav nb =>
    let dist := distance (bd_position (getBody st bi)) (bd_position (getBody st nb)) in
    if dlt 0 dist then
      padd grav
        (pscale (- bd_mass (getBody st nb) / (dist * dist * dist))
           (psub (bd_position (getBody st bi)) (bd_position (getBody st nb))))
    else grav) subparts pzero.

Definition direct_sum (subparts : list body_ptr) (st : store) : store :=
  fold_left (fun st bi =>
    let grav := direct_grav st bi subparts in
    setAcceleration bi (padd (bd_acceleration (getBody st bi)) grav) st)
    subparts st.

(** The body of the loop "Propagate in the particles from sink". *)
Definition apply_cell (root : branch_t) (cell : mpi_cell_t) (s : nat * store)
  : result (nat * store) :=
  match tree_get (c_id cell) root with
  | None => Abort AssertSinkFound
  | Some sink =>
      let pos := getPosition sink in
      let r := sink_traversal_c2p sink pos (fc cell) (dfcdr cell) (dfcdrdr cell)
                 (mkC2P [] (fst s) (snd s)) in
      _ <- assert (negb (length (neighbors r) =? 0)%nat) AssertSubparts ;;
      Ok (nbody r, direct_sum (neighbors r) (c2p_bodies r))
  end.

Definition apply_cells (root : branch_t) (ncells : nat) (recvcells : list mpi_cell_t)
    (st : store) : result store :=
  r <- for_loopM ncells (fun i => apply_cell root (cget recvcells i)) (0%nat, st) ;;
  Ok (snd r).

(** ** The processes and the collectives

    The run is bulk-synchronous: every process executes the same three member
    functions, and the three collectives are the only points where data
    crosses.  A world is the list of the processes in rank order; a member
    function that contains a collective is a function of the world.  Buffers
    are counted in cells; the byte counts and displacements the code keeps
    are multiples of [sizeof(mpi_cell_t)], which is a parameter.  Counts are
    natural numbers: a run in which they exceed [int] is outside the model. *)

Record process : Type := mkProcess {
  p_tree : branch_t;
  p_bodies : store;
  recvCOM : list mpi_cell_t;
  nrecvCOM : list nat;
  p_stdout : list string
}.

Definition iget (l : list nat) (k : nat) : nat := nth k l 0%nat.

(** Copy [data] into [buf] from index [k] on. *)
Fixpoint write_at {A : Type} (k : nat) (data : list A) (buf : list A) : list A :=
  match data with
  | [] => buf
  | x :: r => write_at (S k) r (upd k (fun _ => x) buf)
  end.

(** [l[from .. from+len)] *)
Definition slice {A : Type} (from len : nat) (l : list A) : list A :=
  firstn len (skipn from l).

Fixpoint mapiM_from {A B : Type} (f : nat -> A -> result B) (i : nat) (l : list A)
  : result (list B) :=
  match l with
  | [] => Ok []
  | x :: r =>
      y <- f i x ;;
      ys <- mapiM_from f (S i) r ;;
      Ok (y :: ys)
  end.

(** Run [f rank process] on every process, in rank order. *)
Definition on_every_rank {A B : Type} (f : nat -> A -> result B) (w : list A)
  : result (list B) :=
  mapiM_from f 0%nat w.

Section Exchange.

Variable sizeof_mpi_cell_t : positive.

Definition sizeof_cell : nat := Pos.to_nat sizeof_mpi_cell_t.

(** The loop of [mpi_exchange_cells] that turns the gathered counts into byte
    counts and displacements: [(totalrecv, nrecvCOM, noffsets)]. *)
Definition exchange_offsets (size : nat) (counts : list nat)
  : nat * list nat * list nat :=
  for_loop size (fun i (s : nat * list nat * list nat) =>
    let '(totalrecv, nrecvCOM, noffsets) := s in
    let totalrecv := (totalrecv + iget nrecvCOM i)%nat in
    let nrecvCOM := upd i (fun x => x * sizeof_cell)%nat nrecvCOM in
    let noffsets :=
      if (i <? size - 1)%nat then
        upd (i + 1) (fun x => x + (iget nrecvCOM i + iget noffsets i))%nat noffsets
      else noffsets in
    (totalrecv, nrecvCOM, noffsets))
    (0%nat, counts, repeat 0%nat size).

(** [MPI_Allgatherv]: the block of rank [i] lands at displacement
    [displs[i]], with [counts[i]] bytes of it. *)
Definition allgatherv (sent : list (list mpi_cell_t)) (counts displs : list nat)
    (recvbuf : list mpi_cell_t) : list mpi_cell_t :=
  fold_left (fun buf (x : nat * list mpi_cell_t) =>
    let '(i, data) := x in
    write_at (iget displs i / sizeof_cell)
      (firstn (iget counts i / sizeof_cell) data) buf)
    (combine (seq 0 (List.length sent)) sent) recvbuf.

(** [mpi_exchange_cells] on one rank, given the frontiers [all_vcells] that
    the ranks contribute to the two collectives. *)
Definition mpi_exchange_cells_rank (all_vcells : list (list mpi_cell_t))
    (rank : nat) (p : process) : result process :=
  let size := List.length all_vcells in
  let vcells := nth rank all_vcells [] in
  (* MPI_Allgather of the sizes *)
  let counts := map (@List.length mpi_cell_t) all_vcells in
  let '(totalrecv, nrecvCOM_, noffsets) := exchange_offsets size counts in
  let recvCOM_ :=
    allgatherv all_vcells nrecvCOM_ noffsets (repeat cell_default totalrecv) in
  _ <- for_loopM (List.length vcells) (fun i (_ : unit) =>
         assert (peq (position (nth i vcells cell_default))
                     (position (cget recvCOM_ (i + iget noffsets rank / sizeof_cell))))
           AssertOwnOrder) tt ;;
  Ok (mkProcess (p_tree p) (p_bodies p) recvCOM_ nrecvCOM_ (p_stdout p)).

Definition mpi_exchange_cells (maxMass : R) (w : list process)
  : result (list process) :=
  let all_vcells := map (fun p => traverse maxMass (p_tree p) []) w in
  on_every_rank (mpi_exchange_cells_rank all_vcells) w.

(** [mpi_compute_fmm]; the iterations of the parallel loop are independent
    and are run here in index order. *)
Definition mpi_compute_fmm_rank (fresh_id : branch_id_t) (macangle : R)
    (p : process) : result process :=
  r <- for_eachM (fun cell (s : list mpi_cell_t * list string) =>
         c <- compute_cell fresh_id (p_tree p) macangle cell (snd s) ;;
         Ok (fst s ++ [fst c], snd c))
         (recvCOM p) ([], p_stdout p) ;;
  Ok (mkProcess (p_tree p) (p_bodies p) (fst r) (nrecvCOM p) (snd r)).

Definition mpi_compute_fmm (fresh_id : branch_id_t) (macangle : R)
    (w : list process) : result (list process) :=
  on_every_rank (fun _ => mpi_compute_fmm_rank fresh_id macangle) w.

(** The displacement loop of [mpi_gather_cells]: [(soffsets, noffsets)]. *)
Definition gather_offsets (size rank : nat) (nrecvCOM_ : list nat)
  : list nat * list nat :=
  for_range 1 size (fun i (s : list nat * list nat) =>
    let '(soffsets, noffsets) := s in
    (upd i (fun _ => iget soffsets (i - 1) + iget nrecvCOM_ (i - 1))%nat soffsets,
     upd i (fun _ => iget noffsets (i - 1) + iget nrecvCOM_ rank)%nat noffsets))
    (repeat 0%nat size, repeat 0%nat size).

(** [MPI_Alltoallv] as seen by the receiver [rank]: the sender [i] ships the
    part of its [recvCOM] that starts at its [soffsets[rank]] and is
    [nrecvCOM[rank]] bytes long; it lands at [noffsets[i]], at most [nrecv[i]]
    bytes of it. *)
Definition alltoallv (w : list process) (rank : nat) (nrecv noffsets : list nat)
    (recvbuf : list mpi_cell_t) : list mpi_cell_t :=
  fold_left (fun buf (x : nat * process) =>
    let '(i, sender) := x in
    let soffsets := fst (gather_offsets (List.length w) i (nrecvCOM sender)) in
    let data :=
      slice (iget soffsets rank / sizeof_cell)
            (iget (nrecvCOM sender) rank / sizeof_cell) (recvCOM sender) in
    write_at (iget noffsets i / sizeof_cell)
      (firstn (iget nrecv i / sizeof_cell) data) buf)
    (combine (seq 0 (List.length w)) w) recvbuf.

(** [mpi_gather_cells] on one rank of the world [w]. *)
Definition mpi_gather_cells_rank (w : list process) (rank : nat) (p : process)
  : result process :=
  let size := List.length w in
  let ncells := (iget (nrecvCOM p) rank / sizeof_cell)%nat in
  let nrecv := repeat (iget (nrecvCOM p) rank) size in
  let noffsets := snd (gather_offsets size rank (nrecvCOM p)) in
  let recvcells :=
    alltoallv w rank nrecv noffsets (repeat cell_default (ncells * size)) in
  _ <- assert (List.length recvcells =? ncells * size)%nat AssertRecvSize ;;
  recvcells <- reduce_cells size ncells recvcells ;;
  st <- apply_cells (p_tree p) ncells recvcells (p_bodies p) ;;
  Ok (mkProcess (p_tree p) st (recvCOM p) (nrecvCOM p) (p_stdout p)).

Definition mpi_gather_cells (w : list process) : result (list process) :=
  on_every_rank (mpi_gather_cells_rank w) w.

(** One gravity step: the three member functions in the order the driver
    calls them. *)
Definition gravity_step (maxMass macangle : R) (fresh_id : branch_id_t)
    (w : list process) : result (list process) :=
  w1 <- mpi_exchange_cells maxMass w ;;
  w2 <- mpi_compute_fmm fresh_id macangle w1 ;;
  mpi_gather_cells w2.

End Exchange.

(** The holders the descent reaches, in the order it reaches them: the local
    holders of the leaves below [b] whose ancestors up to [b] all have a
    positive mass. *)
Fixpoint c2p_visited (b : branch_t) : list body_holder :=
  if dle (getMass b) 0 then []
  else
    match b with
    | Leaf _ ents => filter h_local ents
    | Node _ cs => flat_map c2p_visited cs
    end.

(** ** The reduction, cell by cell *)

(** The cell that chunk [i] holds for slot [j]. *)
Definition chunk_cell (recvcells : list mpi_cell_t) (ncells i j : nat) : mpi_cell_t :=
  cget recvcells (i * ncells + j).

(** The sum of [f] over the chunks [0 .. i-1] of slot [j]. *)
Definition partial_sum (f : mpi_cell_t -> R) (recvcells : list mpi_cell_t)
    (ncells i j : nat) : R :=
  sum_R (map (fun t => f (chunk_cell recvcells ncells t j)) (seq 0 i)).

(** The arrays of a cell have their declared sizes. *)
Definition wf_cell (c : mpi_cell_t) : Prop :=
  List.length (dfcdr c) = 9%nat /\ List.length (dfcdrdr c) = 27%nat.

(** The body of the loop over [k] as it acts on the cell of slot [j], given
    the cell [src] it reads from chunk [i]. *)
Definition comp_step (src : mpi_cell_t) (k : nat) (c : mpi_cell_t) : mpi_cell_t :=
  let c :=
    if (k <? 9)%nat then set_dfcdr (add_at k (aget (dfcdr src) k) (dfcdr c)) c else c in
  set_dfcdrdr (add_at k (aget (dfcdrdr src) k) (dfcdrdr c)) c.

Definition comp_body (src : mpi_cell_t) (k : nat) (c : mpi_cell_t) : result mpi_cell_t :=
  let c' := comp_step src k c in
  _ <- assert (dlt (aget (dfcdrdr c') k) 1000) AssertHessianBound ;;
  Ok c'.

(** The body of the loop over [j] as it acts on the cell of slot [j]. *)
Definition merge (src c : mpi_cell_t) : result mpi_cell_t :=
  _ <- assert (peq (position c) (position src)) AssertSamePosition ;;
  _ <- assert (c_id c =? c_id src)%nat AssertSameId ;;
  for_loopM 27 (comp_body src) (set_fc (padd (fc c) (fc src)) c).

(** The fields the reduction leaves alone. *)
Definition same_header (c c' : mpi_cell_t) : Prop :=
  position c' = position c /\ bmin c' = bmin c /\ bmax c' = bmax c
  /\ c_id c' = c_id c.

(** The state of the cell of slot [j] after [K] rounds of the loop over [k],
    started from [c0]. *)
Definition comp_inv (src c0 : mpi_cell_t) (K : nat) (c : mpi_cell_t) : Prop :=
  same_header c0 c /\ fc c = fc c0 /\ wf_cell c
  /\ (forall k, aget (dfcdr c) k
                = aget (dfcdr c0) k
                  + (if (k <? K)%nat && (k <? 9)%nat then aget (dfcdr src) k else 0))
  /\ (forall k, aget (dfcdrdr c) k
                = aget (dfcdrdr c0) k
                  + (if (k <? K)%nat then aget (dfcdrdr src) k else 0))
  /\ (forall k, (k < K)%nat -> aget (dfcdrdr c0) k + aget (dfcdrdr src) k < 1000).

(** [c'] is [c] with the tensor fields of [src] added. *)
Definition merged (src c c' : mpi_cell_t) : Prop :=
  same_header c c' /\ fc c' = padd (fc c) (fc src) /\ wf_cell c'
  /\ (forall k, (k < 9)%nat ->
        aget (dfcdr c') k = aget (dfcdr c) k + aget (dfcdr src) k)
  /\ (forall k, (k < 27)%nat ->
        aget (dfcdrdr c') k = aget (dfcdrdr c) k + aget (dfcdrdr src) k).

(** The three assertions of one slot hold for [src] against [c]. *)
Definition mergeable (src c : mpi_cell_t) : Prop :=
  position c = position src /\ c_id c = c_id src
  /\ (forall k, (k < 27)%nat -> aget (dfcdrdr c) k + aget (dfcdrdr src) k < 1000).

(** The assertions of chunk [t] hold for slot [j] of the received array. *)
Definition checks_pass (rc : list mpi_cell_t) (ncells t j : nat) : Prop :=
  position (cget rc j) = position (chunk_cell rc ncells t j)
  /\ c_id (cget rc j) = c_id (chunk_cell rc ncells t j)
  /\ (forall k, (k < 27)%nat ->
        partial_sum (fun y => aget (dfcdrdr y) k) rc ncells (S t) j < 1000).

(** [c] is slot [j] after the chunks [1 .. I-1] have been added. *)
Definition reduced (rc : list mpi_cell_t) (ncells I j : nat) (c : mpi_cell_t) : Prop :=
  same_header (cget rc j) c /\ wf_cell c
  /\ (forall x, (x < 3)%nat ->
        pidx (fc c) x = partial_sum (fun y => pidx (fc y) x) rc ncells I j)
  /\ (forall k, (k < 9)%nat ->
        aget (dfcdr c) k = partial_sum (fun y => aget (dfcdr y) k) rc ncells I j)
  /\ (forall k, (k < 27)%nat ->
        aget (dfcdrdr c) k = partial_sum (fun y => aget (dfcdrdr y) k) rc ncells I j)
  /\ (forall t, (1 <= t < I)%nat -> checks_pass rc ncells t j).

(** The array after the slots [0 .. J-1] of chunk [i] have been added to
    [rc]. *)
Definition slots_inv (rc : list mpi_cell_t) (ncells i J : nat)
    (rcJ : list mpi_cell_t) : Prop :=
  List.length rcJ = List.length rc
  /\ (forall m, (J <= m)%nat -> cget rcJ m = cget rc m)
  /\ (forall j, (j < J)%nat ->
        merge (chunk_cell rc ncells i j) (cget rc j) = Ok (cget rcJ j)).

(** The array after the chunks [1 .. I-1] have been added to [rc]. *)
Definition chunks_inv (rc : list mpi_cell_t) (ncells I : nat)
    (rcI : list mpi_cell_t) : Prop :=
  List.length rcI = List.length rc
  /\ (forall m, (ncells <= m)%nat -> cget rcI m = cget rc m)
  /\ (forall j, (j < ncells)%nat -> reduced rc ncells I j (cget rcI j)).

(** ** What a step may change *)

(** Two stores with the same bodies up to their accelerations. *)
Definition same_bodies (st st' : store) : Prop :=
  List.length st' = List.length st
  /\ (forall b, bd_position (getBody st' b) = bd_position (getBody st b)
                /\ bd_mass (getBody st' b) = bd_mass (getBody st b)).

(** The tree of the process (its branches and the holders in its leaves, with
    their positions, masses and locality flags) is the same, and so are the
    position and the mass of every body. *)
Definition frame (p p' : process) : Prop :=
  p_tree p' = p_tree p /\ same_bodies (p_bodies p) (p_bodies p').

(** [b] with [v] added to its acceleration. *)
Definition add_acceleration (v : point_t) (b : body) : body :=
  mkBody (bd_position b) (bd_mass b) (padd (bd_acceleration b) v).

(** The store in which the body at address [k + i] has [d (k + i)] added to
    its acceleration, [i] counting from the head of [st]. *)
Fixpoint shift_from (d : body_ptr -> point_t) (k : nat) (st : store) : store :=
  match st with
  | [] => []
  | b :: r => add_acceleration (d k) b :: shift_from d (S k) r
  end.

Definition shift_store (d : body_ptr -> point_t) (st : store) : store :=
  shift_from d 0 st.

Definition shift_process (d : body_ptr -> point_t) (p : process) : process :=
  mkProcess (p_tree p) (shift_store d (p_bodies p)) (recvCOM p) (nrecvCOM p)
    (p_stdout p).

Definition shift_c2p (d : body_ptr -> point_t) (s : c2p_state) : c2p_state :=
  mkC2P (neighbors s) (nbody s) (shift_store d (c2p_bodies s)).

Definition shift_counted (d : body_ptr -> point_t) (s : nat * store) : nat * store :=
  (fst s, shift_store d (snd s)).

(** [g rank process] on every process of the world, ranks counted from [k]. *)
Fixpoint mapi_from {A B : Type} (g : nat -> A -> B) (k : nat) (l : list A) : list B :=
  match l with
  | [] => []
  | x :: r => g k x :: mapi_from g (S k) r
  end.

(** The world in which the accelerations of rank [r] are shifted by
    [ds r]. *)
Definition shift_world (ds : nat -> body_ptr -> point_t) (w : list process)
  : list process :=
  mapi_from (fun r => shift_process (ds r)) 0 w.

(** ** Relating two runs *)

Definition result_map {A B : Type} (f : A -> B) (r : result A) : result B :=
  match r with
  | Ok a => Ok (f a)
  | Abort e => Abort e
  end.

(** The accumulators a traversal returns, without what it printed. *)
Definition accumulators (r : result c2c_state) : result accum := result_map fst r.

(** Two sinks with the same centre of mass and box. *)
Definition same_geometry (k1 k2 : branch_t) : Prop :=
  getPosition k1 = getPosition k2
  /\ getBMin k1 = getBMin k2
  /\ getBMax k1 = getBMax k2.

(** Both runs abort with the same assertion, or both return and the values
    are related. *)
Definition rrel {S : Type} (rel : S -> S -> Prop) (r1 r2 : result S) : Prop :=
  match r1, r2 with
  | Ok a, Ok b => rel a b
  | Abort e1, Abort e2 => e1 = e2
  | _, _ => False
  end.

(** Two traversal states with the same accumulators. *)
Definition same_accum (s1 s2 : c2c_state) : Prop := fst s1 = fst s2.

(** ** Sample configurations *)

(** A unit mass at the origin in a box reduced to a point. *)
Definition ex_source : branch_t :=
  Leaf (mkInfo 7 pzero 1 pzero pzero) [].

(** A sink at (1,0,0) in a box reduced to that point. *)
Definition ex_sink (i : branch_id_t) : branch_t :=
  Leaf (mkInfo i (mkPoint 1 0 0) 0 (mkPoint 1 0 0) (mkPoint 1 0 0)) [].

(** A sink at (1,0,0) whose box has the origin strictly inside. *)
Definition ex_sink_around : branch_t :=
  Leaf (mkInfo 0 (mkPoint 1 0 0) 0 (mkPoint (-2) (-2) (-2)) (mkPoint 2 2 2)) [].

(** A root of mass 3 over two local leaves and one leaf without mass. *)
Definition ex_tree : branch_t :=
  Node (mkInfo 0 pzero 3 pzero (mkPoint 1 1 1))
    [ Leaf (mkInfo 1 pzero 1 pzero pzero) [];
      Leaf (mkInfo 2 (mkPoint 1 1 1) 2 (mkPoint 1 1 1) (mkPoint 1 1 1)) [];
      Leaf (mkInfo 3 pzero 0 pzero pzero) [] ].

(** One leaf holding one local body, and the store with that body. *)
Definition ex_holder : body_holder := mkHolder (mkPoint 1 0 0) 1 true 0.

Definition ex_leaf : branch_t :=
  Leaf (mkInfo 0 (mkPoint 1 0 0) 1 (mkPoint 1 0 0) (mkPoint 1 0 0)) [ex_holder].

Definition ex_store : store := [mkBody (mkPoint 1 0 0) 1 pzero].

(** Two chunks of one cell each: the same centre of mass and identifier,
    different boxes. *)
Definition ex_recvcells : list mpi_cell_t :=
  [ mpi_cell pzero pzero pzero 5;
    mpi_cell pzero (mkPoint 1 1 1) (mkPoint 2 2 2) 5 ].

(** Two chunks of one cell each whose first Hessian components are 999 and
    1. *)
Definition ex_recvcells_high : list mpi_cell_t :=
  [ set_dfcdrdr (999 :: zeros 26) (mpi_cell pzero pzero pzero 5);
    set_dfcdrdr (1 :: zeros 26) (mpi_cell pzero pzero pzero 5) ].

(** One process holding [ex_leaf] and [ex_store], with empty buffers. *)
Definition ex_process : process := mkProcess ex_leaf ex_store [] [] [].

(** ** The formulas of the specification

    These follow the words of the specification, not the code; the theorems
    compare them with what the code computes. *)

Definition delta (i j : nat) : R := if (i =? j)%nat then 1 else 0.

(** [T_{ijk}(r) = δ_{ij} r_k + δ_{jk} r_i + δ_{ik} r_j] *)
Definition T_spec (r : point_t) (i j k : nat) : R :=
  delta i j * pidx r k + delta j k * pidx r i + delta i k * pidx r j.

(** "scaled by 3 when the three indices are not all equal" *)
Definition scale_spec (i j k : nat) : R :=
  if ((i =? j) && (j =? k))%nat then 1 else 3.

(** [β · [ T_{ijk}(r) − (5/d²) r_i r_j r_k ]] with [β = −3m/d⁵] and the
    scaling of [T]. *)
Definition hessian_spec (m : R) (r : point_t) (d : R) (i j k : nat) : R :=
  (-3 * m / (d * d * d * d * d))
  * (scale_spec i j k * T_spec r i j k
     - 5 / (d * d) * pidx r i * pidx r j * pidx r k).

(** The scaling the code applies: by 3 unless the truth value of [i==j]
    equals [k]. *)
Definition scale_code (i j k : nat) : R :=
  if (b2i (i =? j)%nat =? k)%nat then 1 else 3.

(** [a(p)] of the specification, component [i]. *)
Definition taylor_spec (fc : point_t) (jacobi hessian : list R) (dl : point_t)
    (i : nat) : R :=
  pidx fc i
  + sum_R (map (fun j => aget jacobi (i * 3 + j) * pidx dl j) (seq 0 3))
  + sum_R (map (fun j =>
      sum_R (map (fun k =>
        aget hessian (i * 9 + j * 3 + k) * pidx dl j * pidx dl k * (1 / 2))
        (seq 0 3))) (seq 0 3)).

(** ** Further notions used in the properties *)

(** The scalar product of two points. *)
Definition pdot (a b : point_t) : R :=
  px a * px b + py a * py b + pz a * pz b.

(** The tree without the branches of mass zero below its root. *)
Fixpoint prune (b : branch_t) : branch_t :=
  match b with
  | Leaf i ents => Leaf i ents
  | Node i cs =>
      Node i (fold_right (fun c rest => if deq (getMass c) 0 then rest
                                        else prune c :: rest) [] cs)
  end.

(** The holder is local and not strictly inside the box of the sink. *)
Definition c2c_counts (sink : branch_t) (bi : body_holder) : bool :=
  h_local bi
  && negb (plt (h_position bi) (getBMax sink) && pgt (h_position bi) (getBMin sink)).

(** The holders whose bodies the traversal takes one by one when no source is
    accepted as a point mass, in the order it reaches them. *)
Fixpoint c2c_direct (sink source : branch_t) : list body_holder :=
  if deq (getMass source) 0 then []
  else if peq (getBMin sink) (getBMin source) && peq (getBMax sink) (getBMax source)
  then []
  else if plt (getBMin sink) (getBMin source) && pgt (getBMax sink) (getBMax source)
  then []
  else
    match source with
    | Leaf _ ents => filter (c2c_counts sink) ents
    | Node _ cs => flat_map (c2c_direct sink) cs
    end.

(** The point contribution of the body of one holder. *)
Definition accumulate_holder (sink : branch_t) (bi : body_holder) (s : c2c_state)
  : result c2c_state :=
  accumulate (getPosition sink) (h_position bi) (h_mass bi) s.

(** A source at the origin with a box of diagonal 3, holding one local body
    at (1,0,0). *)
Definition ex_source_leaf : branch_t :=
  Leaf (mkInfo 7 pzero 1 pzero (mkPoint 3 0 0)) [ex_holder].

(** The arrays of [s'] have the sizes of those of [s]. *)
Definition same_sizes (s s' : c2c_state) : Prop :=
  List.length (a_jacobi (fst s')) = List.length (a_jacobi (fst s))
  /\ List.length (a_hessian (fst s')) = List.length (a_hessian (fst s)).

(** Component [c] of what the body at [nb] adds to the direct sum of the body
    at [bi]. *)
Definition pair_term (st : store) (c : nat) (bi nb : body_ptr) : R :=
  let dist := distance (bd_position (getBody st bi)) (bd_position (getBody st nb)) in
  if dlt 0 dist then
    - bd_mass (getBody st nb) / (dist * dist * dist)
    * (pidx (bd_position (getBody st bi)) c - pidx (bd_position (getBody st nb)) c)
  else 0.

(** Two bodies at distance 1 with masses 2 and 3. *)
Definition ex_pair : store :=
  [mkBody pzero 2 pzero; mkBody (mkPoint 1 0 0) 3 pzero].

(** The byte counts and displacements of the two collectives are [int]s in
    the source, and signed overflow is undefined: the properties of the
    collectives below are stated for counts that fit an [int], where the
    arithmetic of the source is the one of the natural numbers. *)
Definition INT_MAX : Z := 2147483647%Z.

Definition fits_int (n : nat) : Prop := (Z.of_nat n <= INT_MAX)%Z.

(** The number of cells that the ranks before [i] contribute. *)
Definition cells_before (all_vcells : list (list mpi_cell_t)) (i : nat) : nat :=
  List.length (concat (firstn i all_vcells)).

(** The state of the offsets loop of [mpi_exchange_cells] after [k] rounds. *)
Definition offsets_inv (sz : nat) (all_vcells : list (list mpi_cell_t)) (k : nat)
    (s : nat * list nat * list nat) : Prop :=
  let '(totalrecv, nrecv, noffsets) := s in
  totalrecv = cells_before all_vcells k
  /\ List.length nrecv = List.length all_vcells
  /\ List.length noffsets = List.length all_vcells
  /\ (forall j, (j < k)%nat -> iget nrecv j = (List.length (nth j all_vcells []) * sz)%nat)
  /\ (forall j, (k <= j)%nat -> iget nrecv j = List.length (nth j all_vcells []))
  /\ (forall j, (j <= k)%nat -> (j < List.length all_vcells)%nat ->
        iget noffsets j = (cells_before all_vcells j * sz)%nat)
  /\ (forall j, (k < j)%nat -> iget noffsets j = 0%nat).

(** What [mpi_exchange_cells] leaves on a process: the catalog of all the
    frontiers in rank order and their sizes in bytes. *)
Definition exchanged (sz : nat) (all_vcells : list (list mpi_cell_t)) (p : process)
  : process :=
  mkProcess (p_tree p) (p_bodies p) (concat all_vcells)
    (map (fun v => (List.length v * sz)%nat) all_vcells) (p_stdout p).

(** What [mpi_compute_fmm] may change in a cell: the tensor fields, whose
    sizes stay. *)
Definition computed (c c' : mpi_cell_t) : Prop :=
  same_header c c'
  /\ List.length (dfcdr c') = List.length (dfcdr c)
  /\ List.length (dfcdrdr c') = List.length (dfcdrdr c).

(** What [mpi_compute_fmm] may change on a process: the tensor fields of the
    cells of [recvCOM], and the output. *)
Definition computed_process (p p' : process) : Prop :=
  p_tree p' = p_tree p /\ p_bodies p' = p_bodies p /\ nrecvCOM p' = nrecvCOM p
  /\ Forall2 computed (recvCOM p) (recvCOM p').

(** One process holding [ex_leaf] and [ex_store], after the scatter. *)
Definition ex_process_scattered : process :=
  mkProcess ex_leaf ex_store [cell_of_branch ex_leaf] [1%nat] [].

(** The part of its catalog that a sender ships to [rank]: its copies of the
    cells of the frontier of [rank]. *)
Definition block_for (all_vcells : list (list mpi_cell_t)) (rank : nat)
    (sender : process) : list mpi_cell_t :=
  slice (cells_before all_vcells rank) (List.length (nth rank all_vcells []))
    (recvCOM sender).

(** The byte counts every rank holds after the scatter. *)
Definition byte_counts (sz : nat) (all_vcells : list (list mpi_cell_t)) : list nat :=
  map (fun v => (List.length v * sz)%nat) all_vcells.

(** The state of the displacement loop of [mpi_gather_cells] before round
    [k]. *)
Definition gather_offsets_inv (sz : nat) (all_vcells : list (list mpi_cell_t))
    (rank k : nat) (s : list nat * list nat) : Prop :=
  let '(soffsets, noffsets) := s in
  List.length soffsets = List.length all_vcells
  /\ List.length noffsets = List.length all_vcells
  /\ (forall j, (j < k)%nat -> (j < List.length all_vcells)%nat ->
        iget soffsets j = (cells_before all_vcells j * sz)%nat
        /\ iget noffsets j = (j * iget (byte_counts sz all_vcells) rank)%nat).

(** The process holds the byte counts and a catalog of the size the scatter
    gives. *)
Definition holds_catalog (sz : nat) (all_vcells : list (list mpi_cell_t))
    (p : process) : Prop :=
  nrecvCOM p = byte_counts sz all_vcells
  /\ List.length (recvCOM p) = List.length (concat all_vcells).

(** * Properties *)

(** ** Comparisons and arrays *)

Lemma dlt_true (x y : R) : dlt x y = true <-> x < y.
Proof. unfold dlt. destruct (Rlt_dec x y); split; intros; try discriminate; tauto. Qed.

Lemma dlt_false (x y : R) : dlt x y = false <-> y <= x.
Proof.
  unfold dlt. destruct (Rlt_dec x y); split; intros; try discriminate; try lra;
  reflexivity.
Qed.

Lemma dle_true (x y : R) : dle x y = true <-> x <= y.
Proof. unfold dle. destruct (Rle_dec x y); split; intros; try discriminate; tauto. Qed.

Lemma dle_false (x y : R) : dle x y = false <-> y < x.
Proof.
  unfold dle. destruct (Rle_dec x y); split; intros; try discriminate; try lra;
  reflexivity.
Qed.

Lemma deq_true (x y : R) : deq x y = true <-> x = y.
Proof. unfold deq. destruct (Req_dec_T x y); split; intros; try discriminate; tauto. Qed.

Lemma deq_false (x y : R) : deq x y = false <-> x <> y.
Proof.
  unfold deq. destruct (Req_dec_T x y); split; intros; try discriminate; tauto.
Qed.

Lemma deq_refl (x : R) : deq x x = true.
Proof. apply deq_true. reflexivity. Qed.

Lemma peq_refl (p : point_t) : peq p p = true.
Proof. unfold peq. rewrite !deq_refl. reflexivity. Qed.

Lemma peq_true (a b : point_t) : peq a b = true <-> a = b.
Proof.
  unfold peq. rewrite !andb_true_iff, !deq_true.
  destruct a, b; simpl. split.
  - intros [[-> ->] ->]. reflexivity.
  - intros H. injection H as -> -> ->. auto.
Qed.

Lemma upd_length {A : Type} (k : nat) (f : A -> A) (a : list A) :
  List.length (upd k f a) = List.length a.
Proof.
  revert k. induction a as [|x a IH]; intros [|k]; simpl; auto.
Qed.

Lemma nth_upd_same {A : Type} (k : nat) (f : A -> A) (a : list A) (d : A) :
  (k < List.length a)%nat -> nth k (upd k f a) d = f (nth k a d).
Proof.
  revert k. induction a as [|x a IH]; intros [|k] H; simpl in *; try lia; auto.
  apply IH. lia.
Qed.

Lemma nth_upd_other {A : Type} (k n : nat) (f : A -> A) (a : list A) (d : A) :
  n <> k -> nth n (upd k f a) d = nth n a d.
Proof.
  revert k n. induction a as [|x a IH]; intros [|k] [|n] H; simpl; auto; try lia.
Qed.

Lemma upd_out {A : Type} (k : nat) (f : A -> A) (a : list A) :
  (List.length a <= k)%nat -> upd k f a = a.
Proof.
  revert k. induction a as [|x a IH]; intros [|k] H; simpl in *; auto; try lia.
  f_equal. apply IH. lia.
Qed.

(** Unfolding of the loops of the tensor code on literal bounds, leaving the
    real arithmetic alone. *)
Ltac unroll :=
  cbv [for_loop fold_left seq hessian_step jacobi_step add_at upd aget nth
       Nat.eqb Nat.add Nat.mul Nat.ltb Nat.leb b2i negb pidx padd_at
       psub padd pscale px py pz scale_code scale_spec T_spec delta andb
       hessian_spec taylor_spec sum_R map fold_right zeros repeat pzero].

(** A list of known length as its elements. *)
Ltac explode l H :=
  simpl in H;
  repeat (destruct l as [|? l]; [discriminate H|]; simpl in H);
  destruct l; [clear H|discriminate H].

Lemma distance_unit_x : distance (mkPoint 1 0 0) pzero = 1.
Proof.
  unfold distance, pzero. simpl.
  replace ((1 - 0) * (1 - 0) + (0 - 0) * (0 - 0) + (0 - 0) * (0 - 0)) with 1 by ring.
  apply sqrt_1.
Qed.

Lemma distance_nonneg (a b : point_t) : 0 <= distance a b.
Proof. unfold distance. apply sqrt_pos. Qed.

Lemma distance_self (a : point_t) : distance a a = 0.
Proof.
  unfold distance.
  replace ((px a - px a) * (px a - px a) + (py a - py a) * (py a - py a)
           + (pz a - pz a) * (pz a - pz a)) with 0 by ring.
  apply sqrt_0.
Qed.

(** What the Hessian loop adds to each slot: the term [T] is scaled by
    [scale_code], the rest is the formula of the specification. *)
Lemma hessian_loop_slot (diffPos : point_t) (dist hc : R) (H : list R)
    (i j k : nat) :
  List.length H = 27%nat -> (i < 3)%nat -> (j < 3)%nat -> (k < 3)%nat ->
  aget (for_loop 3 (fun i => for_loop 3 (fun j => for_loop 3 (fun k =>
          hessian_step diffPos dist hc i j k))) H) (i * 9 + j * 3 + k)
  = aget H (i * 9 + j * 3 + k)
    + (hc * (scale_code i j k * T_spec diffPos i j k)
       + hc * -5 / (dist * dist) * pidx diffPos i * pidx diffPos j * pidx diffPos k).
Proof.
  intros HL Hi Hj Hk.
  explode H HL.
  destruct i as [|[|[|i]]]; try lia;
  destruct j as [|[|[|j]]]; try lia;
  destruct k as [|[|[|k]]]; try lia;
  unroll; ring.
Qed.

(** C1 (the code departs from the claim).  Sink at (1,0,0), unit source at
    the origin, zero accumulators: the distance is 1 and the indices
    [i = j = k = 0] are all equal, so the specification asks for
    [β (T − 5 r_0³) = −3 (3 − 5) = 6] in slot 0.  The code tests
    [!(i==j==k)], which is [(i==j)==k], i.e. [1 == 0]: it scales [T] by 3
    and stores [−3·9 + 15 = −12]. *)
Theorem C1_hessian_all_equal_indices_scaled :
  exists a,
    computeAcceleration (mkPoint 1 0 0) pzero 1 accum_zero = Ok a
    /\ aget (a_hessian a) (0 * 9 + 0 * 3 + 0) = -12
    /\ aget (a_hessian accum_zero) (0 * 9 + 0 * 3 + 0)
       + hessian_spec 1 (psub (mkPoint 1 0 0) pzero)
           (distance (mkPoint 1 0 0) pzero) 0 0 0 = 6.
Proof.
  unfold computeAcceleration. rewrite distance_unit_x.
  assert (Hd : dlt 0 1 = true) by (apply dlt_true; lra).
  rewrite Hd. cbn [assert bind].
  eexists. split; [reflexivity|].
  cbn [a_hessian accum_zero]. split.
  - rewrite hessian_loop_slot by (try reflexivity; lia).
    unroll. field.
  - unroll. field.
Qed.

(** ** Frontier selection *)

(** Induction on a branch with the hypothesis available for every child. *)
Lemma branch_nested_ind (P : branch_t -> Prop) :
  (forall i ents, P (Leaf i ents)) ->
  (forall i cs, Forall P cs -> P (Node i cs)) ->
  forall b, P b.
Proof.
  intros HL HN.
  fix self 1. intros [i ents | i cs].
  - apply HL.
  - apply HN. induction cs as [|c cs IH]; constructor; [apply self | exact IH].
Qed.

Lemma traverse_children (maxMass : R) (cs : list branch_t) :
  Forall (fun c => forall here v,
            traverse maxMass c v
            = v ++ map (fun x => cell_of_branch (snd x)) (frontier_from maxMass here c))
         cs ->
  forall here i v,
    fold_left (fun v c => traverse maxMass c v) cs v
    = v ++ map (fun x => cell_of_branch (snd x))
             (over_children (fun i c => frontier_from maxMass (here ++ [i]) c) cs i).
Proof.
  induction 1 as [|c cs Hc _ IH]; intros here i v; simpl.
  - rewrite app_nil_r. reflexivity.
  - rewrite (Hc (here ++ [i])), (IH here (S i)), map_app, app_assoc. reflexivity.
Qed.

(** The cells pushed by [traverse] are the cells of the recorded branches,
    in the same order. *)
Lemma traverse_frontier_from (maxMass : R) (b : branch_t) :
  forall here v,
    traverse maxMass b v
    = v ++ map (fun x => cell_of_branch (snd x)) (frontier_from maxMass here b).
Proof.
  induction b as [i ents | i cs IH] using branch_nested_ind; intros here v.
  - simpl. destruct (deq (getMass (Leaf i ents)) 0); simpl.
    + rewrite app_nil_r. reflexivity.
    + reflexivity.
  - simpl. destruct (deq (getMass (Node i cs)) 0); simpl.
    + rewrite app_nil_r. reflexivity.
    + destruct (dlt (getMass (Node i cs)) maxMass); simpl.
      * reflexivity.
      * apply traverse_children. exact IH.
Qed.

Lemma sum_R_app (l1 l2 : list R) : sum_R (l1 ++ l2) = sum_R l1 + sum_R l2.
Proof.
  induction l1 as [|x l1 IH]; simpl.
  - ring.
  - rewrite IH. ring.
Qed.

Lemma frontier_mass_from (maxMass : R) (b : branch_t) :
  mass_consistent b ->
  forall here, frontier_mass (frontier_from maxMass here b) = getMass b.
Proof.
  induction b as [i ents | i cs IH] using branch_nested_ind; intros Hm here.
  - simpl. destruct (deq (getMass (Leaf i ents)) 0) eqn:E; unfold frontier_mass; simpl.
    + apply deq_true in E. symmetry. exact E.
    + ring.
  - simpl. destruct (deq (getMass (Node i cs)) 0) eqn:E.
    + apply deq_true in E. unfold frontier_mass. simpl. symmetry. exact E.
    + simpl. destruct (dlt (getMass (Node i cs)) maxMass).
      * unfold frontier_mass. simpl. ring.
      * destruct Hm as [Hsum Hall]. unfold getMass at 1. simpl. rewrite Hsum.
        clear Hsum E. generalize 0%nat as k.
        induction IH as [|c cs Hc _ IHcs]; intros k; simpl.
        -- reflexivity.
        -- destruct Hall as [Hc' Hall]. unfold frontier_mass in *.
           rewrite map_app, sum_R_app, (Hc Hc'), (IHcs Hall). reflexivity.
Qed.

(** C4.  When every internal branch carries the sum of its children's masses
    and [maxMass > 0], the masses of the branches emitted by the selection
    traversal add up to the mass of the root.  The first conjunct ties the
    recorded branches to the cells [traverse] pushes. *)
Theorem C4_frontier_mass_is_root_mass (root : branch_t) (maxMass : R) :
  mass_consistent root ->
  0 < maxMass ->
  traverse maxMass root [] = map cell_of_branch (map snd (frontier maxMass root))
  /\ frontier_mass (frontier maxMass root) = getMass root.
Proof.
  intros Hm _. split.
  - rewrite (traverse_frontier_from maxMass root [] []), map_map. reflexivity.
  - apply frontier_mass_from. exact Hm.
Qed.

Lemma in_over_children {A : Type} (f : nat -> branch_t -> list A)
    (cs : list branch_t) (k : nat) (a : A) :
  In a (over_children f cs k) ->
  exists j c, nth_error cs j = Some c /\ In a (f (k + j)%nat c).
Proof.
  revert k. induction cs as [|c cs IH]; intros k H; simpl in H.
  - contradiction.
  - apply in_app_or in H. destruct H as [H | H].
    + exists 0%nat, c. rewrite Nat.add_0_r. auto.
    + destruct (IH _ H) as (j & c' & Hj & Hin).
      exists (S j), c'. rewrite Nat.add_succ_r. auto.
Qed.

(** Every recorded address starts at [here] and leads to the recorded
    branch. *)
Lemma frontier_from_address (maxMass : R) (b : branch_t) :
  forall here p x,
    In (p, x) (frontier_from maxMass here b) ->
    exists s, p = here ++ s /\ branch_at s b = Some x.
Proof.
  induction b as [i ents | i cs IH] using branch_nested_ind; intros here p x Hin.
  - simpl in Hin. destruct (deq _ 0); simpl in Hin; [contradiction|].
    destruct Hin as [Hin | []]. injection Hin as <- <-.
    exists []. rewrite app_nil_r. auto.
  - simpl in Hin. destruct (deq _ 0); simpl in Hin; [contradiction|].
    destruct (dlt _ maxMass); simpl in Hin.
    + destruct Hin as [Hin | []]. injection Hin as <- <-.
      exists []. rewrite app_nil_r. auto.
    + apply in_over_children in Hin. destruct Hin as (j & c & Hj & Hin).
      rewrite Forall_forall in IH.
      destruct (IH c (nth_error_In _ _ Hj) _ _ _ Hin) as (s & -> & Hs).
      exists (j :: s). rewrite <- app_assoc. split; [reflexivity|].
      simpl. rewrite Hj. exact Hs.
Qed.

Lemma not_strict_prefix_self (p : path) : ~ strict_prefix p p.
Proof.
  intros (i & r & H). apply (f_equal (@List.length nat)) in H.
  rewrite length_app in H. simpl in H. lia.
Qed.

Lemma frontier_from_disjoint (maxMass : R) (b : branch_t) :
  forall here p q x y,
    In (p, x) (frontier_from maxMass here b) ->
    In (q, y) (frontier_from maxMass here b) ->
    ~ strict_prefix p q.
Proof.
  induction b as [i ents | i cs IH] using branch_nested_ind;
    intros here p q x y Hp Hq.
  - simpl in Hp, Hq. destruct (deq _ 0); simpl in Hp, Hq; [contradiction|].
    destruct Hp as [Hp | []]. destruct Hq as [Hq | []].
    injection Hp as <- <-. injection Hq as <- <-. apply not_strict_prefix_self.
  - simpl in Hp, Hq. destruct (deq _ 0); simpl in Hp, Hq; [contradiction|].
    destruct (dlt _ maxMass); simpl in Hp, Hq.
    + destruct Hp as [Hp | []]. destruct Hq as [Hq | []].
      injection Hp as <- <-. injection Hq as <- <-. apply not_strict_prefix_self.
    + apply in_over_children in Hp. destruct Hp as (j1 & c1 & Hj1 & Hp).
      apply in_over_children in Hq. destruct Hq as (j2 & c2 & Hj2 & Hq).
      simpl in Hp, Hq. rewrite Forall_forall in IH.
      intros (k & r & Hpre).
      destruct (frontier_from_address _ _ _ _ _ Hp) as (s1 & E1 & _).
      destruct (frontier_from_address _ _ _ _ _ Hq) as (s2 & E2 & _).
      rewrite E1, E2 in Hpre. rewrite <- !app_assoc in Hpre.
      apply app_inv_head in Hpre. simpl in Hpre.
      injection Hpre as Hj Htail. subst j2.
      rewrite Hj1 in Hj2. injection Hj2 as <-.
      apply (IH c1 (nth_error_In _ _ Hj1) _ _ _ _ _ Hp Hq).
      exists k, r. rewrite E1, E2, Htail, <- !app_assoc. reflexivity.
Qed.

(** C7.  Among the branches emitted by the selection traversal, none sits
    strictly below another: every emitted branch is the branch of the tree at
    its recorded address, and no recorded address is a strict prefix of
    another one. *)
Theorem C7_frontier_disjoint (root : branch_t) (maxMass : R) :
  traverse maxMass root [] = map cell_of_branch (map snd (frontier maxMass root))
  /\ (forall p x, In (p, x) (frontier maxMass root) -> branch_at p root = Some x)
  /\ (forall p q x y,
        In (p, x) (frontier maxMass root) ->
        In (q, y) (frontier maxMass root) ->
        ~ strict_prefix p q).
Proof.
  split; [|split].
  - rewrite (traverse_frontier_from maxMass root [] []), map_map. reflexivity.
  - intros p x Hin.
    destruct (frontier_from_address _ _ _ _ _ Hin) as (s & -> & Hs). exact Hs.
  - intros p q x y. apply frontier_from_disjoint.
Qed.

(** ** Cell-to-particle descent *)

Lemma pidx_padd (a b : point_t) (i : nat) : pidx (padd a b) i = pidx a i + pidx b i.
Proof. destruct i as [|[|i]]; reflexivity. Qed.

(** The value computed in the leaf loop is the expansion of the
    specification: the code contracts the Hessian with [diffPos[k]] over the
    middle index and with [diffPos[j]] over the last one. *)
Lemma taylor_grav_spec (sinkPosition fc : point_t) (jacobi hessian : list R)
    (bi : body_holder) (i : nat) :
  (i < 3)%nat ->
  pidx (taylor_grav sinkPosition fc jacobi hessian bi) i
  = taylor_spec fc jacobi hessian (psub (h_position bi) sinkPosition) i.
Proof.
  intros Hi. unfold taylor_grav, taylor_spec.
  generalize (psub (h_position bi) sinkPosition) as dl.
  generalize (aget jacobi) as J. generalize (aget hessian) as H.
  intros H J [dx dy dz]. destruct fc as [fx fy fz].
  destruct i as [|[|[|i]]]; try lia; unroll; field.
Qed.

Lemma c2p_leaf_filter (sp fc : point_t) (J H : list R) (ents : list body_holder) :
  forall s,
    fold_left (fun s bi => c2p_leaf_body sp fc J H bi s) ents s
    = fold_left (fun s bi => c2p_leaf_body sp fc J H bi s) (filter h_local ents) s.
Proof.
  induction ents as [|bi ents IH]; intros s; simpl; [reflexivity|].
  destruct (h_local bi) eqn:E; simpl.
  - apply IH.
  - rewrite <- IH. unfold c2p_leaf_body at 2. rewrite E. reflexivity.
Qed.

(** The descent is the leaf loop body run over the holders it reaches. *)
Lemma sink_traversal_c2p_visited (sp fc : point_t) (J H : list R) (b : branch_t) :
  forall s,
    sink_traversal_c2p b sp fc J H s
    = fold_left (fun s bi => c2p_leaf_body sp fc J H bi s) (c2p_visited b) s.
Proof.
  induction b as [i ents | i cs IH] using branch_nested_ind; intros s; simpl.
  - destruct (dle _ 0); [reflexivity|]. apply c2p_leaf_filter.
  - destruct (dle _ 0); [reflexivity|].
    revert s. induction IH as [|c cs Hc _ IHcs]; intros s; simpl; [reflexivity|].
    rewrite fold_left_app, <- Hc. apply IHcs.
Qed.

Lemma getBody_setAcceleration_same (st : store) (p : body_ptr) (a : point_t) :
  (p < List.length st)%nat ->
  bd_acceleration (getBody (setAcceleration p a st) p) = a.
Proof.
  intros Hp. unfold getBody, setAcceleration. rewrite nth_upd_same by exact Hp.
  reflexivity.
Qed.

Lemma getBody_setAcceleration_other (st : store) (p q : body_ptr) (a : point_t) :
  q <> p -> getBody (setAcceleration p a st) q = getBody st q.
Proof. intros Hq. unfold getBody, setAcceleration. apply nth_upd_other. exact Hq. Qed.

Lemma setAcceleration_length (st : store) (p : body_ptr) (a : point_t) :
  List.length (setAcceleration p a st) = List.length st.
Proof. apply upd_length. Qed.

(** What the leaf loop body does to the acceleration of the body at [r]. *)
Lemma c2p_leaf_body_acceleration (sp fc : point_t) (J H : list R)
    (bi : body_holder) (s : c2p_state) (r : body_ptr) (i : nat) :
  h_local bi = true ->
  (r < List.length (c2p_bodies s))%nat -> (i < 3)%nat ->
  pidx (bd_acceleration (getBody (c2p_bodies (c2p_leaf_body sp fc J H bi s)) r)) i
  = pidx (bd_acceleration (getBody (c2p_bodies s) r)) i
    + (if (h_body bi =? r)%nat
       then taylor_spec fc J H (psub (h_position bi) sp) i else 0).
Proof.
  intros Hl Hr Hi. unfold c2p_leaf_body. rewrite Hl. simpl.
  destruct (Nat.eqb_spec (h_body bi) r) as [-> | Hne].
  - rewrite getBody_setAcceleration_same by exact Hr.
    rewrite pidx_padd, taylor_grav_spec by exact Hi. ring.
  - rewrite getBody_setAcceleration_other by congruence. ring.
Qed.

Lemma c2p_leaf_body_length (sp fc : point_t) (J H : list R)
    (bi : body_holder) (s : c2p_state) :
  List.length (c2p_bodies (c2p_leaf_body sp fc J H bi s)) = List.length (c2p_bodies s).
Proof.
  unfold c2p_leaf_body. destruct (h_local bi); simpl; [|reflexivity].
  apply setAcceleration_length.
Qed.

Lemma c2p_fold_acceleration (sp fc : point_t) (J H : list R) (r : body_ptr) (i : nat)
    (l : list body_holder) :
  Forall (fun bi => h_local bi = true) l -> (i < 3)%nat ->
  forall s, (r < List.length (c2p_bodies s))%nat ->
    pidx (bd_acceleration (getBody (c2p_bodies
            (fold_left (fun s bi => c2p_leaf_body sp fc J H bi s) l s)) r)) i
    = pidx (bd_acceleration (getBody (c2p_bodies s) r)) i
      + sum_R (map (fun bi => taylor_spec fc J H (psub (h_position bi) sp) i)
                 (filter (fun bi => (h_body bi =? r)%nat) l)).
Proof.
  intros Hl Hi. induction Hl as [|bi l Hbi _ IH]; intros s Hr; simpl.
  - ring.
  - rewrite IH by (rewrite c2p_leaf_body_length; exact Hr).
    rewrite c2p_leaf_body_acceleration by assumption.
    destruct (h_body bi =? r)%nat; simpl; ring.
Qed.

Lemma c2p_visited_local (b : branch_t) :
  Forall (fun bi => h_local bi = true) (c2p_visited b).
Proof.
  induction b as [i ents | i cs IH] using branch_nested_ind; simpl.
  - destruct (dle _ 0); [constructor|].
    apply Forall_forall. intros bi Hin. apply filter_In in Hin. tauto.
  - destruct (dle _ 0); [constructor|].
    induction IH as [|c cs Hc _ IHcs]; simpl; [constructor|].
    apply Forall_app. split; assumption.
Qed.

Lemma c2p_fold_neighbors (sp fc : point_t) (J H : list R) (l : list body_holder) :
  Forall (fun bi => h_local bi = true) l ->
  forall s,
    neighbors (fold_left (fun s bi => c2p_leaf_body sp fc J H bi s) l s)
    = neighbors s ++ map h_body l.
Proof.
  induction 1 as [|bi l Hbi _ IH]; intros s; simpl.
  - rewrite app_nil_r. reflexivity.
  - rewrite IH. unfold c2p_leaf_body. rewrite Hbi. simpl.
    rewrite <- app_assoc. reflexivity.
Qed.

Lemma filter_none {A : Type} (f : A -> bool) (l : list A) :
  (forall y, In y l -> f y = false) -> filter f l = [].
Proof.
  induction l as [|y l IH]; intros H; simpl; [reflexivity|].
  rewrite (H y) by (left; reflexivity). apply IH. intros z Hz. apply H. right. exact Hz.
Qed.

(** Among holders that point to distinct bodies, the holders pointing to the
    body of [bi] are [bi] alone. *)
Lemma filter_h_body_unique (l : list body_holder) (bi : body_holder) :
  NoDup (map h_body l) -> In bi l ->
  filter (fun y => (h_body y =? h_body bi)%nat) l = [bi].
Proof.
  induction l as [|y l IH]; intros Hnd Hin; simpl in *; [contradiction|].
  inversion Hnd as [|? ? Hnotin Hnd']; subst.
  destruct Hin as [-> | Hin].
  - rewrite Nat.eqb_refl. f_equal. apply filter_none.
    intros z Hz. apply Nat.eqb_neq. intros E. apply Hnotin.
    rewrite <- E. apply in_map. exact Hz.
  - replace (h_body y =? h_body bi)%nat with false; [apply IH; assumption|].
    symmetry. apply Nat.eqb_neq. intros E. apply Hnotin.
    rewrite E. apply in_map. exact Hin.
Qed.

(** C5.  The bodies the descent pushes to [neighbors] are those of the
    holders it visits; for a body of the store (address [r]) the descent
    adds, per component [i], the expansion [a(p)] of the specification once
    for every visited holder that points to it, with [p] the position of the
    holder and [delta = p - sinkPosition], and nothing else; so when the
    visited holders point to distinct bodies, the body of a visited holder
    [bi] receives exactly [a(p)]. *)
Theorem C5_c2p_adds_taylor_expansion (b : branch_t) (sinkPosition fc : point_t)
    (jacobi hessian : list R) (s : c2p_state) (r : body_ptr) (i : nat) :
  (r < List.length (c2p_bodies s))%nat ->
  (i < 3)%nat ->
  neighbors (sink_traversal_c2p b sinkPosition fc jacobi hessian s)
  = neighbors s ++ map h_body (c2p_visited b)
  /\ pidx (bd_acceleration
             (getBody (c2p_bodies (sink_traversal_c2p b sinkPosition fc jacobi hessian s))
                r)) i
     = pidx (bd_acceleration (getBody (c2p_bodies s) r)) i
       + sum_R (map (fun bi =>
                  taylor_spec fc jacobi hessian (psub (h_position bi) sinkPosition) i)
                (filter (fun bi => (h_body bi =? r)%nat) (c2p_visited b)))
  /\ (NoDup (map h_body (c2p_visited b)) ->
      forall bi, In bi (c2p_visited b) -> h_body bi = r ->
        pidx (bd_acceleration
                (getBody (c2p_bodies
                   (sink_traversal_c2p b sinkPosition fc jacobi hessian s)) r)) i
        = pidx (bd_acceleration (getBody (c2p_bodies s) r)) i
          + taylor_spec fc jacobi hessian (psub (h_position bi) sinkPosition) i).
Proof.
  intros Hr Hi. rewrite sink_traversal_c2p_visited.
  assert (Hsum := c2p_fold_acceleration sinkPosition fc jacobi hessian r i
                    (c2p_visited b) (c2p_visited_local b) Hi s Hr).
  split; [|split].
  - apply c2p_fold_neighbors. apply c2p_visited_local.
  - exact Hsum.
  - intros Hnd bi Hin Hbi. rewrite Hsum. subst r.
    rewrite (filter_h_body_unique _ bi Hnd Hin). simpl. ring.
Qed.

(** ** Cell-to-cell traversal *)

Lemma upd_id {A : Type} (k : nat) (f : A -> A) (a : list A) :
  (forall x, f x = x) -> upd k f a = a.
Proof.
  intros Hf. revert k. induction a as [|x a IH]; intros [|k]; simpl; auto.
  - rewrite Hf. reflexivity.
  - rewrite IH. reflexivity.
Qed.

Lemma add_at_zero (k : nat) (v : R) (a : list R) : v = 0 -> add_at k v a = a.
Proof. intros ->. apply upd_id. intros x. ring. Qed.

Lemma point_eta (p : point_t) : mkPoint (px p) (py p) (pz p) = p.
Proof. destruct p. reflexivity. Qed.

(** A source without mass contributes nothing. *)
Lemma computeAcceleration_zero_mass (p q : point_t) (acc : accum) :
  0 < distance p q -> computeAcceleration p q 0 acc = Ok acc.
Proof.
  intros Hd. unfold computeAcceleration.
  apply dlt_true in Hd. rewrite Hd. cbn [assert bind].
  destruct acc as [fc J H]. cbn [a_fc a_jacobi a_hessian]. f_equal. f_equal.
  - unfold padd, pscale. cbn [px py pz].
    rewrite <- (point_eta fc) at 4. f_equal; unfold Rdiv; ring.
  - cbv [for_loop fold_left seq jacobi_step Nat.eqb].
    repeat (rewrite add_at_zero by (unfold Rdiv; ring)). reflexivity.
  - cbv [for_loop fold_left seq hessian_step].
    repeat (rewrite add_at_zero by (unfold Rdiv; ring)). reflexivity.
Qed.

Lemma MAC_true (sink source : branch_t) (macangle : R) :
  MAC sink source macangle = true
  <-> distance (getPosition sink) (getPosition source) <> 0
      /\ distance (getBMin source) (getBMax source)
         / distance (getPosition sink) (getPosition source) < macangle.
Proof.
  unfold MAC. destruct (deq _ 0) eqn:E.
  - apply deq_true in E. split; [discriminate | tauto].
  - apply deq_false in E. rewrite dlt_true. tauto.
Qed.

(** Past the three filters an accepted source is handled through its header
    only. *)
Lemma tree_traversal_c2c_header (sink source : branch_t) (macangle : R)
    (s : c2c_state) :
  MAC sink source macangle = true ->
  peq (getBMin sink) (getBMin source) && peq (getBMax sink) (getBMax source) = false ->
  plt (getBMin sink) (getBMin source) && pgt (getBMax sink) (getBMax source) = false ->
  tree_traversal_c2c sink macangle source s
  = let s' := if (id sink =? id source)%nat then log_same_id s else s in
    if deq (getMass source) 0 then Ok s'
    else accumulate (getPosition sink) (getPosition source) (getMass source) s'.
Proof.
  intros Hmac Hsame Hin.
  destruct source; simpl; rewrite Hsame, Hin, Hmac; reflexivity.
Qed.

Lemma tree_traversal_c2c_accepted (sink source : branch_t) (macangle : R)
    (s : c2c_state) :
  MAC sink source macangle = true ->
  peq (getBMin sink) (getBMin source) && peq (getBMax sink) (getBMax source) = false ->
  plt (getBMin sink) (getBMin source) && pgt (getBMax sink) (getBMax source) = false ->
  exists a out,
    computeAcceleration (getPosition sink) (getPosition source) (getMass source) (fst s)
    = Ok a
    /\ tree_traversal_c2c sink macangle source s = Ok (a, out).
Proof.
  intros Hmac Hsame Hin.
  assert (Hd : 0 < distance (getPosition sink) (getPosition source)).
  { apply MAC_true in Hmac. destruct Hmac as [Hne _].
    pose proof (distance_nonneg (getPosition sink) (getPosition source)). lra. }
  rewrite tree_traversal_c2c_header by assumption.
  set (s' := if (id sink =? id source)%nat then log_same_id s else s).
  assert (Hfst : fst s' = fst s) by (unfold s'; destruct (_ =? _)%nat; reflexivity).
  cbv zeta. destruct (deq (getMass source) 0) eqn:Em.
  - apply deq_true in Em. rewrite Em.
    exists (fst s), (snd s'). rewrite computeAcceleration_zero_mass by exact Hd.
    split; [reflexivity|]. rewrite <- Hfst. destruct s'. reflexivity.
  - unfold accumulate. rewrite Hfst.
    destruct (computeAcceleration _ _ _ (fst s)) as [a | f] eqn:Ec.
    + exists a, (snd s'). split; reflexivity.
    + unfold computeAcceleration in Ec. apply dlt_true in Hd. rewrite Hd in Ec.
      discriminate Ec.
Qed.

(** C6 (amended).  [MAC] is true exactly when the diagonal of the source box
    over the distance between the two centres of mass is below the angle (for
    a zero distance it is false); and when it is true for a source that is
    neither the box of the sink nor strictly inside it, the traversal returns
    the accumulators [computeAcceleration] gives for the source taken as a
    point mass at its centre of mass, whatever the children of the source
    are. *)
Theorem C6_mac_accepts_point_mass (sink source : branch_t) (macangle : R)
    (s : c2c_state) :
  (MAC sink source macangle = true
   <-> distance (getPosition sink) (getPosition source) <> 0
       /\ distance (getBMin source) (getBMax source)
          / distance (getPosition sink) (getPosition source) < macangle)
  /\ (MAC sink source macangle = true ->
      peq (getBMin sink) (getBMin source) && peq (getBMax sink) (getBMax source) = false ->
      plt (getBMin sink) (getBMin source) && pgt (getBMax sink) (getBMax source) = false ->
      (exists a out,
         computeAcceleration (getPosition sink) (getPosition source) (getMass source)
           (fst s) = Ok a
         /\ tree_traversal_c2c sink macangle source s = Ok (a, out))
      /\ tree_traversal_c2c sink macangle source s
         = tree_traversal_c2c sink macangle (Leaf (info_of source) []) s).
Proof.
  split; [apply MAC_true|].
  intros Hmac Hsame Hin. split.
  - apply tree_traversal_c2c_accepted; assumption.
  - rewrite (tree_traversal_c2c_header sink source) by assumption.
    rewrite (tree_traversal_c2c_header sink (Leaf (info_of source) []))
      by (destruct source; assumption).
    destruct source; reflexivity.
Qed.

(** ** Concrete runs *)

(** Comparisons between numerals. *)
Ltac dcmp :=
  repeat match goal with
  | |- context [dlt ?a ?b] =>
      first [ rewrite (proj2 (dlt_true a b)) by lra
            | rewrite (proj2 (dlt_false a b)) by lra ]
  | |- context [dle ?a ?b] =>
      first [ rewrite (proj2 (dle_true a b)) by lra
            | rewrite (proj2 (dle_false a b)) by lra ]
  | |- context [deq ?a ?b] =>
      first [ rewrite (proj2 (deq_true a b)) by lra
            | rewrite (proj2 (deq_false a b)) by lra ]
  end.

Lemma C4_frontier_mass_witness :
  mass_consistent ex_tree /\ 0 < 2
  /\ traverse 2 ex_tree [] = map cell_of_branch (map snd (frontier 2 ex_tree))
  /\ frontier_mass (frontier 2 ex_tree) = getMass ex_tree.
Proof.
  assert (Hm : mass_consistent ex_tree).
  { simpl. unfold getMass. simpl. repeat split. lra. }
  assert (Hpos : 0 < 2) by lra.
  split; [exact Hm | split; [exact Hpos|]].
  exact (C4_frontier_mass_is_root_mass ex_tree 2 Hm Hpos).
Defined.

Lemma C5_c2p_witness :
  (0 < List.length ex_store)%nat /\ (0 < 3)%nat
  /\ neighbors (sink_traversal_c2p ex_leaf pzero (mkPoint 1 2 3) (zeros 9) (zeros 27)
                  (mkC2P [] 0%nat ex_store))
     = neighbors (mkC2P [] 0%nat ex_store) ++ map h_body (c2p_visited ex_leaf)
  /\ pidx (bd_acceleration
             (getBody (c2p_bodies
                (sink_traversal_c2p ex_leaf pzero (mkPoint 1 2 3) (zeros 9) (zeros 27)
                   (mkC2P [] 0%nat ex_store))) 0)) 0
     = pidx (bd_acceleration (getBody ex_store 0)) 0
       + sum_R (map (fun bi =>
                  taylor_spec (mkPoint 1 2 3) (zeros 9) (zeros 27)
                    (psub (h_position bi) pzero) 0)
                (filter (fun bi => (h_body bi =? 0)%nat) (c2p_visited ex_leaf))).
Proof.
  assert (H1 : (0 < List.length ex_store)%nat) by (simpl; lia).
  assert (H2 : (0 < 3)%nat) by lia.
  split; [exact H1 | split; [exact H2|]].
  destruct (C5_c2p_adds_taylor_expansion ex_leaf pzero (mkPoint 1 2 3) (zeros 9)
              (zeros 27) (mkC2P [] 0%nat ex_store) 0 0 H1 H2) as (Hn & Hsum & _).
  split; [exact Hn | exact Hsum].
Defined.

Lemma MAC_ex_sink (i : branch_id_t) : MAC (ex_sink i) ex_source (1 / 2) = true.
Proof.
  apply MAC_true. unfold ex_sink, ex_source. cbn [getPosition getBMin getBMax info_of
    i_position i_bmin i_bmax].
  rewrite distance_unit_x, distance_self. split; lra.
Qed.

Lemma MAC_ex_sink_around : MAC ex_sink_around ex_source (1 / 2) = true.
Proof.
  apply MAC_true. unfold ex_sink_around, ex_source. cbn [getPosition getBMin getBMax
    info_of i_position i_bmin i_bmax].
  rewrite distance_unit_x, distance_self. split; lra.
Qed.

Lemma computeAcceleration_ex :
  exists a, computeAcceleration (mkPoint 1 0 0) pzero 1 accum_zero = Ok a
            /\ px (a_fc a) = -1.
Proof.
  unfold computeAcceleration. rewrite distance_unit_x. dcmp. cbn [assert bind].
  eexists. split; [reflexivity|]. cbn [a_fc accum_zero]. unroll. field.
Qed.

(** C6, as stated, fails: the source box lies strictly inside the box of the
    sink, so the traversal returns at the containment filter with the
    accumulators untouched, although [MAC] is true and the point-mass
    contribution of the source is not zero. *)
Lemma C6_mac_true_but_filtered :
  MAC ex_sink_around ex_source (1 / 2) = true
  /\ tree_traversal_c2c ex_sink_around (1 / 2) ex_source (accum_zero, [])
     = Ok (accum_zero, [])
  /\ exists a,
       computeAcceleration (getPosition ex_sink_around) (getPosition ex_source)
         (getMass ex_source) accum_zero = Ok a
       /\ px (a_fc a) = -1
       /\ px (a_fc accum_zero) = 0.
Proof.
  split; [apply MAC_ex_sink_around|]. split.
  - unfold ex_sink_around, ex_source. simpl.
    unfold getMass, getBMin, getBMax, peq, plt, pgt, plt. simpl. dcmp.
    simpl. reflexivity.
  - destruct computeAcceleration_ex as (a & Ha & Hx).
    exists a. repeat split; [exact Ha | exact Hx].
Qed.

Lemma C6_mac_witness :
  MAC (ex_sink 0) ex_source (1 / 2) = true
  /\ peq (getBMin (ex_sink 0)) (getBMin ex_source)
     && peq (getBMax (ex_sink 0)) (getBMax ex_source) = false
  /\ plt (getBMin (ex_sink 0)) (getBMin ex_source)
     && pgt (getBMax (ex_sink 0)) (getBMax ex_source) = false
  /\ (exists a out,
        computeAcceleration (getPosition (ex_sink 0)) (getPosition ex_source)
          (getMass ex_source) (fst (accum_zero, @nil string)) = Ok a
        /\ tree_traversal_c2c (ex_sink 0) (1 / 2) ex_source (accum_zero, []) = Ok (a, out))
  /\ tree_traversal_c2c (ex_sink 0) (1 / 2) ex_source (accum_zero, [])
     = tree_traversal_c2c (ex_sink 0) (1 / 2) (Leaf (info_of ex_source) []) (accum_zero, []).
Proof.
  assert (H1 : MAC (ex_sink 0) ex_source (1 / 2) = true) by apply MAC_ex_sink.
  assert (H2 : peq (getBMin (ex_sink 0)) (getBMin ex_source)
               && peq (getBMax (ex_sink 0)) (getBMax ex_source) = false).
  { unfold peq. simpl. dcmp. reflexivity. }
  assert (H3 : plt (getBMin (ex_sink 0)) (getBMin ex_source)
               && pgt (getBMax (ex_sink 0)) (getBMax ex_source) = false).
  { unfold plt. simpl. dcmp. reflexivity. }
  split; [exact H1 | split; [exact H2 | split; [exact H3|]]].
  exact (proj2 (C6_mac_accepts_point_mass (ex_sink 0) ex_source (1 / 2) (accum_zero, []))
           H1 H2 H3).
Defined.

(** ** The identifier test of the traversal *)

Lemma fold_bind_rel {X S : Type} (rel : S -> S -> Prop)
    (f g : X -> S -> result S) (l : list X) :
  Forall (fun x => forall s1 s2, rel s1 s2 -> rrel rel (f x s1) (g x s2)) l ->
  forall r1 r2,
    rrel rel r1 r2 ->
    rrel rel (fold_left (fun r x => bind r (f x)) l r1)
             (fold_left (fun r x => bind r (g x)) l r2).
Proof.
  induction 1 as [|x l Hx _ IH]; intros r1 r2 Hr; simpl; [exact Hr|].
  apply IH. destruct r1, r2; simpl in *; try contradiction; auto.
Qed.

Lemma fold_bind_inv {X S : Type} (P : S -> Prop) (f : X -> S -> result S)
    (l : list X) :
  Forall (fun x => forall s s', P s -> f x s = Ok s' -> P s') l ->
  forall r s',
    (forall s, r = Ok s -> P s) ->
    fold_left (fun r x => bind r (f x)) l r = Ok s' -> P s'.
Proof.
  induction 1 as [|x l Hx _ IH]; intros r s' Hr Hfold; simpl in Hfold.
  - apply Hr. exact Hfold.
  - apply (IH (bind r (f x))); [|exact Hfold].
    intros s E. destruct r as [s0|e]; simpl in E; [|discriminate].
    apply (Hx s0 s); [apply Hr; reflexivity | exact E].
Qed.

Lemma fold_bind_abort {X S : Type} (f : X -> S -> result S) (l : list X) (e : failure) :
  fold_left (fun r x => bind r (f x)) l (Abort e) = Abort e.
Proof. induction l as [|x l IH]; simpl; auto. Qed.

Lemma accumulate_rel (p q : point_t) (m : R) (s1 s2 : c2c_state) :
  same_accum s1 s2 ->
  rrel same_accum (accumulate p q m s1) (accumulate p q m s2).
Proof.
  unfold same_accum, accumulate. intros ->.
  destruct (computeAcceleration p q m (fst s2)); simpl; reflexivity.
Qed.

Lemma MAC_same_geometry (k1 k2 source : branch_t) (macangle : R) :
  same_geometry k1 k2 -> MAC k1 source macangle = MAC k2 source macangle.
Proof. intros (Hp & _ & _). unfold MAC. rewrite Hp. reflexivity. Qed.

Lemma c2c_leaf_body_rel (k1 k2 : branch_t) (bi : body_holder) (s1 s2 : c2c_state) :
  same_geometry k1 k2 -> same_accum s1 s2 ->
  rrel same_accum (c2c_leaf_body k1 bi s1) (c2c_leaf_body k2 bi s2).
Proof.
  intros (Hp & Hmin & Hmax) Hs. unfold c2c_leaf_body. rewrite Hp, Hmin, Hmax.
  destruct (h_local bi); [|exact Hs].
  destruct (negb _); [|exact Hs].
  apply accumulate_rel. exact Hs.
Qed.

(** The accumulators the traversal returns depend on the sink through its
    centre of mass and box only, and not on what has been printed. *)
Lemma tree_traversal_c2c_rel (macangle : R) (source : branch_t) :
  forall k1 k2 s1 s2,
    same_geometry k1 k2 -> same_accum s1 s2 ->
    rrel same_accum (tree_traversal_c2c k1 macangle source s1)
                    (tree_traversal_c2c k2 macangle source s2).
Proof.
  induction source as [i ents | i cs IH] using branch_nested_ind;
    intros k1 k2 s1 s2 Hg Hs.
  - simpl. rewrite (MAC_same_geometry k1 k2) by exact Hg.
    destruct Hg as (Hp & Hmin & Hmax). rewrite Hp, Hmin, Hmax.
    set (t1 := if (id k1 =? _)%nat then log_same_id s1 else s1).
    set (t2 := if (id k2 =? _)%nat then log_same_id s2 else s2).
    assert (Ht : same_accum t1 t2).
    { unfold t1, t2, same_accum in *. do 2 destruct (_ =? _)%nat; exact Hs. }
    destruct (deq _ 0); [exact Ht|].
    destruct (_ && _); [exact Ht|].
    destruct (_ && _); [exact Ht|].
    destruct (MAC _ _ _); [apply accumulate_rel; exact Ht|].
    apply fold_bind_rel; [|exact Ht].
    apply Forall_forall. intros bi _ u1 u2 Hu.
    apply c2c_leaf_body_rel; [repeat split; assumption | exact Hu].
  - simpl. rewrite (MAC_same_geometry k1 k2) by exact Hg.
    pose proof Hg as (Hp & Hmin & Hmax). rewrite Hp, Hmin, Hmax.
    set (t1 := if (id k1 =? _)%nat then log_same_id s1 else s1).
    set (t2 := if (id k2 =? _)%nat then log_same_id s2 else s2).
    assert (Ht : same_accum t1 t2).
    { unfold t1, t2, same_accum in *. do 2 destruct (_ =? _)%nat; exact Hs. }
    destruct (deq _ 0); [exact Ht|].
    destruct (_ && _); [exact Ht|].
    destruct (_ && _); [exact Ht|].
    destruct (MAC _ _ _); [apply accumulate_rel; exact Ht|].
    apply fold_bind_rel; [|exact Ht].
    eapply Forall_impl; [|exact IH]. intros c Hc u1 u2 Hu. apply Hc; assumption.
Qed.

Lemma rrel_accumulators (r1 r2 : result c2c_state) :
  rrel same_accum r1 r2 -> accumulators r1 = accumulators r2.
Proof.
  destruct r1, r2; simpl; try contradiction.
  - unfold same_accum. intros ->. reflexivity.
  - intros ->. reflexivity.
Qed.



(** ** Reduction of the gathered cells *)

Lemma upd_upd {A : Type} (k : nat) (f g : A -> A) (a : list A) :
  upd k f (upd k g a) = upd k (fun x => f (g x)) a.
Proof.
  revert k. induction a as [|x a IH]; intros [|k]; simpl; auto.
  rewrite IH. reflexivity.
Qed.

Lemma upd_const {A : Type} (k : nat) (f : A -> A) (a : list A) (d : A) :
  upd k f a = upd k (fun _ => f (nth k a d)) a.
Proof.
  revert k. induction a as [|x a IH]; intros [|k]; simpl; auto.
  rewrite <- IH. reflexivity.
Qed.

Lemma upd_self {A : Type} (k : nat) (a : list A) (d : A) :
  upd k (fun _ => nth k a d) a = a.
Proof.
  revert k. induction a as [|x a IH]; intros [|k]; simpl; auto.
  rewrite IH. reflexivity.
Qed.

Lemma cget_upd_same (j : nat) (f : mpi_cell_t -> mpi_cell_t) (rc : list mpi_cell_t) :
  (j < List.length rc)%nat -> cget (upd j f rc) j = f (cget rc j).
Proof. apply nth_upd_same. Qed.

Lemma cget_upd_other (j m : nat) (f : mpi_cell_t -> mpi_cell_t) (rc : list mpi_cell_t) :
  m <> j -> cget (upd j f rc) m = cget rc m.
Proof. apply nth_upd_other. Qed.

Lemma for_loopM_S {S : Type} (n : nat) (body : nat -> S -> result S) (s : S) :
  for_loopM (Datatypes.S n) body s = bind (for_loopM n body s) (body n).
Proof.
  unfold for_loopM. rewrite seq_S, fold_left_app. reflexivity.
Qed.

Lemma for_rangeM_S {S : Type} (lo n : nat) (body : nat -> S -> result S) (s : S) :
  for_rangeM lo (lo + Datatypes.S n) body s
  = bind (for_rangeM lo (lo + n) body s) (body (lo + n)%nat).
Proof.
  unfold for_rangeM.
  replace (lo + Datatypes.S n - lo)%nat with (Datatypes.S n) by lia.
  replace (lo + n - lo)%nat with n by lia.
  rewrite seq_S, fold_left_app. reflexivity.
Qed.

(** Loop invariants for loops that may abort. *)
Lemma for_loopM_inv {S : Type} (P : nat -> S -> Prop) (body : nat -> S -> result S)
    (n : nat) (s : S) :
  P 0%nat s ->
  (forall k t t', (k < n)%nat -> P k t -> body k t = Ok t' -> P (Datatypes.S k) t') ->
  forall s', for_loopM n body s = Ok s' -> P n s'.
Proof.
  intros H0 Hstep. induction n as [|n IH]; intros s' Hrun.
  - unfold for_loopM in Hrun. simpl in Hrun. injection Hrun as <-. exact H0.
  - rewrite for_loopM_S in Hrun.
    destruct (for_loopM n body s) as [t|e] eqn:E; simpl in Hrun; [|discriminate].
    apply (Hstep n t s'); [lia | | exact Hrun].
    apply IH; [|reflexivity]. intros k u u' Hk. apply Hstep. lia.
Qed.

Lemma for_loopM_total {S : Type} (P : nat -> S -> Prop) (body : nat -> S -> result S)
    (n : nat) (s : S) :
  P 0%nat s ->
  (forall k t, (k < n)%nat -> P k t -> exists t', body k t = Ok t' /\ P (Datatypes.S k) t') ->
  exists s', for_loopM n body s = Ok s' /\ P n s'.
Proof.
  intros H0 Hstep. induction n as [|n IH].
  - exists s. split; [reflexivity | exact H0].
  - destruct IH as (t & Ht & HP); [intros k u Hk; apply Hstep; lia|].
    destruct (Hstep n t) as (t' & Ht' & HP'); [lia | exact HP|].
    exists t'. rewrite for_loopM_S, Ht. simpl. auto.
Qed.

Lemma for_rangeM_inv {S : Type} (P : nat -> S -> Prop) (body : nat -> S -> result S)
    (lo n : nat) (s : S) :
  P lo s ->
  (forall k t t', (lo <= k < lo + n)%nat -> P k t -> body k t = Ok t' ->
                  P (Datatypes.S k) t') ->
  forall s', for_rangeM lo (lo + n) body s = Ok s' -> P (lo + n)%nat s'.
Proof.
  intros H0 Hstep. induction n as [|n IH]; intros s' Hrun.
  - unfold for_rangeM in Hrun. replace (lo + 0 - lo)%nat with 0%nat in Hrun by lia.
    simpl in Hrun. injection Hrun as <-. rewrite Nat.add_0_r. exact H0.
  - rewrite for_rangeM_S in Hrun.
    destruct (for_rangeM lo (lo + n) body s) as [t|e] eqn:E; simpl in Hrun; [|discriminate].
    rewrite Nat.add_succ_r.
    apply (Hstep (lo + n)%nat t s'); [lia | | exact Hrun].
    apply IH; [|reflexivity]. intros k u u' Hk. apply Hstep. lia.
Qed.

Lemma for_rangeM_total {S : Type} (P : nat -> S -> Prop) (body : nat -> S -> result S)
    (lo n : nat) (s : S) :
  P lo s ->
  (forall k t, (lo <= k < lo + n)%nat -> P k t ->
               exists t', body k t = Ok t' /\ P (Datatypes.S k) t') ->
  exists s', for_rangeM lo (lo + n) body s = Ok s' /\ P (lo + n)%nat s'.
Proof.
  intros H0 Hstep. induction n as [|n IH].
  - exists s. unfold for_rangeM. replace (lo + 0 - lo)%nat with 0%nat by lia.
    rewrite Nat.add_0_r. split; [reflexivity | exact H0].
  - destruct IH as (t & Ht & HP); [intros k u Hk; apply Hstep; lia|].
    destruct (Hstep (lo + n)%nat t) as (t' & Ht' & HP'); [lia | exact HP|].
    exists t'. rewrite for_rangeM_S, Ht, Nat.add_succ_r. simpl. auto.
Qed.

(** The two array updates and the assertion of one [k] are [comp_body] on
    the cell of slot [j]. *)
Lemma reduce_component_cell (ncells i j k : nat) (rc : list mpi_cell_t) :
  (j < List.length rc)%nat -> (i * ncells + j)%nat <> j ->
  reduce_component ncells i j k rc
  = bind (comp_body (cget rc (i * ncells + j)) k (cget rc j))
         (fun c' => Ok (upd j (fun _ => c') rc)).
Proof.
  intros Hj Hne. unfold reduce_component, comp_body, comp_step.
  destruct (k <? 9)%nat.
  - rewrite !(cget_upd_other j (i * ncells + j)) by exact Hne.
    rewrite upd_upd. rewrite cget_upd_same by exact Hj.
    destruct (dlt _ 1000); cbn [assert bind]; [|reflexivity].
    f_equal. rewrite (upd_const j _ rc cell_default). reflexivity.
  - rewrite cget_upd_same by exact Hj.
    destruct (dlt _ 1000); cbn [assert bind]; [|reflexivity].
    f_equal. rewrite (upd_const j _ rc cell_default). reflexivity.
Qed.

Lemma reduce_components_cell (ncells i j : nat) (rc : list mpi_cell_t) (n : nat) :
  (j < List.length rc)%nat -> (i * ncells + j)%nat <> j ->
  for_loopM n (reduce_component ncells i j) rc
  = bind (for_loopM n (comp_body (cget rc (i * ncells + j))) (cget rc j))
         (fun c' => Ok (upd j (fun _ => c') rc)).
Proof.
  intros Hj Hne. induction n as [|n IH].
  - unfold for_loopM. cbn [seq fold_left bind]. unfold cget. rewrite upd_self. reflexivity.
  - rewrite !for_loopM_S, IH.
    destruct (for_loopM n _ (cget rc j)) as [c|e]; cbn [assert bind]; [|reflexivity].
    rewrite reduce_component_cell by (rewrite ?upd_length; assumption).
    rewrite (cget_upd_other j (i * ncells + j)) by exact Hne. rewrite cget_upd_same by exact Hj.
    destruct (comp_body _ n c); cbn [assert bind]; [|reflexivity].
    rewrite upd_upd. reflexivity.
Qed.

(** One slot of one chunk: the cell of slot [j] is merged with the cell the
    chunk holds for it, the rest of the array stays. *)
Lemma reduce_slot_merge (ncells i j : nat) (rc : list mpi_cell_t) :
  (j < List.length rc)%nat -> (i * ncells + j)%nat <> j ->
  reduce_slot ncells i j rc
  = bind (merge (chunk_cell rc ncells i j) (cget rc j))
         (fun c' => Ok (upd j (fun _ => c') rc)).
Proof.
  intros Hj Hne. unfold reduce_slot, merge, chunk_cell.
  destruct (peq _ _); cbn [assert bind]; [|reflexivity].
  destruct (_ =? _)%nat; cbn [assert bind]; [|reflexivity].
  rewrite reduce_components_cell by (rewrite ?upd_length; assumption).
  rewrite (cget_upd_other j (i * ncells + j)) by exact Hne. rewrite cget_upd_same by exact Hj.
  destruct (for_loopM 27 _ _); cbn [assert bind]; [|reflexivity].
  rewrite upd_upd. reflexivity.
Qed.

Lemma add_at_length (k : nat) (v : R) (a : list R) :
  List.length (add_at k v a) = List.length a.
Proof. apply upd_length. Qed.

Lemma aget_add_at_same (k : nat) (v : R) (a : list R) :
  (k < List.length a)%nat -> aget (add_at k v a) k = aget a k + v.
Proof. intros Hk. unfold aget, add_at. rewrite nth_upd_same by exact Hk. reflexivity. Qed.

Lemma aget_add_at_other (k k' : nat) (v : R) (a : list R) :
  k' <> k -> aget (add_at k v a) k' = aget a k'.
Proof. intros Hk. unfold aget, add_at. apply nth_upd_other. exact Hk. Qed.

Lemma comp_inv_start (src c0 : mpi_cell_t) :
  wf_cell c0 -> comp_inv src c0 0 c0.
Proof.
  intros Hwf. unfold comp_inv, same_header. repeat split; try exact (proj1 Hwf);
    try exact (proj2 Hwf).
  - intros k. simpl. ring.
  - intros k. simpl. ring.
  - intros k Hk. lia.
Qed.

Lemma comp_inv_step (src c0 : mpi_cell_t) (K : nat) (c c' : mpi_cell_t) :
  (K < 27)%nat -> comp_inv src c0 K c -> comp_body src K c = Ok c' ->
  comp_inv src c0 (S K) c'.
Proof.
  intros HK (Hh & Hfc & (Hl9 & Hl27) & HJ & HH & Hb) Hrun.
  unfold comp_body in Hrun.
  destruct (dlt _ 1000) eqn:Ebound; cbn [assert bind] in Hrun; [|discriminate].
  injection Hrun as <-. apply dlt_true in Ebound.
  assert (HH' : forall k, aget (dfcdrdr (comp_step src K c)) k
                = aget (dfcdrdr c0) k
                  + (if (k <? S K)%nat then aget (dfcdrdr src) k else 0)).
  { intros k. unfold comp_step. destruct (K <? 9)%nat; cbn [dfcdrdr set_dfcdrdr set_dfcdr].
    all: destruct (Nat.eq_dec k K) as [-> | Hne];
      [ rewrite aget_add_at_same by lia; rewrite HH;
        rewrite Nat.ltb_irrefl; replace (K <? S K)%nat with true
          by (symmetry; apply Nat.ltb_lt; lia); ring
      | rewrite aget_add_at_other by exact Hne; rewrite HH;
        replace (k <? S K)%nat with (k <? K)%nat; [reflexivity|];
        destruct (Nat.ltb_spec k K), (Nat.ltb_spec k (S K)); try reflexivity; lia ]. }
  unfold comp_inv. split; [|split; [|split; [|split; [|split]]]].
  - unfold comp_step, same_header in *. destruct (K <? 9)%nat; exact Hh.
  - unfold comp_step. destruct (K <? 9)%nat; exact Hfc.
  - unfold comp_step, wf_cell.
    destruct (K <? 9)%nat; cbn [dfcdr dfcdrdr set_dfcdrdr set_dfcdr];
      rewrite ?add_at_length; auto.
  - intros k. unfold comp_step. destruct (Nat.ltb_spec K 9) as [H9 | H9];
      cbn [dfcdr dfcdrdr set_dfcdrdr set_dfcdr].
    + destruct (Nat.eq_dec k K) as [-> | Hne].
      * rewrite aget_add_at_same by lia. rewrite HJ.
        rewrite Nat.ltb_irrefl. cbn [andb].
        replace (K <? S K)%nat with true by (symmetry; apply Nat.ltb_lt; lia).
        replace (K <? 9)%nat with true by (symmetry; apply Nat.ltb_lt; lia).
        cbn [andb]. ring.
      * rewrite aget_add_at_other by exact Hne. rewrite HJ.
        replace (k <? S K)%nat with (k <? K)%nat; [reflexivity|].
        destruct (Nat.ltb_spec k K), (Nat.ltb_spec k (S K)); try reflexivity; lia.
    + rewrite HJ.
      destruct (Nat.ltb_spec k 9) as [Hk9 | Hk9]; rewrite ?andb_false_r; [|reflexivity].
      replace (k <? S K)%nat with (k <? K)%nat; [reflexivity|].
      destruct (Nat.ltb_spec k K), (Nat.ltb_spec k (S K)); try reflexivity; lia.
  - exact HH'.
  - intros k Hk. destruct (Nat.eq_dec k K) as [-> | Hne]; [|apply Hb; lia].
    rewrite HH' in Ebound.
    replace (K <? S K)%nat with true in Ebound by (symmetry; apply Nat.ltb_lt; lia).
    exact Ebound.
Qed.

Lemma comp_body_ok (src c0 : mpi_cell_t) (K : nat) (c : mpi_cell_t) :
  (K < 27)%nat -> comp_inv src c0 K c ->
  aget (dfcdrdr c0) K + aget (dfcdrdr src) K < 1000 ->
  exists c', comp_body src K c = Ok c'.
Proof.
  intros HK (Hh & Hfc & (Hl9 & Hl27) & HJ & HH & Hb) Hbound.
  unfold comp_body.
  assert (E : aget (dfcdrdr (comp_step src K c)) K
              = aget (dfcdrdr c0) K + aget (dfcdrdr src) K).
  { unfold comp_step. destruct (K <? 9)%nat; cbn [dfcdrdr set_dfcdrdr set_dfcdr];
      rewrite aget_add_at_same by lia; rewrite HH, Nat.ltb_irrefl; ring. }
  rewrite E. rewrite (proj2 (dlt_true _ _) Hbound). cbn [assert bind].
  eexists. reflexivity.
Qed.

Lemma merge_inv (src c c' : mpi_cell_t) :
  wf_cell c -> merge src c = Ok c' -> mergeable src c /\ merged src c c'.
Proof.
  intros Hwf Hrun. unfold merge in Hrun.
  destruct (peq _ _) eqn:Epos; cbn [assert bind] in Hrun; [|discriminate].
  destruct (_ =? _)%nat eqn:Eid; cbn [assert bind] in Hrun; [|discriminate].
  apply peq_true in Epos. apply Nat.eqb_eq in Eid.
  set (c0 := set_fc (padd (fc c) (fc src)) c) in *.
  assert (Hwf0 : wf_cell c0) by exact Hwf.
  pose proof (for_loopM_inv (comp_inv src c0) (comp_body src) 27 c0
                (comp_inv_start src c0 Hwf0)
                (fun k t t' Hk => comp_inv_step src c0 k t t' Hk) c' Hrun)
    as (Hh & Hfc & Hwf' & HJ & HH & Hb).
  split.
  - split; [exact Epos | split; [exact Eid | exact Hb]].
  - split; [exact Hh | split; [exact Hfc | split; [exact Hwf' | split]]].
    + intros k Hk. rewrite HJ.
      replace (k <? 27)%nat with true by (symmetry; apply Nat.ltb_lt; lia).
      replace (k <? 9)%nat with true by (symmetry; apply Nat.ltb_lt; lia).
      reflexivity.
    + intros k Hk. rewrite HH.
      replace (k <? 27)%nat with true by (symmetry; apply Nat.ltb_lt; lia).
      reflexivity.
Qed.

Lemma merge_total (src c : mpi_cell_t) :
  wf_cell c -> mergeable src c -> exists c', merge src c = Ok c'.
Proof.
  intros Hwf (Hpos & Hid & Hb). unfold merge.
  rewrite (proj2 (peq_true _ _) Hpos). rewrite (proj2 (Nat.eqb_eq _ _) Hid).
  cbn [assert bind].
  set (c0 := set_fc (padd (fc c) (fc src)) c).
  assert (Hwf0 : wf_cell c0) by exact Hwf.
  destruct (for_loopM_total (comp_inv src c0) (comp_body src) 27 c0
              (comp_inv_start src c0 Hwf0)) as (c' & Hc' & _).
  - intros k t Hk Hinv.
    destruct (comp_body_ok src c0 k t Hk Hinv (Hb k Hk)) as (t' & Ht').
    exists t'. split; [exact Ht'|]. eapply comp_inv_step; eassumption.
  - exists c'. exact Hc'.
Qed.

Lemma partial_sum_S (f : mpi_cell_t -> R) (rc : list mpi_cell_t) (ncells i j : nat) :
  partial_sum f rc ncells (S i) j
  = partial_sum f rc ncells i j + f (chunk_cell rc ncells i j).
Proof.
  unfold partial_sum. rewrite seq_S, map_app, sum_R_app. simpl. ring.
Qed.

Lemma partial_sum_1 (f : mpi_cell_t -> R) (rc : list mpi_cell_t) (ncells j : nat) :
  partial_sum f rc ncells 1 j = f (cget rc j).
Proof. unfold partial_sum, chunk_cell. simpl. ring. Qed.

Lemma slots_inv_step (rc : list mpi_cell_t) (ncells i J : nat)
    (rcJ rc' : list mpi_cell_t) :
  (1 <= i)%nat -> (J < ncells)%nat -> (ncells <= List.length rc)%nat ->
  slots_inv rc ncells i J rcJ ->
  reduce_slot ncells i J rcJ = Ok rc' ->
  slots_inv rc ncells i (S J) rc'.
Proof.
  intros Hi HJ Hlen (Hl & Hrest & Hdone) Hrun.
  assert (Hne : (i * ncells + J)%nat <> J) by nia.
  rewrite reduce_slot_merge in Hrun by (rewrite ?Hl; lia || exact Hne).
  unfold chunk_cell in Hrun. rewrite !Hrest in Hrun by nia.
  destruct (merge _ _) as [c'|e] eqn:Em; cbn [bind] in Hrun; [|discriminate].
  injection Hrun as <-. split; [|split].
  - rewrite upd_length. exact Hl.
  - intros m Hm. rewrite cget_upd_other by lia. apply Hrest. lia.
  - intros j Hj. destruct (Nat.eq_dec j J) as [-> | Hne'].
    + rewrite cget_upd_same by lia. exact Em.
    + rewrite cget_upd_other by exact Hne'. apply Hdone. lia.
Qed.

Lemma slots_inv_start (rc : list mpi_cell_t) (ncells i : nat) :
  slots_inv rc ncells i 0 rc.
Proof. split; [reflexivity | split; [reflexivity | intros j Hj; lia]]. Qed.

(** The loop over [j] for one chunk. *)
Lemma reduce_chunk_inv (rc rc' : list mpi_cell_t) (ncells i : nat) :
  (1 <= i)%nat -> (ncells <= List.length rc)%nat ->
  for_loopM ncells (reduce_slot ncells i) rc = Ok rc' ->
  slots_inv rc ncells i ncells rc'.
Proof.
  intros Hi Hlen Hrun.
  apply (for_loopM_inv (slots_inv rc ncells i) (reduce_slot ncells i) ncells rc);
    [apply slots_inv_start | | exact Hrun].
  intros k t t' Hk Hinv Hstep. eapply slots_inv_step; eassumption.
Qed.

Lemma reduce_chunk_total (rc : list mpi_cell_t) (ncells i : nat) :
  (1 <= i)%nat -> (ncells <= List.length rc)%nat ->
  (forall j, (j < ncells)%nat ->
     exists c', merge (chunk_cell rc ncells i j) (cget rc j) = Ok c') ->
  exists rc', for_loopM ncells (reduce_slot ncells i) rc = Ok rc'
              /\ slots_inv rc ncells i ncells rc'.
Proof.
  intros Hi Hlen Hall.
  apply (for_loopM_total (slots_inv rc ncells i) (reduce_slot ncells i) ncells rc);
    [apply slots_inv_start|].
  intros J rcJ HJ Hinv.
  assert (Hrun : exists rc', reduce_slot ncells i J rcJ = Ok rc').
  { destruct Hinv as (Hl & Hrest & _).
    assert (Hne : (i * ncells + J)%nat <> J) by nia.
    rewrite reduce_slot_merge by (rewrite ?Hl; lia || exact Hne).
    unfold chunk_cell. rewrite !Hrest by nia.
    destruct (Hall J HJ) as (c' & Hc'). unfold chunk_cell in Hc'. rewrite Hc'.
    cbn [bind]. eexists. reflexivity. }
  destruct Hrun as (rc' & Hrc'). exists rc'. split; [exact Hrc'|].
  eapply slots_inv_step; eassumption.
Qed.

Lemma chunks_inv_start (rc : list mpi_cell_t) (ncells : nat) :
  (forall j, (j < ncells)%nat -> wf_cell (cget rc j)) ->
  chunks_inv rc ncells 1 rc.
Proof.
  intros Hwf. split; [reflexivity | split; [reflexivity|]].
  intros j Hj. unfold reduced, same_header. repeat split;
    try (intros; rewrite partial_sum_1; reflexivity);
    try exact (proj1 (Hwf j Hj)); try exact (proj2 (Hwf j Hj)); lia.
Qed.

(** Adding the cell of chunk [I] to a slot reduced up to chunk [I-1]. *)
Lemma reduced_step (rc : list mpi_cell_t) (ncells I j : nat) (c c' : mpi_cell_t) :
  (1 <= I)%nat ->
  reduced rc ncells I j c ->
  mergeable (chunk_cell rc ncells I j) c ->
  merged (chunk_cell rc ncells I j) c c' ->
  reduced rc ncells (S I) j c'.
Proof.
  intros HI (Hh & Hwf & Hfc & HJ & HH & Hchk) (Hpos & Hid & Hb)
         (Hh' & Hfc' & Hwf' & HJ' & HH').
  destruct Hh as (h1 & h2 & h3 & h4). destruct Hh' as (g1 & g2 & g3 & g4).
  unfold reduced, same_header.
  split; [repeat split; congruence|]. split; [exact Hwf'|].
  split; [|split; [|split]].
  - intros x Hx. rewrite Hfc', pidx_padd, Hfc, partial_sum_S by exact Hx. reflexivity.
  - intros k Hk. rewrite HJ', HJ, partial_sum_S by exact Hk. reflexivity.
  - intros k Hk. rewrite HH', HH, partial_sum_S by exact Hk. reflexivity.
  - intros t Ht. destruct (Nat.eq_dec t I) as [-> | Hne]; [|apply Hchk; lia].
    unfold checks_pass. split; [congruence | split; [congruence|]].
    intros k Hk. rewrite partial_sum_S, <- HH by exact Hk. apply Hb. exact Hk.
Qed.

Lemma chunks_inv_step (rc : list mpi_cell_t) (ncells I : nat)
    (rcI rc' : list mpi_cell_t) :
  (1 <= I)%nat -> (ncells <= List.length rc)%nat ->
  chunks_inv rc ncells I rcI ->
  for_loopM ncells (reduce_slot ncells I) rcI = Ok rc' ->
  chunks_inv rc ncells (S I) rc'.
Proof.
  intros HI Hlen (Hl & Hrest & Hred) Hrun.
  apply reduce_chunk_inv in Hrun; [|exact HI | lia].
  destruct Hrun as (Hl' & Hrest' & Hdone).
  split; [congruence | split].
  - intros m Hm. rewrite Hrest' by exact Hm. apply Hrest. exact Hm.
  - intros j Hj. specialize (Hdone j Hj).
    unfold chunk_cell in Hdone. rewrite Hrest in Hdone by nia.
    destruct (merge_inv _ _ _ (proj1 (proj2 (Hred j Hj))) Hdone) as (Hm & Hmd).
    eapply reduced_step; [exact HI | apply Hred; exact Hj | exact Hm | exact Hmd].
Qed.

(** The loop nest of the reduction, when it returns. *)
Lemma reduce_cells_inv (size ncells : nat) (rc rc' : list mpi_cell_t) :
  (0 < size)%nat -> (ncells <= List.length rc)%nat ->
  (forall j, (j < ncells)%nat -> wf_cell (cget rc j)) ->
  reduce_cells size ncells rc = Ok rc' ->
  chunks_inv rc ncells size rc'.
Proof.
  intros Hsize Hlen Hwf Hrun. unfold reduce_cells in Hrun.
  replace size with (1 + (size - 1))%nat in Hrun |- * by lia.
  apply (for_rangeM_inv (chunks_inv rc ncells)
           (fun i => for_loopM ncells (reduce_slot ncells i)) 1 (size - 1) rc);
    [apply chunks_inv_start; exact Hwf | | exact Hrun].
  intros I t t' HI Hinv Hstep. eapply chunks_inv_step; try eassumption. lia.
Qed.

(** The loop nest of the reduction returns when every assertion holds. *)
Lemma reduce_cells_total (size ncells : nat) (rc : list mpi_cell_t) :
  (0 < size)%nat -> (ncells <= List.length rc)%nat ->
  (forall j, (j < ncells)%nat -> wf_cell (cget rc j)) ->
  (forall t j, (1 <= t < size)%nat -> (j < ncells)%nat -> checks_pass rc ncells t j) ->
  exists rc', reduce_cells size ncells rc = Ok rc'.
Proof.
  intros Hsize Hlen Hwf Hchk. unfold reduce_cells.
  assert (E : size = (1 + (size - 1))%nat) by lia.
  destruct (for_rangeM_total (chunks_inv rc ncells)
              (fun i => for_loopM ncells (reduce_slot ncells i)) 1 (size - 1) rc)
    as (rc' & Hrc' & _);
    [apply chunks_inv_start; exact Hwf | | exists rc'; rewrite E; exact Hrc'].
  intros I rcI HI Hinv.
  destruct (reduce_chunk_total rcI ncells I) as (rc' & Hrc' & _).
  - lia.
  - destruct Hinv as (Hl & _). lia.
  - intros j Hj. destruct Hinv as (Hl & Hrest & Hred).
    destruct (Hred j Hj) as (Hh & Hwfj & Hfc & HJ & HH & _).
    apply merge_total; [exact Hwfj|].
    unfold chunk_cell. rewrite Hrest by nia.
    destruct (Hchk I j ltac:(lia) Hj) as (Hpos & Hid & Hb).
    destruct Hh as (h1 & h2 & h3 & h4).
    split; [|split].
    + rewrite h1. exact Hpos.
    + rewrite h4. exact Hid.
    + intros k Hk. rewrite HH by exact Hk.
      fold (chunk_cell rc ncells I j). rewrite <- partial_sum_S. apply Hb. exact Hk.
  - exists rc'. split; [exact Hrc'|]. eapply chunks_inv_step; try eassumption; try lia.
Qed.

(** C3 (amended).  When the reduction returns, then for every owned slot [j]:
    the centre of mass and the identifier of every peer chunk's cell equal
    those of chunk 0 (these two are the fields the assertions compare); the
    reduced cell keeps the centre of mass, box and identifier of chunk 0; and
    its [fc], [dfcdr] and [dfcdrdr] are, component by component, the sums over
    all the chunks. *)
Theorem C3_reduction_sums_tensors_checks_position_id (size ncells : nat)
    (rc rc' : list mpi_cell_t) :
  (0 < size)%nat ->
  List.length rc = (ncells * size)%nat ->
  (forall j, (j < ncells)%nat -> wf_cell (cget rc j)) ->
  reduce_cells size ncells rc = Ok rc' ->
  forall j, (j < ncells)%nat ->
    (forall i, (1 <= i < size)%nat ->
       position (chunk_cell rc ncells i j) = position (chunk_cell rc ncells 0 j)
       /\ c_id (chunk_cell rc ncells i j) = c_id (chunk_cell rc ncells 0 j))
    /\ same_header (chunk_cell rc ncells 0 j) (cget rc' j)
    /\ (forall x, (x < 3)%nat ->
          pidx (fc (cget rc' j)) x
          = partial_sum (fun y => pidx (fc y) x) rc ncells size j)
    /\ (forall k, (k < 9)%nat ->
          aget (dfcdr (cget rc' j)) k
          = partial_sum (fun y => aget (dfcdr y) k) rc ncells size j)
    /\ (forall k, (k < 27)%nat ->
          aget (dfcdrdr (cget rc' j)) k
          = partial_sum (fun y => aget (dfcdrdr y) k) rc ncells size j).
Proof.
  intros Hsize Hlen Hwf Hrun j Hj.
  assert (Hle : (ncells <= List.length rc)%nat) by nia.
  destruct (reduce_cells_inv size ncells rc rc' Hsize Hle Hwf Hrun) as (_ & _ & Hred).
  destruct (Hred j Hj) as (Hh & _ & Hfc & HJ & HH & Hchk).
  unfold chunk_cell at 2 4 5. simpl (0 * ncells + j)%nat.
  split; [|split; [exact Hh | split; [exact Hfc | split; [exact HJ | exact HH]]]].
  intros i Hi. destruct (Hchk i Hi) as (Hpos & Hid & _). split; congruence.
Qed.

(** C10.  When the reduction returns, every component of the Hessian of every
    owned slot was below 1000 after each peer chunk had been added; and if
    some partial sum reaches 1000 the reduction aborts. *)
Theorem C10_hessian_bound_asserted (size ncells : nat) (rc : list mpi_cell_t) :
  (0 < size)%nat ->
  List.length rc = (ncells * size)%nat ->
  (forall j, (j < ncells)%nat -> wf_cell (cget rc j)) ->
  (forall rc', reduce_cells size ncells rc = Ok rc' ->
     forall i j k, (1 <= i < size)%nat -> (j < ncells)%nat -> (k < 27)%nat ->
       partial_sum (fun y => aget (dfcdrdr y) k) rc ncells (S i) j < 1000)
  /\ (forall i j k, (1 <= i < size)%nat -> (j < ncells)%nat -> (k < 27)%nat ->
        1000 <= partial_sum (fun y => aget (dfcdrdr y) k) rc ncells (S i) j ->
        exists e, reduce_cells size ncells rc = Abort e).
Proof.
  intros Hsize Hlen Hwf.
  assert (Hle : (ncells <= List.length rc)%nat) by nia.
  assert (Hok : forall rc', reduce_cells size ncells rc = Ok rc' ->
     forall i j k, (1 <= i < size)%nat -> (j < ncells)%nat -> (k < 27)%nat ->
       partial_sum (fun y => aget (dfcdrdr y) k) rc ncells (S i) j < 1000).
  { intros rc' Hrun i j k Hi Hj Hk.
    destruct (reduce_cells_inv size ncells rc rc' Hsize Hle Hwf Hrun) as (_ & _ & Hred).
    destruct (Hred j Hj) as (_ & _ & _ & _ & _ & Hchk).
    destruct (Hchk i Hi) as (_ & _ & Hb). apply Hb. exact Hk. }
  split; [exact Hok|].
  intros i j k Hi Hj Hk Hbig.
  destruct (reduce_cells size ncells rc) as [rc'|e] eqn:Erun.
  - specialize (Hok rc' eq_refl i j k Hi Hj Hk). lra.
  - exists e. reflexivity.
Qed.

Lemma aget_zeros (n k : nat) : aget (zeros n) k = 0.
Proof.
  unfold aget, zeros. revert k. induction n as [|n IH]; intros [|k]; simpl; auto.
Qed.

Lemma wf_mpi_cell (p lo hi : point_t) (i : branch_id_t) : wf_cell (mpi_cell p lo hi i).
Proof. split; reflexivity. Qed.

Lemma ex_recvcells_wf : forall j, (j < 1)%nat -> wf_cell (cget ex_recvcells j).
Proof. intros [|j] Hj; [apply wf_mpi_cell | lia]. Qed.

Lemma ex_recvcells_returns : exists rc', reduce_cells 2 1 ex_recvcells = Ok rc'.
Proof.
  apply reduce_cells_total; [lia | simpl; lia | apply ex_recvcells_wf |].
  intros t j Ht Hj. assert (t = 1%nat) by lia. assert (j = 0%nat) by lia. subst.
  split; [reflexivity | split; [reflexivity|]].
  intros k Hk. unfold partial_sum, chunk_cell, ex_recvcells, cget. simpl.
  rewrite !aget_zeros. lra.
Qed.

(** C3, as stated, fails for the box: the two chunks disagree on [bmin] and
    [bmax] of the slot, and the reduction returns. *)
Lemma C3_boxes_are_not_compared :
  (exists rc', reduce_cells 2 1 ex_recvcells = Ok rc')
  /\ bmin (chunk_cell ex_recvcells 1 1 0) <> bmin (chunk_cell ex_recvcells 1 0 0)
  /\ bmax (chunk_cell ex_recvcells 1 1 0) <> bmax (chunk_cell ex_recvcells 1 0 0).
Proof.
  split; [apply ex_recvcells_returns|].
  split; simpl; intros H; apply (f_equal px) in H; simpl in H; lra.
Qed.

Lemma C3_reduction_witness :
  (0 < 2)%nat
  /\ List.length ex_recvcells = (1 * 2)%nat
  /\ (forall j, (j < 1)%nat -> wf_cell (cget ex_recvcells j))
  /\ exists rc',
       reduce_cells 2 1 ex_recvcells = Ok rc'
       /\ forall j, (j < 1)%nat ->
            (forall i, (1 <= i < 2)%nat ->
               position (chunk_cell ex_recvcells 1 i j)
               = position (chunk_cell ex_recvcells 1 0 j)
               /\ c_id (chunk_cell ex_recvcells 1 i j)
                  = c_id (chunk_cell ex_recvcells 1 0 j))
            /\ same_header (chunk_cell ex_recvcells 1 0 j) (cget rc' j)
            /\ (forall x, (x < 3)%nat ->
                  pidx (fc (cget rc' j)) x
                  = partial_sum (fun y => pidx (fc y) x) ex_recvcells 1 2 j)
            /\ (forall k, (k < 9)%nat ->
                  aget (dfcdr (cget rc' j)) k
                  = partial_sum (fun y => aget (dfcdr y) k) ex_recvcells 1 2 j)
            /\ (forall k, (k < 27)%nat ->
                  aget (dfcdrdr (cget rc' j)) k
                  = partial_sum (fun y => aget (dfcdrdr y) k) ex_recvcells 1 2 j).
Proof.
  assert (H1 : (0 < 2)%nat) by lia.
  assert (H2 : List.length ex_recvcells = (1 * 2)%nat) by reflexivity.
  split; [exact H1 | split; [exact H2 | split; [exact ex_recvcells_wf|]]].
  destruct ex_recvcells_returns as (rc' & Hrc').
  exists rc'. split; [exact Hrc'|].
  exact (C3_reduction_sums_tensors_checks_position_id 2 1 ex_recvcells rc'
           H1 H2 ex_recvcells_wf Hrc').
Defined.

Lemma C10_hessian_bound_witness :
  (0 < 2)%nat
  /\ List.length ex_recvcells = (1 * 2)%nat
  /\ (forall j, (j < 1)%nat -> wf_cell (cget ex_recvcells j))
  /\ (forall rc', reduce_cells 2 1 ex_recvcells = Ok rc' ->
        forall i j k, (1 <= i < 2)%nat -> (j < 1)%nat -> (k < 27)%nat ->
          partial_sum (fun y => aget (dfcdrdr y) k) ex_recvcells 1 (S i) j < 1000)
  /\ (forall i j k, (1 <= i < 2)%nat -> (j < 1)%nat -> (k < 27)%nat ->
        1000 <= partial_sum (fun y => aget (dfcdrdr y) k) ex_recvcells 1 (S i) j ->
        exists e, reduce_cells 2 1 ex_recvcells = Abort e).
Proof.
  assert (H1 : (0 < 2)%nat) by lia.
  assert (H2 : List.length ex_recvcells = (1 * 2)%nat) by reflexivity.
  split; [exact H1 | split; [exact H2 | split; [exact ex_recvcells_wf|]]].
  exact (C10_hessian_bound_asserted 2 1 ex_recvcells H1 H2 ex_recvcells_wf).
Defined.

Lemma for_loopM_first_abort {S : Type} (n : nat) (body : nat -> S -> result S)
    (s : S) (e : failure) :
  body 0%nat s = Abort e -> for_loopM (Datatypes.S n) body s = Abort e.
Proof.
  intros H. unfold for_loopM. cbn [seq fold_left bind]. rewrite H.
  apply fold_bind_abort.
Qed.

(** A run of the reduction that stops at the bound: the first Hessian
    component of the slot becomes [999 + 1]. *)
Example reduce_cells_bound_reached :
  reduce_cells 2 1 ex_recvcells_high = Abort AssertHessianBound.
Proof.
  unfold reduce_cells, for_rangeM. cbn [Nat.sub seq fold_left bind].
  unfold for_loopM at 1. cbn [seq fold_left bind].
  rewrite reduce_slot_merge by (simpl; lia).
  replace (merge _ _) with (@Abort mpi_cell_t AssertHessianBound); [reflexivity|].
  symmetry. unfold merge, chunk_cell, ex_recvcells_high, cget. cbn [nth Nat.mul Nat.add].
  cbn [position c_id set_dfcdrdr mpi_cell]. rewrite peq_refl. cbn [Nat.eqb assert bind].
  apply for_loopM_first_abort.
  unfold comp_body, comp_step. cbn [Nat.ltb Nat.leb dfcdrdr set_dfcdrdr set_dfcdr set_fc].
  unfold aget, add_at. cbn [nth upd]. dcmp. reflexivity.
Qed.

(** ** A run with one process *)

Lemma upd_app_here {A : Type} (pre : list A) (x : A) (f : A -> A) (post : list A) :
  upd (List.length pre) f (pre ++ x :: post) = pre ++ f x :: post.
Proof. induction pre as [|y pre IH]; simpl; [reflexivity | rewrite IH; reflexivity]. Qed.

Lemma write_at_app {A : Type} (data : list A) :
  forall pre old post,
    List.length old = List.length data ->
    write_at (List.length pre) data (pre ++ old ++ post) = pre ++ data ++ post.
Proof.
  induction data as [|x data IH]; intros pre old post Hlen.
  - destruct old; [reflexivity | discriminate].
  - destruct old as [|o old]; [discriminate|]. simpl in Hlen. injection Hlen as Hlen.
    cbn [write_at app]. rewrite upd_app_here.
    replace (pre ++ x :: old ++ post) with ((pre ++ [x]) ++ old ++ post)
      by (rewrite <- app_assoc; reflexivity).
    replace (S (List.length pre)) with (List.length (pre ++ [x]))
      by (rewrite length_app; simpl; lia).
    rewrite (IH _ _ _ Hlen), <- app_assoc. reflexivity.
Qed.

Lemma write_at_whole {A : Type} (data : list A) (d : A) :
  write_at 0 data (repeat d (List.length data)) = data.
Proof.
  pose proof (write_at_app data [] (repeat d (List.length data)) []
                (repeat_length d _)) as H.
  simpl in H. rewrite !app_nil_r in H. exact H.
Qed.

Section OneProcess.

Variable sizeof_mpi_cell_t : positive.

Lemma sizeof_cell_pos : (0 < sizeof_cell sizeof_mpi_cell_t)%nat.
Proof. unfold sizeof_cell. apply Pos2Nat.is_pos. Qed.

Lemma div_sizeof (n : nat) : (n * sizeof_cell sizeof_mpi_cell_t / sizeof_cell sizeof_mpi_cell_t)%nat = n.
Proof. apply Nat.div_mul. pose proof sizeof_cell_pos. lia. Qed.

Lemma zero_div_sizeof : (0 / sizeof_cell sizeof_mpi_cell_t)%nat = 0%nat.
Proof. apply Nat.Div0.div_0_l. Qed.

(** With one process the scatter leaves the frontier as it is: [recvCOM] is
    the frontier of the process and [nrecvCOM] its size in bytes. *)
Lemma mpi_exchange_cells_one (maxMass : R) (p : process) :
  mpi_exchange_cells sizeof_mpi_cell_t maxMass [p]
  = Ok [mkProcess (p_tree p) (p_bodies p)
          (traverse maxMass (p_tree p) [])
          [(List.length (traverse maxMass (p_tree p) []) * sizeof_cell sizeof_mpi_cell_t)%nat]
          (p_stdout p)].
Proof.
  unfold mpi_exchange_cells, on_every_rank. cbn [map mapiM_from].
  set (v := traverse maxMass (p_tree p) []).
  unfold mpi_exchange_cells_rank. cbn [List.length nth map].
  unfold exchange_offsets, for_loop. cbn [seq fold_left repeat].
  cbn [iget nth upd Nat.sub Nat.ltb Nat.leb Nat.add].
  unfold allgatherv. cbn [List.length seq combine fold_left iget nth].
  rewrite zero_div_sizeof, div_sizeof, firstn_all, write_at_whole.
  assert (Hloop : for_loopM (List.length v) (fun i (_ : unit) =>
            assert (peq (position (nth i v cell_default))
                        (position (cget v (i + 0)))) AssertOwnOrder) tt = Ok tt).
  { destruct (for_loopM_total (fun _ (_ : unit) => True)
               (fun i (_ : unit) =>
                  assert (peq (position (nth i v cell_default))
                              (position (cget v (i + 0)))) AssertOwnOrder)
               (List.length v) tt I) as ([] & H & _); [|exact H].
    intros k [] _ _. exists tt. split; [|exact I].
    rewrite Nat.add_0_r. unfold cget. rewrite peq_refl. reflexivity. }
  rewrite Hloop. reflexivity.
Qed.

Lemma slice_whole {A : Type} (l : list A) : slice 0 (List.length l) l = l.
Proof. unfold slice. cbn [skipn]. apply firstn_all. Qed.

(** With one process the gather hands the process its own [recvCOM], nothing
    is added, and the cells are applied to the particles. *)
Lemma mpi_gather_cells_one (p : process) (n : nat) :
  nrecvCOM p = [(n * sizeof_cell sizeof_mpi_cell_t)%nat] -> List.length (recvCOM p) = n ->
  mpi_gather_cells sizeof_mpi_cell_t [p]
  = bind (apply_cells (p_tree p) n (recvCOM p) (p_bodies p))
         (fun st => Ok [mkProcess (p_tree p) st (recvCOM p) (nrecvCOM p) (p_stdout p)]).
Proof.
  intros Hn Hlen. subst n. unfold mpi_gather_cells, on_every_rank. cbn [mapiM_from].
  unfold mpi_gather_cells_rank. cbn [List.length]. rewrite Hn. cbn [iget nth].
  rewrite div_sizeof. unfold gather_offsets, for_range. cbn [Nat.sub seq fold_left snd fst repeat].
  unfold alltoallv. cbn [List.length seq combine fold_left].
  unfold gather_offsets, for_range. cbn [Nat.sub seq fold_left snd fst repeat].
  rewrite Hn. cbn [iget nth]. rewrite zero_div_sizeof, div_sizeof.
  rewrite Nat.mul_1_r, slice_whole, firstn_all, write_at_whole.
  rewrite Nat.eqb_refl. cbn [assert bind].
  unfold reduce_cells, for_rangeM. cbn [Nat.sub seq fold_left bind].
  destruct (apply_cells _ _ _ _); reflexivity.
Qed.

Lemma padd_zero_l (a : point_t) : padd pzero a = a.
Proof. destruct a. unfold padd, pzero. simpl. f_equal; ring. Qed.

Lemma padd_zero_r (a : point_t) : padd a pzero = a.
Proof. destruct a. unfold padd, pzero. simpl. f_equal; ring. Qed.

Lemma taylor_grav_zero (sinkPosition : point_t) (bi : body_holder) :
  taylor_grav sinkPosition pzero (zeros 9) (zeros 27) bi = pzero.
Proof.
  unfold taylor_grav. generalize (psub (h_position bi) sinkPosition) as dl.
  intros [dx dy dz]. unroll. f_equal; field.
Qed.

Lemma setAcceleration_same_value (st : store) (b : body_ptr) :
  setAcceleration b (bd_acceleration (getBody st b)) st = st.
Proof.
  unfold setAcceleration, getBody.
  rewrite (upd_const b _ st body_default).
  replace (mkBody _ _ _) with (nth b st body_default)
    by (destruct (nth b st body_default); reflexivity).
  apply upd_self.
Qed.

(** The gather phase of a process whose tree is one leaf with one holder and
    whose [recvCOM] is the untouched cell of that leaf. *)
Lemma mpi_gather_cells_single_leaf (info : branch_info) (h : body_holder)
    (st : store) (out : list string) :
  i_mass info <> 0 ->
  match mpi_gather_cells sizeof_mpi_cell_t
          [mkProcess (Leaf info [h]) st [cell_of_branch (Leaf info [h])]
             [(1 * sizeof_cell sizeof_mpi_cell_t)%nat] out] with
  | Ok w' =>
      (i_mass info = 0 \/ (0 < i_mass info /\ h_local h = true))
      /\ exists p', w' = [p'] /\ p_tree p' = Leaf info [h] /\ p_bodies p' = st
  | Abort e =>
      e = AssertSubparts
      /\ (i_mass info < 0 \/ (0 < i_mass info /\ h_local h = false))
  end.
Proof.
  intros Em.
  rewrite (mpi_gather_cells_one _ 1) by reflexivity.
  cbn [p_tree p_bodies recvCOM nrecvCOM p_stdout].
  unfold apply_cells, for_loopM. cbn [seq fold_left bind]. unfold apply_cell.
  cbn [cget nth c_id tree_get cell_of_branch mpi_cell].
  rewrite Nat.eqb_refl. cbn [fst snd fc dfcdr dfcdrdr sink_traversal_c2p].
  change (getMass (Leaf info [h])) with (i_mass info).
  destruct (dle (i_mass info) 0) eqn:Ele.
  - apply dle_true in Ele. cbn [neighbors List.length Nat.eqb negb assert bind].
    split; [reflexivity | left; lra].
  - apply dle_false in Ele. cbn [fold_left]. unfold c2p_leaf_body.
    destruct (h_local h) eqn:El; cbn [negb neighbors List.length app].
    + cbn [Nat.eqb negb assert bind nbody c2p_bodies snd].
      rewrite taylor_grav_zero, padd_zero_l, setAcceleration_same_value.
      unfold direct_sum, direct_grav. cbn [fold_left].
      rewrite distance_self. rewrite (proj2 (dlt_false 0 0)) by lra.
      rewrite padd_zero_r, setAcceleration_same_value.
      split; [right; split; [exact Ele | reflexivity]|].
      eexists. repeat split.
    + cbn [Nat.eqb negb assert bind].
      split; [reflexivity | right; split; [exact Ele | reflexivity]].
Qed.

(** A whole step of one process whose tree is a single leaf with one
    holder. *)
Lemma gravity_step_single_leaf (maxMass macangle : R)
    (fresh_id : branch_id_t) (info : branch_info) (h : body_holder) (st : store)
    (rcom : list mpi_cell_t) (ncom : list nat) (out : list string) :
  match gravity_step sizeof_mpi_cell_t maxMass macangle fresh_id
          [mkProcess (Leaf info [h]) st rcom ncom out] with
  | Ok w' =>
      (i_mass info = 0 \/ (0 < i_mass info /\ h_local h = true))
      /\ exists p', w' = [p'] /\ p_tree p' = Leaf info [h] /\ p_bodies p' = st
  | Abort e =>
      e = AssertSubparts
      /\ (i_mass info < 0 \/ (0 < i_mass info /\ h_local h = false))
  end.
Proof.
  unfold gravity_step. rewrite mpi_exchange_cells_one. cbn [bind p_tree p_bodies p_stdout].
  cbn [traverse]. change (getMass (Leaf info [h])) with (i_mass info).
  destruct (deq (i_mass info) 0) eqn:Em.
  - (* no mass: the frontier is empty *)
    apply deq_true in Em.
    unfold mpi_compute_fmm, on_every_rank, mpi_compute_fmm_rank, for_eachM.
    cbn [mapiM_from recvCOM fold_left bind fst snd p_tree p_bodies nrecvCOM p_stdout
         List.length].
    rewrite (mpi_gather_cells_one _ 0) by reflexivity.
    unfold apply_cells, for_loopM. cbn [seq fold_left bind snd p_tree p_bodies recvCOM
      nrecvCOM p_stdout].
    split; [left; exact Em|]. eexists. repeat split.
  - (* the frontier is the root; its box is the box of the sink *)
    apply deq_false in Em. cbn [is_leaf orb app List.length].
    unfold mpi_compute_fmm, on_every_rank, mpi_compute_fmm_rank, for_eachM.
    cbn [mapiM_from recvCOM fold_left bind fst snd p_tree p_bodies nrecvCOM p_stdout].
    unfold compute_cell. cbn [tree_traversal_c2c].
    change (getMass (Leaf info [h])) with (i_mass info).
    rewrite (proj2 (deq_false _ _) Em).
    change (getBMin (fresh_sink fresh_id _)) with (getBMin (Leaf info [h])).
    change (getBMax (fresh_sink fresh_id _)) with (getBMax (Leaf info [h])).
    rewrite !peq_refl. cbn [andb bind fst snd app].
    match goal with
    | |- context [if ?c then log_same_id _ else _] => destruct c
    end;
      cbn [fst snd log_same_id a_fc a_jacobi a_hessian mpi_cell position fc dfcdr
           dfcdrdr bmax bmin c_id];
      apply mpi_gather_cells_single_leaf; exact Em.
Qed.

(** C8.  One process whose tree is a single leaf holding one body.  The step
    either returns with the tree and the whole particle store as they were
    (the acceleration of the body included), or it stops at the assertion
    that the descent found a body; the latter only when the mass of the root
    is negative or the holder is not local, which a run with one process
    excludes. *)
Theorem C8_single_body_no_self_interaction (maxMass macangle : R)
    (fresh_id : branch_id_t) (info : branch_info) (h : body_holder) (st : store)
    (rcom : list mpi_cell_t) (ncom : list nat) (out : list string) :
  match gravity_step sizeof_mpi_cell_t maxMass macangle fresh_id
          [mkProcess (Leaf info [h]) st rcom ncom out] with
  | Ok w' =>
      (i_mass info = 0 \/ (0 < i_mass info /\ h_local h = true))
      /\ exists p', w' = [p'] /\ p_tree p' = Leaf info [h] /\ p_bodies p' = st
  | Abort e =>
      e = AssertSubparts
      /\ (i_mass info < 0 \/ (0 < i_mass info /\ h_local h = false))
  end.
Proof. apply gravity_step_single_leaf. Qed.

End OneProcess.

(** ** The frame of a step *)

Lemma same_bodies_refl (st : store) : same_bodies st st.
Proof. split; [reflexivity | intros b; split; reflexivity]. Qed.

Lemma same_bodies_trans (st1 st2 st3 : store) :
  same_bodies st1 st2 -> same_bodies st2 st3 -> same_bodies st1 st3.
Proof.
  intros (L1 & H1) (L2 & H2). split; [congruence|].
  intros b. destruct (H1 b), (H2 b). split; congruence.
Qed.

Lemma setAcceleration_same_bodies (st : store) (p : body_ptr) (a : point_t) :
  same_bodies st (setAcceleration p a st).
Proof.
  split; [apply setAcceleration_length|].
  intros b. unfold getBody, setAcceleration.
  destruct (Nat.eq_dec b p) as [-> | Hne].
  - destruct (Nat.lt_ge_cases p (List.length st)) as [Hlt | Hge].
    + rewrite nth_upd_same by exact Hlt. split; reflexivity.
    + rewrite upd_out by exact Hge. split; reflexivity.
  - rewrite nth_upd_other by exact Hne. split; reflexivity.
Qed.

Lemma fold_left_preserves {X S : Type} (P : S -> S -> Prop) (f : S -> X -> S)
    (l : list X) :
  (forall s, P s s) ->
  (forall s1 s2 s3, P s1 s2 -> P s2 s3 -> P s1 s3) ->
  (forall s x, P s (f s x)) ->
  forall s, P s (fold_left f l s).
Proof.
  intros Hrefl Htrans Hstep. induction l as [|x l IH]; intros s; simpl.
  - apply Hrefl.
  - eapply Htrans; [apply Hstep | apply IH].
Qed.

Lemma c2p_leaf_body_same_bodies (sp fc : point_t) (J H : list R)
    (bi : body_holder) (s : c2p_state) :
  same_bodies (c2p_bodies s) (c2p_bodies (c2p_leaf_body sp fc J H bi s)).
Proof.
  unfold c2p_leaf_body. destruct (h_local bi); simpl.
  - apply setAcceleration_same_bodies.
  - apply same_bodies_refl.
Qed.

Lemma sink_traversal_c2p_same_bodies (b : branch_t) (sp fc : point_t)
    (J H : list R) (s : c2p_state) :
  same_bodies (c2p_bodies s) (c2p_bodies (sink_traversal_c2p b sp fc J H s)).
Proof.
  rewrite sink_traversal_c2p_visited.
  apply (fold_left_preserves
           (fun s1 s2 => same_bodies (c2p_bodies s1) (c2p_bodies s2))).
  - intros t. apply same_bodies_refl.
  - intros t1 t2 t3. apply same_bodies_trans.
  - intros t x. apply c2p_leaf_body_same_bodies.
Qed.

Lemma direct_sum_same_bodies (subparts : list body_ptr) (st : store) :
  same_bodies st (direct_sum subparts st).
Proof.
  unfold direct_sum. apply (fold_left_preserves same_bodies).
  - apply same_bodies_refl.
  - apply same_bodies_trans.
  - intros t x. apply setAcceleration_same_bodies.
Qed.

Lemma apply_cell_same_bodies (root : branch_t) (cell : mpi_cell_t)
    (s s' : nat * store) :
  apply_cell root cell s = Ok s' -> same_bodies (snd s) (snd s').
Proof.
  unfold apply_cell. destruct (tree_get _ _) as [sink|]; [|discriminate].
  destruct (negb _); cbn [assert bind]; [|discriminate].
  intros E. injection E as <-. cbn [snd].
  eapply same_bodies_trans; [|apply direct_sum_same_bodies].
  apply (sink_traversal_c2p_same_bodies sink _ _ _ _ (mkC2P [] (fst s) (snd s))).
Qed.

Lemma apply_cells_same_bodies (root : branch_t) (ncells : nat)
    (rc : list mpi_cell_t) (st st' : store) :
  apply_cells root ncells rc st = Ok st' -> same_bodies st st'.
Proof.
  unfold apply_cells.
  destruct (for_loopM ncells _ _) as [r|e] eqn:E; cbn [bind]; [|discriminate].
  intros H. injection H as <-.
  apply (for_loopM_inv (fun _ (s : nat * store) => same_bodies st (snd s))
           (fun i => apply_cell root (cget rc i)) ncells (0%nat, st));
    [apply same_bodies_refl | | exact E].
  intros k t t' _ Ht Hstep. eapply same_bodies_trans; [exact Ht|].
  eapply apply_cell_same_bodies. exact Hstep.
Qed.

Lemma frame_refl (p : process) : frame p p.
Proof. split; [reflexivity | apply same_bodies_refl]. Qed.

Lemma frame_trans (p1 p2 p3 : process) : frame p1 p2 -> frame p2 p3 -> frame p1 p3.
Proof.
  intros (T1 & B1) (T2 & B2). split; [congruence|].
  eapply same_bodies_trans; eassumption.
Qed.

Lemma mapiM_from_Forall2 {A B : Type} (rel : A -> B -> Prop)
    (f : nat -> A -> result B) (l : list A) :
  (forall i x y, f i x = Ok y -> rel x y) ->
  forall k l', mapiM_from f k l = Ok l' -> Forall2 rel l l'.
Proof.
  intros Hf. induction l as [|x l IH]; intros k l' Hrun; simpl in Hrun.
  - injection Hrun as <-. constructor.
  - destruct (f k x) as [y|e] eqn:Ey; cbn [bind] in Hrun; [|discriminate].
    destruct (mapiM_from f (S k) l) as [ys|e] eqn:Eys; cbn [bind] in Hrun; [|discriminate].
    injection Hrun as <-. constructor; [eapply Hf; exact Ey | eapply IH; exact Eys].
Qed.

Lemma Forall2_trans_rel {A : Type} (rel : A -> A -> Prop) :
  (forall x y z, rel x y -> rel y z -> rel x z) ->
  forall l1 l2 l3, Forall2 rel l1 l2 -> Forall2 rel l2 l3 -> Forall2 rel l1 l3.
Proof.
  intros Ht l1 l2 l3 H12. revert l3.
  induction H12 as [|x y l1 l2 Hxy _ IH]; intros l3 H23; inversion H23; subst.
  - constructor.
  - constructor; [eapply Ht; eassumption | apply IH; assumption].
Qed.

Section Frame.

Variable sizeof_mpi_cell_t : positive.

Lemma mpi_exchange_cells_rank_frame (all_vcells : list (list mpi_cell_t))
    (rank : nat) (p p' : process) :
  mpi_exchange_cells_rank sizeof_mpi_cell_t all_vcells rank p = Ok p' -> frame p p'.
Proof.
  unfold mpi_exchange_cells_rank.
  destruct (exchange_offsets _ _ _) as [[totalrecv nrecv] noffsets].
  destruct (for_loopM _ _ _); cbn [bind]; [|discriminate].
  intros E. injection E as <-. split; [reflexivity | apply same_bodies_refl].
Qed.

Lemma mpi_compute_fmm_rank_frame (fresh_id : branch_id_t) (macangle : R)
    (p p' : process) :
  mpi_compute_fmm_rank fresh_id macangle p = Ok p' -> frame p p'.
Proof.
  unfold mpi_compute_fmm_rank.
  destruct (for_eachM _ _ _); cbn [bind]; [|discriminate].
  intros E. injection E as <-. split; [reflexivity | apply same_bodies_refl].
Qed.

Lemma mpi_gather_cells_rank_frame (w : list process) (rank : nat) (p p' : process) :
  mpi_gather_cells_rank sizeof_mpi_cell_t w rank p = Ok p' -> frame p p'.
Proof.
  unfold mpi_gather_cells_rank.
  destruct (assert _ _); cbn [bind]; [|discriminate].
  destruct (reduce_cells _ _ _) as [rc|e]; cbn [bind]; [|discriminate].
  destruct (apply_cells _ _ _ _) as [st|e] eqn:Eapp; cbn [bind]; [|discriminate].
  intros E. injection E as <-. split; [reflexivity|]. cbn [p_bodies].
  eapply apply_cells_same_bodies. exact Eapp.
Qed.

(** The frame of a whole step. *)
Lemma gravity_step_frame (maxMass macangle : R) (fresh_id : branch_id_t)
    (w w' : list process) :
  gravity_step sizeof_mpi_cell_t maxMass macangle fresh_id w = Ok w' ->
  Forall2 frame w w'.
Proof.
  unfold gravity_step.
  destruct (mpi_exchange_cells _ _ _) as [w1|e] eqn:E1; cbn [bind]; [|discriminate].
  destruct (mpi_compute_fmm _ _ _) as [w2|e] eqn:E2; cbn [bind]; [|discriminate].
  intros E3.
  apply (Forall2_trans_rel frame frame_trans w w1 w').
  - eapply mapiM_from_Forall2; [|exact E1].
    intros i x y. apply mpi_exchange_cells_rank_frame.
  - apply (Forall2_trans_rel frame frame_trans w1 w2 w').
    + eapply mapiM_from_Forall2; [|exact E2].
      intros i x y. apply mpi_compute_fmm_rank_frame.
    + eapply mapiM_from_Forall2; [|exact E3].
      intros i x y. apply mpi_gather_cells_rank_frame.
Qed.

End Frame.

(** ** Accelerations are only added to *)

Lemma padd_assoc (a b c : point_t) : padd a (padd b c) = padd (padd a b) c.
Proof. unfold padd. simpl. f_equal; ring. Qed.

Lemma padd_swap (a b c : point_t) : padd (padd a b) c = padd (padd a c) b.
Proof. unfold padd. simpl. f_equal; ring. Qed.

Lemma shift_from_length (d : body_ptr -> point_t) (st : store) :
  forall k, List.length (shift_from d k st) = List.length st.
Proof. induction st as [|b st IH]; intros k; simpl; [|rewrite IH]; reflexivity. Qed.

Lemma nth_shift_from (d : body_ptr -> point_t) (st : store) :
  forall k b, (b < List.length st)%nat ->
    nth b (shift_from d k st) body_default
    = add_acceleration (d (k + b)%nat) (nth b st body_default).
Proof.
  induction st as [|x st IH]; intros k [|b] Hb; simpl in *; try lia.
  - rewrite Nat.add_0_r. reflexivity.
  - rewrite IH by lia. rewrite Nat.add_succ_r. reflexivity.
Qed.

Lemma getBody_shift_in (d : body_ptr -> point_t) (st : store) (b : body_ptr) :
  (b < List.length st)%nat ->
  getBody (shift_store d st) b = add_acceleration (d b) (getBody st b).
Proof. intros Hb. unfold getBody, shift_store. rewrite nth_shift_from by exact Hb. reflexivity. Qed.

Lemma getBody_shift_out (d : body_ptr -> point_t) (st : store) (b : body_ptr) :
  (List.length st <= b)%nat ->
  getBody (shift_store d st) b = getBody st b.
Proof.
  intros Hb. unfold getBody, shift_store.
  rewrite !nth_overflow by (rewrite ?shift_from_length; exact Hb). reflexivity.
Qed.

Lemma getBody_shift_position (d : body_ptr -> point_t) (st : store) (b : body_ptr) :
  bd_position (getBody (shift_store d st) b) = bd_position (getBody st b).
Proof.
  destruct (Nat.lt_ge_cases b (List.length st)).
  - rewrite getBody_shift_in by assumption. reflexivity.
  - rewrite getBody_shift_out by assumption. reflexivity.
Qed.

Lemma getBody_shift_mass (d : body_ptr -> point_t) (st : store) (b : body_ptr) :
  bd_mass (getBody (shift_store d st) b) = bd_mass (getBody st b).
Proof.
  destruct (Nat.lt_ge_cases b (List.length st)).
  - rewrite getBody_shift_in by assumption. reflexivity.
  - rewrite getBody_shift_out by assumption. reflexivity.
Qed.

Lemma upd_shift_from (d : body_ptr -> point_t) (f g : body -> body) (st : store) :
  forall k b,
    (forall x, f (add_acceleration (d (k + b)%nat) x)
               = add_acceleration (d (k + b)%nat) (g x)) ->
    upd b f (shift_from d k st) = shift_from d k (upd b g st).
Proof.
  induction st as [|x st IH]; intros k [|b] Hfg; simpl; try reflexivity.
  - rewrite Nat.add_0_r in Hfg. rewrite Hfg. reflexivity.
  - f_equal. apply IH. intros y. rewrite Nat.add_succ_r in Hfg. apply Hfg.
Qed.

(** Writing an acceleration computed from the one read, when the computation
    commutes with the shift. *)
Lemma setAcceleration_shift (d : body_ptr -> point_t) (F : point_t -> point_t)
    (st : store) (b : body_ptr) :
  (forall a, F (padd a (d b)) = padd (F a) (d b)) ->
  setAcceleration b (F (bd_acceleration (getBody (shift_store d st) b)))
    (shift_store d st)
  = shift_store d (setAcceleration b (F (bd_acceleration (getBody st b))) st).
Proof.
  intros HF. destruct (Nat.lt_ge_cases b (List.length st)) as [Hlt | Hge].
  - rewrite getBody_shift_in by exact Hlt. unfold setAcceleration, shift_store.
    apply upd_shift_from. intros x. unfold add_acceleration. simpl.
    rewrite HF. reflexivity.
  - unfold setAcceleration.
    rewrite !upd_out by (unfold shift_store; rewrite ?shift_from_length; exact Hge).
    reflexivity.
Qed.

Lemma fold_left_commute {X S : Type} (f : S -> X -> S) (g : S -> S) (l : list X) :
  (forall s x, f (g s) x = g (f s x)) ->
  forall s, fold_left f l (g s) = g (fold_left f l s).
Proof.
  intros Hc. induction l as [|x l IH]; intros s; simpl; [reflexivity|].
  rewrite Hc. apply IH.
Qed.

Lemma fold_left_pointwise {X S : Type} (f g : S -> X -> S) (l : list X) :
  (forall s x, f s x = g s x) ->
  forall s, fold_left f l s = fold_left g l s.
Proof.
  intros Hfg. induction l as [|x l IH]; intros s; simpl; [reflexivity|].
  rewrite Hfg. apply IH.
Qed.

Lemma c2p_leaf_body_shift (d : body_ptr -> point_t) (sp fc : point_t)
    (J H : list R) (bi : body_holder) (s : c2p_state) :
  c2p_leaf_body sp fc J H bi (shift_c2p d s)
  = shift_c2p d (c2p_leaf_body sp fc J H bi s).
Proof.
  unfold c2p_leaf_body. destruct (h_local bi); simpl; [|reflexivity].
  unfold shift_c2p. simpl. f_equal.
  apply (setAcceleration_shift d (padd (taylor_grav sp fc J H bi))).
  intros a. apply padd_assoc.
Qed.

Lemma sink_traversal_c2p_shift (d : body_ptr -> point_t) (b : branch_t)
    (sp fc : point_t) (J H : list R) (s : c2p_state) :
  sink_traversal_c2p b sp fc J H (shift_c2p d s)
  = shift_c2p d (sink_traversal_c2p b sp fc J H s).
Proof.
  rewrite !sink_traversal_c2p_visited.
  apply (fold_left_commute (fun s bi => c2p_leaf_body sp fc J H bi s) (shift_c2p d)).
  intros t x. apply c2p_leaf_body_shift.
Qed.

Lemma direct_grav_shift (d : body_ptr -> point_t) (st : store) (bi : body_ptr)
    (subparts : list body_ptr) :
  direct_grav (shift_store d st) bi subparts = direct_grav st bi subparts.
Proof.
  unfold direct_grav. apply fold_left_pointwise. intros grav nb.
  rewrite !getBody_shift_position, getBody_shift_mass. reflexivity.
Qed.

Lemma direct_sum_shift (d : body_ptr -> point_t) (subparts : list body_ptr)
    (st : store) :
  direct_sum subparts (shift_store d st) = shift_store d (direct_sum subparts st).
Proof.
  unfold direct_sum.
  apply (fold_left_commute
           (fun st bi => setAcceleration bi
              (padd (bd_acceleration (getBody st bi)) (direct_grav st bi subparts)) st)
           (shift_store d)).
  intros t bi. rewrite direct_grav_shift.
  apply (setAcceleration_shift d (fun a => padd a (direct_grav t bi subparts))).
  intros a. apply padd_swap.
Qed.

Lemma apply_cell_shift (d : body_ptr -> point_t) (root : branch_t)
    (cell : mpi_cell_t) (s : nat * store) :
  apply_cell root cell (shift_counted d s)
  = result_map (shift_counted d) (apply_cell root cell s).
Proof.
  unfold apply_cell. destruct (tree_get _ _) as [sink|]; [|reflexivity].
  cbn [shift_counted fst snd].
  change (mkC2P [] (fst s) (shift_store d (snd s)))
    with (shift_c2p d (mkC2P [] (fst s) (snd s))).
  rewrite sink_traversal_c2p_shift. cbn [shift_c2p neighbors nbody c2p_bodies].
  destruct (negb _); cbn [assert bind result_map]; [|reflexivity].
  rewrite direct_sum_shift. reflexivity.
Qed.

Lemma for_loopM_commute {S : Type} (g : S -> S) (body : nat -> S -> result S)
    (n : nat) (s : S) :
  (forall k t, body k (g t) = result_map g (body k t)) ->
  for_loopM n body (g s) = result_map g (for_loopM n body s).
Proof.
  intros Hc. induction n as [|n IH]; [reflexivity|].
  rewrite !for_loopM_S, IH.
  destruct (for_loopM n body s) as [t|e]; cbn [bind result_map]; [apply Hc | reflexivity].
Qed.

Lemma apply_cells_shift (d : body_ptr -> point_t) (root : branch_t) (ncells : nat)
    (rc : list mpi_cell_t) (st : store) :
  apply_cells root ncells rc (shift_store d st)
  = result_map (shift_store d) (apply_cells root ncells rc st).
Proof.
  unfold apply_cells.
  change (0%nat, shift_store d st) with (shift_counted d (0%nat, st)).
  rewrite (for_loopM_commute (shift_counted d)
             (fun i => apply_cell root (cget rc i)) ncells (0%nat, st))
    by (intros k t; apply apply_cell_shift).
  destruct (for_loopM ncells _ _); reflexivity.
Qed.

Lemma mapi_from_length {A B : Type} (g : nat -> A -> B) (l : list A) :
  forall k, List.length (mapi_from g k l) = List.length l.
Proof. induction l as [|x l IH]; intros k; simpl; [|rewrite IH]; reflexivity. Qed.

Lemma map_mapi_from {A B C : Type} (f : B -> C) (f' : A -> C) (g : nat -> A -> B)
    (l : list A) :
  (forall i x, f (g i x) = f' x) ->
  forall k, map f (mapi_from g k l) = map f' l.
Proof.
  intros Hfg. induction l as [|x l IH]; intros k; simpl; [reflexivity|].
  rewrite Hfg, IH. reflexivity.
Qed.

Lemma mapiM_from_commute {A : Type} (g : nat -> A -> A) (f f' : nat -> A -> result A)
    (l : list A) :
  (forall i x, f' i (g i x) = result_map (g i) (f i x)) ->
  forall k,
    mapiM_from f' k (mapi_from g k l) = result_map (mapi_from g k) (mapiM_from f k l).
Proof.
  intros Hc. induction l as [|x l IH]; intros k; simpl; [reflexivity|].
  rewrite Hc, IH.
  destruct (f k x); cbn [bind result_map]; [|reflexivity].
  destruct (mapiM_from f (S k) l); reflexivity.
Qed.

(** A fold over the ranks that reads the processes through their buffers
    does not see the shift. *)
Lemma fold_ranks_shift {S : Type} (F : S -> nat * process -> S)
    (ds : nat -> body_ptr -> point_t) (w : list process) :
  (forall s i d p, F s (i, shift_process d p) = F s (i, p)) ->
  forall k n s,
    fold_left F (combine (seq k n) (mapi_from (fun r => shift_process (ds r)) k w)) s
    = fold_left F (combine (seq k n) w) s.
Proof.
  intros HF. induction w as [|p w IH]; intros k n s; simpl.
  - destruct n; reflexivity.
  - destruct n as [|n]; simpl; [reflexivity|]. rewrite HF. apply IH.
Qed.

Lemma result_map_bind {A B C : Type} (g : B -> C) (r : result A) (k : A -> result B) :
  result_map g (bind r k) = bind r (fun x => result_map g (k x)).
Proof. destruct r; reflexivity. Qed.

Lemma bind_pointwise {A B : Type} (r : result A) (k1 k2 : A -> result B) :
  (forall x, k1 x = k2 x) -> bind r k1 = bind r k2.
Proof. intros H. destruct r; simpl; [apply H | reflexivity]. Qed.

Section Additive.

Variable sizeof_mpi_cell_t : positive.

Lemma mpi_exchange_cells_rank_shift (d : body_ptr -> point_t)
    (all_vcells : list (list mpi_cell_t)) (rank : nat) (p : process) :
  mpi_exchange_cells_rank sizeof_mpi_cell_t all_vcells rank (shift_process d p)
  = result_map (shift_process d)
      (mpi_exchange_cells_rank sizeof_mpi_cell_t all_vcells rank p).
Proof.
  unfold mpi_exchange_cells_rank.
  destruct (exchange_offsets _ _ _) as [[totalrecv nrecv] noffsets].
  destruct (for_loopM _ _ _); reflexivity.
Qed.

Lemma mpi_exchange_cells_shift (maxMass : R) (ds : nat -> body_ptr -> point_t)
    (w : list process) :
  mpi_exchange_cells sizeof_mpi_cell_t maxMass (shift_world ds w)
  = result_map (shift_world ds) (mpi_exchange_cells sizeof_mpi_cell_t maxMass w).
Proof.
  unfold mpi_exchange_cells, shift_world, on_every_rank.
  rewrite (map_mapi_from (fun p => traverse maxMass (p_tree p) [])
             (fun p => traverse maxMass (p_tree p) []))
    by reflexivity.
  apply mapiM_from_commute. intros i x. apply mpi_exchange_cells_rank_shift.
Qed.

Lemma mpi_compute_fmm_rank_shift (d : body_ptr -> point_t) (fresh_id : branch_id_t)
    (macangle : R) (p : process) :
  mpi_compute_fmm_rank fresh_id macangle (shift_process d p)
  = result_map (shift_process d) (mpi_compute_fmm_rank fresh_id macangle p).
Proof.
  unfold mpi_compute_fmm_rank. cbn [shift_process recvCOM p_stdout p_tree].
  destruct (for_eachM _ _ _); reflexivity.
Qed.

Lemma mpi_compute_fmm_shift (fresh_id : branch_id_t) (macangle : R)
    (ds : nat -> body_ptr -> point_t) (w : list process) :
  mpi_compute_fmm fresh_id macangle (shift_world ds w)
  = result_map (shift_world ds) (mpi_compute_fmm fresh_id macangle w).
Proof.
  unfold mpi_compute_fmm, shift_world, on_every_rank.
  apply mapiM_from_commute. intros i x. apply mpi_compute_fmm_rank_shift.
Qed.

Lemma alltoallv_shift (ds : nat -> body_ptr -> point_t) (w : list process)
    (rank : nat) (nrecv noffsets : list nat) (buf : list mpi_cell_t) :
  alltoallv sizeof_mpi_cell_t (shift_world ds w) rank nrecv noffsets buf
  = alltoallv sizeof_mpi_cell_t w rank nrecv noffsets buf.
Proof.
  unfold alltoallv, shift_world. rewrite mapi_from_length.
  apply (fold_ranks_shift
           (fun buf (x : nat * process) =>
              let '(i, sender) := x in
              write_at (iget noffsets i / sizeof_cell sizeof_mpi_cell_t)
                (firstn (iget nrecv i / sizeof_cell sizeof_mpi_cell_t)
                   (slice
                      (iget (fst (gather_offsets (List.length w) i (nrecvCOM sender)))
                         rank / sizeof_cell sizeof_mpi_cell_t)
                      (iget (nrecvCOM sender) rank / sizeof_cell sizeof_mpi_cell_t)
                      (recvCOM sender))) buf)).
  intros s i d p. reflexivity.
Qed.

Lemma mpi_gather_cells_rank_shift (ds : nat -> body_ptr -> point_t)
    (d : body_ptr -> point_t) (w : list process) (rank : nat) (p : process) :
  mpi_gather_cells_rank sizeof_mpi_cell_t (shift_world ds w) rank (shift_process d p)
  = result_map (shift_process d)
      (mpi_gather_cells_rank sizeof_mpi_cell_t w rank p).
Proof.
  unfold mpi_gather_cells_rank. rewrite alltoallv_shift.
  unfold shift_world. rewrite !mapi_from_length.
  cbn [shift_process nrecvCOM recvCOM p_tree p_bodies p_stdout].
  rewrite result_map_bind. apply bind_pointwise. intros _.
  rewrite result_map_bind. apply bind_pointwise. intros rc.
  rewrite apply_cells_shift.
  destruct (apply_cells _ _ _ _); reflexivity.
Qed.

Lemma mpi_gather_cells_shift (ds : nat -> body_ptr -> point_t) (w : list process) :
  mpi_gather_cells sizeof_mpi_cell_t (shift_world ds w)
  = result_map (shift_world ds) (mpi_gather_cells sizeof_mpi_cell_t w).
Proof.
  unfold mpi_gather_cells, on_every_rank. unfold shift_world at 2 3.
  apply mapiM_from_commute. intros i x. apply mpi_gather_cells_rank_shift.
Qed.

(** Shifting the accelerations the step starts from shifts the accelerations
    it ends with by the same amounts, and changes nothing else. *)
Lemma gravity_step_shift (maxMass macangle : R) (fresh_id : branch_id_t)
    (ds : nat -> body_ptr -> point_t) (w : list process) :
  gravity_step sizeof_mpi_cell_t maxMass macangle fresh_id (shift_world ds w)
  = result_map (shift_world ds)
      (gravity_step sizeof_mpi_cell_t maxMass macangle fresh_id w).
Proof.
  unfold gravity_step. rewrite mpi_exchange_cells_shift.
  destruct (mpi_exchange_cells _ _ w) as [w1|e]; cbn [bind result_map]; [|reflexivity].
  rewrite mpi_compute_fmm_shift.
  destruct (mpi_compute_fmm _ _ w1) as [w2|e]; cbn [bind result_map]; [|reflexivity].
  apply mpi_gather_cells_shift.
Qed.

(** C9.  A step that returns leaves, on every rank, the tree as it was (its
    branches and the holders with their positions, masses and locality
    flags) and the position and mass of every body; and the accelerations
    are only added to: had the step started from accelerations shifted by
    any amounts, it would have ended (or aborted) the same way with the
    accelerations shifted by those amounts.  Besides the accelerations the
    step writes its buffers [recvCOM] and [nrecvCOM] and prints. *)
Theorem C9_step_writes_only_accelerations (maxMass macangle : R)
    (fresh_id : branch_id_t) (w : list process) :
  (forall w',
     gravity_step sizeof_mpi_cell_t maxMass macangle fresh_id w = Ok w' ->
     Forall2 frame w w')
  /\ (forall ds,
        gravity_step sizeof_mpi_cell_t maxMass macangle fresh_id (shift_world ds w)
        = result_map (shift_world ds)
            (gravity_step sizeof_mpi_cell_t maxMass macangle fresh_id w)).
Proof.
  split.
  - intros w'. apply gravity_step_frame.
  - intros ds. apply gravity_step_shift.
Qed.

End Additive.

Lemma ex_process_step_returns :
  exists w', gravity_step 1%positive 2 (1 / 2) 0 [ex_process] = Ok w'.
Proof.
  pose proof (gravity_step_single_leaf 1%positive 2 (1 / 2) 0
                (mkInfo 0 (mkPoint 1 0 0) 1 (mkPoint 1 0 0) (mkPoint 1 0 0))
                ex_holder ex_store [] [] []) as H.
  change (mkProcess _ _ _ _ _) with ex_process in H.
  destruct (gravity_step 1%positive 2 (1 / 2) 0 [ex_process]) as [w'|e].
  - exists w'. reflexivity.
  - exfalso. destruct H as (_ & [Hneg | (_ & Hloc)]).
    + simpl in Hneg. lra.
    + discriminate Hloc.
Qed.

Lemma C9_step_frame_witness :
  exists w',
    gravity_step 1%positive 2 (1 / 2) 0 [ex_process] = Ok w'
    /\ Forall2 frame [ex_process] w'.
Proof.
  destruct ex_process_step_returns as (w' & Hw').
  exists w'. split; [exact Hw'|].
  exact (proj1 (C9_step_writes_only_accelerations 1%positive 2 (1 / 2) 0 [ex_process])
           w' Hw').
Defined.

(** * Further properties of the kernel *)

(** ** [computeAcceleration] *)

Lemma distance_zero_iff (p q : point_t) : distance p q = 0 <-> p = q.
Proof.
  split.
  - intros H. destruct p as [a b c], q as [a' b' c']. unfold distance in H. simpl in H.
    pose proof (Rle_0_sqr (a - a')) as Ha. pose proof (Rle_0_sqr (b - b')) as Hb.
    pose proof (Rle_0_sqr (c - c')) as Hc. unfold Rsqr in Ha, Hb, Hc.
    apply sqrt_eq_0 in H; [|lra].
    assert (Ea : (a - a') * (a - a') = 0) by lra.
    assert (Eb : (b - b') * (b - b') = 0) by lra.
    assert (Ec : (c - c') * (c - c') = 0) by lra.
    apply Rmult_integral in Ea, Eb, Ec.
    f_equal; [destruct Ea | destruct Eb | destruct Ec]; lra.
  - intros ->. apply distance_self.
Qed.

Lemma distance_square (p q : point_t) :
  distance p q * distance p q = pdot (psub p q) (psub p q).
Proof.
  unfold distance, pdot, psub. simpl. apply sqrt_sqrt.
  pose proof (Rle_0_sqr (px p - px q)) as Ha. pose proof (Rle_0_sqr (py p - py q)) as Hb.
  pose proof (Rle_0_sqr (pz p - pz q)) as Hc. unfold Rsqr in Ha, Hb, Hc. lra.
Qed.

Lemma computeAcceleration_returns (p q : point_t) (m : R) (acc acc' : accum) :
  computeAcceleration p q m acc = Ok acc' -> 0 < distance p q.
Proof.
  unfold computeAcceleration. destruct (dlt 0 (distance p q)) eqn:E.
  - intros _. apply dlt_true. exact E.
  - discriminate.
Qed.

(** X1.  For a sink and a source at the same position
    [computeAcceleration] stops at [assert(dist > 0.0)], the first statement
    after the distance is taken, so before anything is added to [fc], the
    Jacobian or the Hessian; a call that returns was made with two different
    positions. *)
Theorem computeAcceleration_needs_distinct_positions (p q : point_t) (m : R)
    (acc : accum) :
  (p = q -> computeAcceleration p q m acc = Abort AssertDistPositive)
  /\ (forall acc', computeAcceleration p q m acc = Ok acc' -> p <> q).
Proof.
  split.
  - intros ->. unfold computeAcceleration. rewrite distance_self.
    replace (dlt 0 0) with false by (symmetry; apply dlt_false; lra).
    reflexivity.
  - intros acc' Hrun Heq. apply computeAcceleration_returns in Hrun.
    rewrite Heq, distance_self in Hrun. lra.
Qed.

(** What the Jacobian loop adds to each slot. *)
Lemma jacobi_loop_slot (diffPos : point_t) (dist jc : R) (J : list R) (i j : nat) :
  List.length J = 9%nat -> (i < 3)%nat -> (j < 3)%nat ->
  aget (for_loop 3 (fun i => for_loop 3 (fun j => jacobi_step diffPos dist jc i j)) J)
       (i * 3 + j)
  = aget J (i * 3 + j)
    + jc * (delta i j - 3 * pidx diffPos i * pidx diffPos j / (dist * dist)).
Proof.
  intros HL Hi Hj. explode J HL.
  destruct i as [|[|[|i]]]; try lia;
  destruct j as [|[|[|j]]]; try lia;
  unroll; unfold Rdiv; ring.
Qed.

(** X2.  With [r = sinkPosition - sourcePosition], [d] its length and
    [alpha = -m/d^3], a returning [computeAcceleration] has added [alpha r]
    to [fc] and [alpha (delta_ij - 3 r_i r_j / d^2)] to [jacobi[i*3+j]]. *)
Theorem computeAcceleration_force_and_jacobian (p q : point_t) (m : R)
    (acc acc' : accum) (i j : nat) :
  computeAcceleration p q m acc = Ok acc' ->
  List.length (a_jacobi acc) = 9%nat ->
  (i < 3)%nat -> (j < 3)%nat ->
  a_fc acc' = padd (a_fc acc)
                (pscale (- m / (distance p q * distance p q * distance p q)) (psub p q))
  /\ aget (a_jacobi acc') (i * 3 + j)
     = aget (a_jacobi acc) (i * 3 + j)
       + - m / (distance p q * distance p q * distance p q)
         * (delta i j
            - 3 * pidx (psub p q) i * pidx (psub p q) j / (distance p q * distance p q)).
Proof.
  intros Hrun HL Hi Hj. unfold computeAcceleration in Hrun.
  destruct (dlt 0 (distance p q)); cbn [assert bind] in Hrun; [|discriminate].
  injection Hrun as <-. cbn [a_fc a_jacobi]. split; [reflexivity|].
  apply jacobi_loop_slot; assumption.
Qed.

(** X3.  A returning [computeAcceleration] has added to
    [hessian[i*9+j*3+k]] the value [beta (c T_ijk(r) - 5 r_i r_j r_k / d^2)]
    with [beta = -3m/d^5], where the factor [c] is 1 when the truth value of
    [i == j], read as an integer, equals [k], and 3 otherwise. *)
Theorem computeAcceleration_hessian_slot (p q : point_t) (m : R)
    (acc acc' : accum) (i j k : nat) :
  computeAcceleration p q m acc = Ok acc' ->
  List.length (a_hessian acc) = 27%nat ->
  (i < 3)%nat -> (j < 3)%nat -> (k < 3)%nat ->
  aget (a_hessian acc') (i * 9 + j * 3 + k)
  = aget (a_hessian acc) (i * 9 + j * 3 + k)
    + -3 * m / (distance p q * distance p q * distance p q * distance p q * distance p q)
      * (scale_code i j k * T_spec (psub p q) i j k
         - 5 / (distance p q * distance p q)
           * pidx (psub p q) i * pidx (psub p q) j * pidx (psub p q) k).
Proof.
  intros Hrun HL Hi Hj Hk.
  pose proof (computeAcceleration_returns _ _ _ _ _ Hrun) as Hd.
  unfold computeAcceleration in Hrun.
  destruct (dlt 0 (distance p q)); cbn [assert bind] in Hrun; [|discriminate].
  injection Hrun as <-. cbn [a_hessian].
  rewrite hessian_loop_slot by assumption. field. lra.
Qed.

(** X4.  The Jacobian contribution of a point mass is symmetric and
    trace-free: the amounts added to [jacobi[i*3+j]] and [jacobi[j*3+i]] are
    equal, and the amounts added to the three diagonal slots sum to zero. *)
Theorem computeAcceleration_jacobian_symmetric_traceless (p q : point_t) (m : R)
    (acc acc' : accum) :
  computeAcceleration p q m acc = Ok acc' ->
  List.length (a_jacobi acc) = 9%nat ->
  (forall i j, (i < 3)%nat -> (j < 3)%nat ->
     aget (a_jacobi acc') (i * 3 + j) - aget (a_jacobi acc) (i * 3 + j)
     = aget (a_jacobi acc') (j * 3 + i) - aget (a_jacobi acc) (j * 3 + i))
  /\ (aget (a_jacobi acc') 0 - aget (a_jacobi acc) 0)
     + (aget (a_jacobi acc') 4 - aget (a_jacobi acc) 4)
     + (aget (a_jacobi acc') 8 - aget (a_jacobi acc) 8) = 0.
Proof.
  intros Hrun HL.
  pose proof (computeAcceleration_returns _ _ _ _ _ Hrun) as Hd.
  assert (Hslot : forall i j, (i < 3)%nat -> (j < 3)%nat ->
            aget (a_jacobi acc') (i * 3 + j)
            = aget (a_jacobi acc) (i * 3 + j)
              + - m / (distance p q * distance p q * distance p q)
                * (delta i j
                   - 3 * pidx (psub p q) i * pidx (psub p q) j
                     / (distance p q * distance p q))).
  { intros i j Hi Hj. unfold computeAcceleration in Hrun.
    destruct (dlt 0 (distance p q)); cbn [assert bind] in Hrun; [|discriminate].
    injection Hrun as <-. cbn [a_jacobi]. apply jacobi_loop_slot; assumption. }
  split.
  - intros i j Hi Hj. rewrite (Hslot i j), (Hslot j i) by assumption.
    replace (delta j i) with (delta i j)
      by (unfold delta; rewrite (Nat.eqb_sym j i); reflexivity).
    field. lra.
  - assert (H0 := Hslot 0%nat 0%nat ltac:(lia) ltac:(lia)).
    assert (H1 := Hslot 1%nat 1%nat ltac:(lia) ltac:(lia)).
    assert (H2 := Hslot 2%nat 2%nat ltac:(lia) ltac:(lia)).
    unfold delta in H0, H1, H2. cbn [Nat.mul Nat.add Nat.eqb pidx] in H0, H1, H2.
    rewrite H0, H1, H2.
    pose proof (distance_square p q) as Hsq. unfold pdot in Hsq.
    set (d := distance p q) in *. set (r := psub p q) in *.
    match goal with
    | |- ?L = 0 =>
        replace L
          with (- m / (d * d * d)
                * (3 - 3 * (px r * px r + py r * py r + pz r * pz r) / (d * d)))
          by (field; lra)
    end.
    rewrite <- Hsq. field. lra.
Qed.

Lemma computeAcceleration_needs_distinct_positions_witness :
  computeAcceleration pzero pzero 1 accum_zero = Abort AssertDistPositive
  /\ exists acc',
       computeAcceleration (mkPoint 1 0 0) pzero 1 accum_zero = Ok acc'
       /\ mkPoint 1 0 0 <> pzero.
Proof.
  split.
  - exact (proj1 (computeAcceleration_needs_distinct_positions pzero pzero 1 accum_zero)
             eq_refl).
  - destruct computeAcceleration_ex as (a & Ha & _). exists a. split; [exact Ha|].
    exact (proj2 (computeAcceleration_needs_distinct_positions (mkPoint 1 0 0) pzero 1
                    accum_zero) a Ha).
Defined.

Lemma computeAcceleration_force_and_jacobian_witness :
  exists acc',
    computeAcceleration (mkPoint 1 0 0) pzero 1 accum_zero = Ok acc'
    /\ List.length (a_jacobi accum_zero) = 9%nat
    /\ (0 < 3)%nat /\ (0 < 3)%nat
    /\ a_fc acc'
       = padd (a_fc accum_zero)
           (pscale (- 1 / (distance (mkPoint 1 0 0) pzero * distance (mkPoint 1 0 0) pzero
                           * distance (mkPoint 1 0 0) pzero))
              (psub (mkPoint 1 0 0) pzero))
    /\ aget (a_jacobi acc') (0 * 3 + 0)
       = aget (a_jacobi accum_zero) (0 * 3 + 0)
         + - 1 / (distance (mkPoint 1 0 0) pzero * distance (mkPoint 1 0 0) pzero
                  * distance (mkPoint 1 0 0) pzero)
           * (delta 0 0
              - 3 * pidx (psub (mkPoint 1 0 0) pzero) 0 * pidx (psub (mkPoint 1 0 0) pzero) 0
                / (distance (mkPoint 1 0 0) pzero * distance (mkPoint 1 0 0) pzero)).
Proof.
  destruct computeAcceleration_ex as (a & Ha & _). exists a.
  assert (HL : List.length (a_jacobi accum_zero) = 9%nat) by reflexivity.
  assert (H3 : (0 < 3)%nat) by lia.
  split; [exact Ha | split; [exact HL | split; [exact H3 | split; [exact H3|]]]].
  exact (computeAcceleration_force_and_jacobian (mkPoint 1 0 0) pzero 1 accum_zero a
           0 0 Ha HL H3 H3).
Defined.

Lemma computeAcceleration_hessian_slot_witness :
  exists acc',
    computeAcceleration (mkPoint 1 0 0) pzero 1 accum_zero = Ok acc'
    /\ List.length (a_hessian accum_zero) = 27%nat
    /\ (0 < 3)%nat /\ (0 < 3)%nat /\ (0 < 3)%nat
    /\ aget (a_hessian acc') (0 * 9 + 0 * 3 + 0)
       = aget (a_hessian accum_zero) (0 * 9 + 0 * 3 + 0)
         + -3 * 1 / (distance (mkPoint 1 0 0) pzero * distance (mkPoint 1 0 0) pzero
                     * distance (mkPoint 1 0 0) pzero * distance (mkPoint 1 0 0) pzero
                     * distance (mkPoint 1 0 0) pzero)
           * (scale_code 0 0 0 * T_spec (psub (mkPoint 1 0 0) pzero) 0 0 0
              - 5 / (distance (mkPoint 1 0 0) pzero * distance (mkPoint 1 0 0) pzero)
                * pidx (psub (mkPoint 1 0 0) pzero) 0
                * pidx (psub (mkPoint 1 0 0) pzero) 0
                * pidx (psub (mkPoint 1 0 0) pzero) 0).
Proof.
  destruct computeAcceleration_ex as (a & Ha & _). exists a.
  assert (HL : List.length (a_hessian accum_zero) = 27%nat) by reflexivity.
  assert (H3 : (0 < 3)%nat) by lia.
  split; [exact Ha | split; [exact HL |
    split; [exact H3 | split; [exact H3 | split; [exact H3|]]]]].
  exact (computeAcceleration_hessian_slot (mkPoint 1 0 0) pzero 1 accum_zero a
           0 0 0 Ha HL H3 H3 H3).
Defined.

Lemma computeAcceleration_jacobian_symmetric_traceless_witness :
  exists acc',
    computeAcceleration (mkPoint 1 0 0) pzero 1 accum_zero = Ok acc'
    /\ List.length (a_jacobi accum_zero) = 9%nat
    /\ (forall i j, (i < 3)%nat -> (j < 3)%nat ->
          aget (a_jacobi acc') (i * 3 + j) - aget (a_jacobi accum_zero) (i * 3 + j)
          = aget (a_jacobi acc') (j * 3 + i) - aget (a_jacobi accum_zero) (j * 3 + i))
    /\ (aget (a_jacobi acc') 0 - aget (a_jacobi accum_zero) 0)
       + (aget (a_jacobi acc') 4 - aget (a_jacobi accum_zero) 4)
       + (aget (a_jacobi acc') 8 - aget (a_jacobi accum_zero) 8) = 0.
Proof.
  destruct computeAcceleration_ex as (a & Ha & _). exists a.
  assert (HL : List.length (a_jacobi accum_zero) = 9%nat) by reflexivity.
  split; [exact Ha | split; [exact HL|]].
  exact (computeAcceleration_jacobian_symmetric_traceless (mkPoint 1 0 0) pzero 1
           accum_zero a Ha HL).
Defined.

(** ** [box_intersection] and [MAC] *)

(** X5.  [box_intersection] does not depend on which of the two boxes is
    called the sink. *)
Theorem box_intersection_symmetric (aMin aMax bMin bMax : point_t) :
  box_intersection aMin aMax bMin bMax = box_intersection bMin bMax aMin aMax.
Proof.
  unfold box_intersection.
  rewrite (andb_comm (dle (pidx aMin 0) (pidx bMax 0))).
  rewrite (andb_comm (dle (pidx aMin 1) (pidx bMax 1))).
  rewrite (andb_comm (dle (pidx aMin 2) (pidx bMax 2))).
  reflexivity.
Qed.

(** X6.  A box that lies strictly inside another one (the test with which the
    traversal skips a source inside the sink) intersects it, as soon as it is
    not empty. *)
Theorem box_intersection_of_contained (sinkBMin sinkBMax sourceBMin sourceBMax : point_t) :
  plt sinkBMin sourceBMin = true ->
  pgt sinkBMax sourceBMax = true ->
  px sourceBMin <= px sourceBMax ->
  py sourceBMin <= py sourceBMax ->
  pz sourceBMin <= pz sourceBMax ->
  box_intersection sinkBMin sinkBMax sourceBMin sourceBMax = true.
Proof.
  unfold plt, pgt, plt, box_intersection. cbn [pidx].
  rewrite !andb_true_iff, !dlt_true, !dle_true.
  intros [[? ?] ?] [[? ?] ?] ? ? ?. repeat split; lra.
Qed.

Lemma box_intersection_of_contained_witness :
  plt (mkPoint (-2) (-2) (-2)) pzero = true
  /\ pgt (mkPoint 2 2 2) pzero = true
  /\ px pzero <= px pzero /\ py pzero <= py pzero /\ pz pzero <= pz pzero
  /\ box_intersection (mkPoint (-2) (-2) (-2)) (mkPoint 2 2 2) pzero pzero = true.
Proof.
  assert (H1 : plt (mkPoint (-2) (-2) (-2)) pzero = true).
  { unfold plt. simpl. dcmp. reflexivity. }
  assert (H2 : pgt (mkPoint 2 2 2) pzero = true).
  { unfold pgt, plt. simpl. dcmp. reflexivity. }
  assert (H3 : px pzero <= px pzero) by (simpl; lra).
  assert (H4 : py pzero <= py pzero) by (simpl; lra).
  assert (H5 : pz pzero <= pz pzero) by (simpl; lra).
  split; [exact H1 | split; [exact H2 | split; [exact H3 |
    split; [exact H4 | split; [exact H5|]]]]].
  exact (box_intersection_of_contained (mkPoint (-2) (-2) (-2)) (mkPoint 2 2 2)
           pzero pzero H1 H2 H3 H4 H5).
Defined.

Lemma MAC_false_nonpositive (sink source : branch_t) (macangle : R) :
  macangle <= 0 -> MAC sink source macangle = false.
Proof.
  intros Hle. destruct (MAC sink source macangle) eqn:E; [|reflexivity].
  apply MAC_true in E. destruct E as (Hne & Hlt). exfalso.
  pose proof (distance_nonneg (getPosition sink) (getPosition source)) as Hd.
  pose proof (distance_nonneg (getBMin source) (getBMax source)) as Hm.
  assert (Hq : 0 <= distance (getBMin source) (getBMax source)
                    / distance (getPosition sink) (getPosition source)).
  { apply Rmult_le_pos; [exact Hm|]. left. apply Rinv_0_lt_compat. lra. }
  lra.
Qed.

(** X7.  A source is accepted only under a positive opening angle, and a
    source accepted under one angle is accepted under every larger one. *)
Theorem MAC_positive_and_monotone (sink source : branch_t) (macangle : R) :
  MAC sink source macangle = true ->
  0 < macangle
  /\ forall macangle', macangle <= macangle' -> MAC sink source macangle' = true.
Proof.
  intros Hmac. split.
  - destruct (Rlt_dec 0 macangle) as [Hpos | Hneg]; [exact Hpos|].
    rewrite MAC_false_nonpositive in Hmac by lra. discriminate.
  - intros macangle' Hle. apply MAC_true. apply MAC_true in Hmac.
    destruct Hmac as (Hne & Hlt). split; [exact Hne | lra].
Qed.

Lemma MAC_positive_and_monotone_witness :
  MAC (ex_sink 0) ex_source (1 / 2) = true
  /\ 0 < 1 / 2
  /\ forall macangle', 1 / 2 <= macangle' -> MAC (ex_sink 0) ex_source macangle' = true.
Proof.
  assert (H : MAC (ex_sink 0) ex_source (1 / 2) = true) by apply MAC_ex_sink.
  split; [exact H|].
  exact (MAC_positive_and_monotone (ex_sink 0) ex_source (1 / 2) H).
Defined.

(** ** More on the cell-to-cell traversal *)

Lemma info_of_prune (b : branch_t) : info_of (prune b) = info_of b.
Proof. destruct b; reflexivity. Qed.

Lemma same_geometry_refl (k : branch_t) : same_geometry k k.
Proof. repeat split. Qed.

Lemma rrel_bind_step (f g : c2c_state -> result c2c_state) (r1 r2 : result c2c_state) :
  rrel same_accum r1 r2 ->
  (forall s1 s2, same_accum s1 s2 -> rrel same_accum (f s1) (g s2)) ->
  rrel same_accum (bind r1 f) (bind r2 g).
Proof.
  intros Hr Hfg. destruct r1, r2; simpl in *; try contradiction; auto.
Qed.

(** A source without mass changes neither the accumulators nor the outcome. *)
Lemma rrel_skip_massless (macangle : R) (sink c : branch_t)
    (r1 r2 : result c2c_state) :
  deq (getMass c) 0 = true ->
  rrel same_accum r1 r2 ->
  rrel same_accum r1 (bind r2 (tree_traversal_c2c sink macangle c)).
Proof.
  intros Hm Hr. destruct r1 as [s1|e1], r2 as [s2|e2]; simpl in *; try contradiction; auto.
  destruct c; simpl in *; rewrite Hm; simpl;
    unfold same_accum in *; destruct (_ =? _)%nat; exact Hr.
Qed.

Lemma tree_traversal_c2c_prune_rel (macangle : R) (source : branch_t) :
  forall sink s1 s2,
    same_accum s1 s2 ->
    rrel same_accum (tree_traversal_c2c sink macangle (prune source) s1)
                    (tree_traversal_c2c sink macangle source s2).
Proof.
  induction source as [i ents | i cs IH] using branch_nested_ind; intros k s1 s2 Hs.
  - apply tree_traversal_c2c_rel; [apply same_geometry_refl | exact Hs].
  - cbn [prune tree_traversal_c2c].
    change (id (Node i _)) with (i_id i). change (getMass (Node i _)) with (i_mass i).
    change (getBMin (Node i _)) with (i_bmin i). change (getBMax (Node i _)) with (i_bmax i).
    change (getPosition (Node i _)) with (i_position i).
    replace (MAC k (Node i (fold_right _ [] cs)) macangle) with (MAC k (Node i cs) macangle)
      by reflexivity.
    set (t1 := if (id k =? i_id i)%nat then log_same_id s1 else s1).
    set (t2 := if (id k =? i_id i)%nat then log_same_id s2 else s2).
    assert (Ht : same_accum t1 t2).
    { unfold t1, t2, same_accum in *. destruct (_ =? _)%nat; exact Hs. }
    destruct (deq _ 0); [exact Ht|].
    destruct (_ && _); [exact Ht|].
    destruct (_ && _); [exact Ht|].
    destruct (MAC _ _ _); [apply accumulate_rel; exact Ht|].
    assert (Hr : rrel same_accum (Ok t1) (Ok t2)) by exact Ht.
    revert Hr. generalize (Ok t1) (Ok t2). clear t1 t2 Ht Hs s1 s2.
    induction IH as [|c cs Hc _ IHcs]; intros r1 r2 Hr; simpl; [exact Hr|].
    destruct (deq (getMass c) 0) eqn:Em.
    + apply IHcs. apply rrel_skip_massless; assumption.
    + simpl. apply IHcs. apply rrel_bind_step; [exact Hr|].
      intros u1 u2 Hu. apply Hc. exact Hu.
Qed.

(** X9.  Branches of mass zero are invisible to the traversal: on the tree
    with these branches removed it returns the same accumulators, or stops at
    the same assertion. *)
Theorem tree_traversal_c2c_ignores_massless_branches (sink source : branch_t)
    (macangle : R) (s : c2c_state) :
  accumulators (tree_traversal_c2c sink macangle (prune source) s)
  = accumulators (tree_traversal_c2c sink macangle source s).
Proof.
  apply rrel_accumulators. apply tree_traversal_c2c_prune_rel. reflexivity.
Qed.

Lemma for_loop_length {A : Type} (n : nat) (body : nat -> list A -> list A)
    (a : list A) :
  (forall i l, List.length (body i l) = List.length l) ->
  List.length (for_loop n body a) = List.length a.
Proof.
  intros Hb. unfold for_loop. generalize (seq 0 n) as l. intros l. revert a.
  induction l as [|x l IH]; intros a; simpl; [reflexivity|].
  rewrite IH. apply Hb.
Qed.

Lemma computeAcceleration_lengths (p q : point_t) (m : R) (acc acc' : accum) :
  computeAcceleration p q m acc = Ok acc' ->
  List.length (a_jacobi acc') = List.length (a_jacobi acc)
  /\ List.length (a_hessian acc') = List.length (a_hessian acc).
Proof.
  unfold computeAcceleration.
  destruct (dlt 0 (distance p q)); cbn [assert bind]; [|discriminate].
  intros E. injection E as <-. cbn [a_jacobi a_hessian]. split.
  - apply for_loop_length. intros i l. apply for_loop_length. intros j l'.
    unfold jacobi_step. destruct (_ =? _)%nat; apply add_at_length.
  - apply for_loop_length. intros i l. apply for_loop_length. intros j l'.
    apply for_loop_length. intros k l''. apply add_at_length.
Qed.

Lemma accumulate_sizes (p q : point_t) (m : R) (s s' : c2c_state) :
  accumulate p q m s = Ok s' -> same_sizes s s'.
Proof.
  unfold accumulate. destruct (computeAcceleration p q m (fst s)) as [a|] eqn:E;
    simpl; [|discriminate].
  intros H. injection H as <-. apply computeAcceleration_lengths in E. exact E.
Qed.

Lemma same_sizes_trans (s1 s2 s3 : c2c_state) :
  same_sizes s1 s2 -> same_sizes s2 s3 -> same_sizes s1 s3.
Proof. unfold same_sizes. intros [? ?] [? ?]. split; congruence. Qed.

Lemma tree_traversal_c2c_sizes (macangle : R) (source : branch_t) :
  forall sink s s',
    tree_traversal_c2c sink macangle source s = Ok s' -> same_sizes s s'.
Proof.
  induction source as [i ents | i cs IH] using branch_nested_ind; intros k s s' Hrun;
    simpl in Hrun.
  - set (t := if (id k =? _)%nat then log_same_id s else s) in *.
    assert (Ht : same_sizes s t) by (unfold t; destruct (_ =? _)%nat; split; reflexivity).
    assert (Hok : forall u, Ok t = Ok u -> same_sizes s u) by (intros u E; injection E as <-; exact Ht).
    destruct (deq _ 0); [apply Hok; exact Hrun|].
    destruct (_ && _); [apply Hok; exact Hrun|].
    destruct (_ && _); [apply Hok; exact Hrun|].
    destruct (MAC _ _ _).
    + eapply same_sizes_trans; [exact Ht | eapply accumulate_sizes; exact Hrun].
    + refine (fold_bind_inv (same_sizes s) _ ents _ _ _ Hok Hrun).
      apply Forall_forall. intros bi _ u u' Hu Hb. unfold c2c_leaf_body in Hb.
      destruct (h_local bi); [destruct (negb _)|].
      * eapply same_sizes_trans; [exact Hu | eapply accumulate_sizes; exact Hb].
      * injection Hb as <-. exact Hu.
      * injection Hb as <-. exact Hu.
  - set (t := if (id k =? _)%nat then log_same_id s else s) in *.
    assert (Ht : same_sizes s t) by (unfold t; destruct (_ =? _)%nat; split; reflexivity).
    assert (Hok : forall u, Ok t = Ok u -> same_sizes s u) by (intros u E; injection E as <-; exact Ht).
    destruct (deq _ 0); [apply Hok; exact Hrun|].
    destruct (_ && _); [apply Hok; exact Hrun|].
    destruct (_ && _); [apply Hok; exact Hrun|].
    destruct (MAC _ _ _).
    + eapply same_sizes_trans; [exact Ht | eapply accumulate_sizes; exact Hrun].
    + refine (fold_bind_inv (same_sizes s) _ cs _ _ _ Hok Hrun).
      eapply Forall_impl; [|exact IH]. intros c Hc u u' Hu Hb.
      eapply same_sizes_trans; [exact Hu | eapply Hc; exact Hb].
Qed.

Lemma for_eachM_filter_leaf (sink : branch_t) (ents : list body_holder) :
  forall r1 r2,
    rrel same_accum r1 r2 ->
    rrel same_accum
      (fold_left (fun r bi => bind r (c2c_leaf_body sink bi)) ents r1)
      (fold_left (fun r bi => bind r (accumulate_holder sink bi))
         (filter (c2c_counts sink) ents) r2).
Proof.
  induction ents as [|bi ents IH]; intros r1 r2 Hr; simpl; [exact Hr|].
  unfold c2c_counts at 1. unfold c2c_leaf_body at 2.
  destruct (h_local bi); simpl.
  - destruct (negb _); simpl.
    + apply IH. apply rrel_bind_step; [exact Hr|].
      intros s1 s2 Hs. apply accumulate_rel. exact Hs.
    + apply IH. destruct r1, r2; simpl in *; auto.
  - apply IH. destruct r1, r2; simpl in *; auto.
Qed.

Lemma tree_traversal_c2c_direct_rel (macangle : R) (source : branch_t) :
  macangle <= 0 ->
  forall sink s1 s2,
    same_accum s1 s2 ->
    rrel same_accum
      (tree_traversal_c2c sink macangle source s1)
      (for_eachM (accumulate_holder sink) (c2c_direct sink source) s2).
Proof.
  intros Hangle.
  induction source as [i ents | i cs IH] using branch_nested_ind; intros k s1 s2 Hs.
  - cbn [tree_traversal_c2c c2c_direct]. rewrite MAC_false_nonpositive by exact Hangle.
    set (t1 := if (id k =? _)%nat then log_same_id s1 else s1).
    assert (Ht : same_accum t1 s2).
    { unfold t1, same_accum in *. destruct (_ =? _)%nat; exact Hs. }
    destruct (deq _ 0); [exact Ht|].
    destruct (_ && _); [exact Ht|].
    destruct (_ && _); [exact Ht|].
    unfold for_eachM. apply for_eachM_filter_leaf. exact Ht.
  - cbn [tree_traversal_c2c c2c_direct]. rewrite MAC_false_nonpositive by exact Hangle.
    set (t1 := if (id k =? _)%nat then log_same_id s1 else s1).
    assert (Ht : same_accum t1 s2).
    { unfold t1, same_accum in *. destruct (_ =? _)%nat; exact Hs. }
    destruct (deq _ 0); [exact Ht|].
    destruct (_ && _); [exact Ht|].
    destruct (_ && _); [exact Ht|].
    unfold for_eachM.
    assert (Hr : rrel same_accum (Ok t1) (Ok s2)) by exact Ht.
    revert Hr. generalize (Ok t1) (Ok s2). clear t1 Ht Hs s1 s2.
    induction IH as [|c cs Hc _ IHcs]; intros r1 r2 Hr; simpl; [exact Hr|].
    rewrite fold_left_app. apply IHcs.
    destruct r1 as [u1|e1], r2 as [u2|e2]; simpl in Hr; try contradiction.
    + simpl. apply Hc. exact Hr.
    + simpl. rewrite fold_bind_abort. exact Hr.
Qed.

(** X10.  Under an opening angle that is not positive no source is taken as a
    point mass: the traversal returns the accumulators obtained by calling
    [computeAcceleration] once per body, over the local holders not strictly
    inside the box of the sink, of the leaves that pass the three filters
    along with their ancestors. *)
Theorem tree_traversal_c2c_direct_sum (sink source : branch_t) (macangle : R)
    (s : c2c_state) :
  macangle <= 0 ->
  accumulators (tree_traversal_c2c sink macangle source s)
  = accumulators (for_eachM (accumulate_holder sink) (c2c_direct sink source) s).
Proof.
  intros Hangle. apply rrel_accumulators.
  apply tree_traversal_c2c_direct_rel; [exact Hangle | reflexivity].
Qed.

Lemma tree_traversal_c2c_direct_sum_witness :
  0 <= 0
  /\ accumulators (tree_traversal_c2c (ex_sink 0) 0 ex_source_leaf (accum_zero, []))
     = accumulators (for_eachM (accumulate_holder (ex_sink 0))
                       (c2c_direct (ex_sink 0) ex_source_leaf) (accum_zero, [])).
Proof.
  assert (H : 0 <= 0) by lra.
  split; [exact H|].
  exact (tree_traversal_c2c_direct_sum (ex_sink 0) ex_source_leaf 0 (accum_zero, []) H).
Defined.

(** ** More on the frontier selection *)

Lemma in_over_children_intro {A : Type} (f : nat -> branch_t -> list A)
    (cs : list branch_t) (a : A) :
  forall k j c,
    nth_error cs j = Some c -> In a (f (k + j)%nat c) -> In a (over_children f cs k).
Proof.
  induction cs as [|c0 cs IH]; intros k [|j] c Hj Hin; simpl in *; try discriminate.
  - injection Hj as ->. rewrite Nat.add_0_r in Hin. apply in_or_app. left. exact Hin.
  - apply in_or_app. right. apply (IH (S k) j c Hj).
    rewrite Nat.add_succ_r in Hin. exact Hin.
Qed.

(** What holds of a recorded branch and of the branches above it. *)
Lemma frontier_from_emitted (maxMass : R) (b : branch_t) :
  forall here p x,
    In (p, x) (frontier_from maxMass here b) ->
    exists s,
      p = here ++ s /\ branch_at s b = Some x
      /\ getMass x <> 0
      /\ (is_leaf x = true \/ getMass x < maxMass)
      /\ (forall s1 i s2, s = s1 ++ i :: s2 ->
            exists a, branch_at s1 b = Some a /\ is_leaf a = false
                      /\ getMass a <> 0 /\ maxMass <= getMass a).
Proof.
  induction b as [i ents | i cs IH] using branch_nested_ind; intros here p x Hin.
  - simpl in Hin. destruct (deq _ 0) eqn:Em; simpl in Hin; [contradiction|].
    destruct Hin as [Hin | []]. injection Hin as <- <-.
    exists []. rewrite app_nil_r. apply deq_false in Em.
    repeat split; auto. intros s1 j s2 E. destruct s1; discriminate.
  - simpl in Hin. destruct (deq _ 0) eqn:Em; simpl in Hin; [contradiction|].
    apply deq_false in Em.
    destruct (dlt _ maxMass) eqn:El; simpl in Hin.
    + destruct Hin as [Hin | []]. injection Hin as <- <-.
      exists []. rewrite app_nil_r. apply dlt_true in El.
      repeat split; auto. intros s1 j s2 E. destruct s1; discriminate.
    + apply dlt_false in El.
      apply in_over_children in Hin. destruct Hin as (j & c & Hj & Hin).
      rewrite Forall_forall in IH.
      destruct (IH c (nth_error_In _ _ Hj) _ _ _ Hin) as (s & -> & Hs & Hm & Hl & Hanc).
      exists (j :: s). rewrite <- app_assoc. split; [reflexivity|].
      split; [simpl; rewrite Hj; exact Hs|]. split; [exact Hm|]. split; [exact Hl|].
      intros s1 j' s2 E. destruct s1 as [|j0 s1]; simpl in E.
      * exists (Node i cs). repeat split; auto.
      * injection E as <- E. destruct (Hanc _ _ _ E) as (a & Ha & Hrest).
        exists a. split; [simpl; rewrite Hj; exact Ha | exact Hrest].
Qed.

(** X11.  Every branch the selection emits has a mass different from zero and
    is a leaf or lighter than [maxMass]; every branch above it is internal,
    has a mass different from zero and is not lighter than [maxMass]. *)
Theorem frontier_emitted_light_below_heavy (root : branch_t) (maxMass : R)
    (p : path) (x : branch_t) :
  In (p, x) (frontier maxMass root) ->
  traverse maxMass root [] = map cell_of_branch (map snd (frontier maxMass root))
  /\ getMass x <> 0
  /\ (is_leaf x = true \/ getMass x < maxMass)
  /\ (forall q i r, p = q ++ i :: r ->
        exists a, branch_at q root = Some a /\ is_leaf a = false
                  /\ getMass a <> 0 /\ maxMass <= getMass a).
Proof.
  intros Hin. split.
  { rewrite (traverse_frontier_from maxMass root [] []), map_map. reflexivity. }
  destruct (frontier_from_emitted _ _ _ _ _ Hin) as (s & E & _ & Hm & Hl & Ha).
  simpl in E. subst s. auto.
Qed.

Lemma frontier_from_covers (maxMass : R) (q : path) :
  forall b here y,
    branch_at q b = Some y -> is_leaf y = true ->
    (forall q1 q2 a, q = q1 ++ q2 -> branch_at q1 b = Some a -> getMass a <> 0) ->
    exists p x s, In (p, x) (frontier_from maxMass here b) /\ here ++ q = p ++ s.
Proof.
  induction q as [|j q IH]; intros b here y Hat Hleaf Hmass.
  - simpl in Hat. injection Hat as ->.
    assert (Hm : getMass y <> 0) by (apply (Hmass [] []); reflexivity).
    exists here, y, []. split; [|reflexivity].
    destruct y as [i ents | i cs]; [|discriminate]. simpl.
    rewrite (proj2 (deq_false _ _) Hm). left. reflexivity.
  - assert (Hm : getMass b <> 0) by (apply (Hmass [] (j :: q)); reflexivity).
    simpl in Hat. destruct (nth_error (children_of b) j) as [c|] eqn:Hj; [|discriminate].
    destruct b as [i ents | i cs]; [destruct j; discriminate|]. simpl in Hj.
    simpl. rewrite (proj2 (deq_false _ _) Hm).
    destruct (dlt _ maxMass).
    + exists here, (Node i cs), (j :: q). split; [left; reflexivity | reflexivity].
    + destruct (IH c (here ++ [j]) y Hat Hleaf) as (p & x & s & Hin & E).
      { intros q1 q2 a Eq Ha. apply (Hmass (j :: q1) q2); [rewrite Eq; reflexivity|].
        simpl. rewrite Hj. exact Ha. }
      exists p, x, s. split.
      * simpl. apply (in_over_children_intro _ cs (p, x) 0%nat j c Hj). exact Hin.
      * rewrite <- E, <- app_assoc. reflexivity.
Qed.

(** X12.  The frontier covers the tree: a leaf that has, like every branch
    between the root and it, a mass different from zero is an emitted branch
    or lies below one. *)
Theorem frontier_covers_leaves (root : branch_t) (maxMass : R) (q : path)
    (y : branch_t) :
  branch_at q root = Some y ->
  is_leaf y = true ->
  (forall q1 q2 a, q = q1 ++ q2 -> branch_at q1 root = Some a -> getMass a <> 0) ->
  traverse maxMass root [] = map cell_of_branch (map snd (frontier maxMass root))
  /\ exists p x s, In (p, x) (frontier maxMass root) /\ q = p ++ s.
Proof.
  intros Hat Hleaf Hmass. split.
  { rewrite (traverse_frontier_from maxMass root [] []), map_map. reflexivity. }
  destruct (frontier_from_covers maxMass q root [] y Hat Hleaf Hmass)
    as (p & x & s & Hin & E).
  exists p, x, s. split; [exact Hin | exact E].
Qed.

Lemma traverse_prune_children (maxMass : R) (cs : list branch_t) :
  Forall (fun c => forall v, traverse maxMass (prune c) v = traverse maxMass c v) cs ->
  forall v,
    fold_left (fun v c => traverse maxMass c v)
      (fold_right (fun c rest => if deq (getMass c) 0 then rest else prune c :: rest) [] cs)
      v
    = fold_left (fun v c => traverse maxMass c v) cs v.
Proof.
  induction 1 as [|c cs Hc _ IH]; intros v; simpl; [reflexivity|].
  destruct (deq (getMass c) 0) eqn:Em.
  - rewrite IH. f_equal. destruct c; simpl; rewrite Em; reflexivity.
  - simpl. rewrite Hc. apply IH.
Qed.

(** X13.  Branches of mass zero are invisible to the selection: the tree with
    these branches removed yields the same cells. *)
Theorem traverse_ignores_massless_branches (maxMass : R) (b : branch_t)
    (vcells : list mpi_cell_t) :
  traverse maxMass (prune b) vcells = traverse maxMass b vcells.
Proof.
  revert vcells.
  induction b as [i ents | i cs IH] using branch_nested_ind; intros v; [reflexivity|].
  cbn [prune traverse].
  change (getMass (Node i _)) with (i_mass i).
  destruct (deq (i_mass i) 0); [reflexivity|].
  cbn [is_leaf orb]. destruct (dlt (i_mass i) maxMass); [reflexivity|].
  apply traverse_prune_children. exact IH.
Qed.

Lemma frontier_emitted_witness :
  In ([1%nat], Leaf (mkInfo 2 (mkPoint 1 1 1) 2 (mkPoint 1 1 1) (mkPoint 1 1 1)) [])
     (frontier 2 ex_tree)
  /\ traverse 2 ex_tree [] = map cell_of_branch (map snd (frontier 2 ex_tree))
  /\ getMass (Leaf (mkInfo 2 (mkPoint 1 1 1) 2 (mkPoint 1 1 1) (mkPoint 1 1 1)) []) <> 0
  /\ (is_leaf (Leaf (mkInfo 2 (mkPoint 1 1 1) 2 (mkPoint 1 1 1) (mkPoint 1 1 1)) []) = true
      \/ getMass (Leaf (mkInfo 2 (mkPoint 1 1 1) 2 (mkPoint 1 1 1) (mkPoint 1 1 1)) []) < 2)
  /\ (forall q i r, [1%nat] = q ++ i :: r ->
        exists a, branch_at q ex_tree = Some a /\ is_leaf a = false
                  /\ getMass a <> 0 /\ 2 <= getMass a).
Proof.
  assert (H : In ([1%nat],
                  Leaf (mkInfo 2 (mkPoint 1 1 1) 2 (mkPoint 1 1 1) (mkPoint 1 1 1)) [])
                 (frontier 2 ex_tree)).
  { unfold frontier, ex_tree. cbn [frontier_from over_children is_leaf orb app].
    unfold getMass. cbn [info_of i_mass]. dcmp. cbn [app]. right. left. reflexivity. }
  split; [exact H|].
  exact (frontier_emitted_light_below_heavy ex_tree 2 [1%nat] _ H).
Defined.

Lemma frontier_covers_leaves_witness :
  branch_at [1%nat] ex_tree
  = Some (Leaf (mkInfo 2 (mkPoint 1 1 1) 2 (mkPoint 1 1 1) (mkPoint 1 1 1)) [])
  /\ is_leaf (Leaf (mkInfo 2 (mkPoint 1 1 1) 2 (mkPoint 1 1 1) (mkPoint 1 1 1)) []) = true
  /\ (forall q1 q2 a, [1%nat] = q1 ++ q2 -> branch_at q1 ex_tree = Some a ->
        getMass a <> 0)
  /\ traverse 2 ex_tree [] = map cell_of_branch (map snd (frontier 2 ex_tree))
  /\ exists p x s, In (p, x) (frontier 2 ex_tree) /\ [1%nat] = p ++ s.
Proof.
  assert (H1 : branch_at [1%nat] ex_tree
               = Some (Leaf (mkInfo 2 (mkPoint 1 1 1) 2 (mkPoint 1 1 1) (mkPoint 1 1 1)) []))
    by reflexivity.
  assert (H2 : is_leaf (Leaf (mkInfo 2 (mkPoint 1 1 1) 2 (mkPoint 1 1 1) (mkPoint 1 1 1)) [])
               = true) by reflexivity.
  assert (H3 : forall q1 q2 a, [1%nat] = q1 ++ q2 -> branch_at q1 ex_tree = Some a ->
                 getMass a <> 0).
  { intros q1 q2 a E Ha. destruct q1 as [|j q1].
    - simpl in Ha. injection Ha as <-. unfold getMass. simpl. lra.
    - simpl in E. injection E as <- E. destruct q1; [|discriminate].
      simpl in Ha. injection Ha as <-. unfold getMass. simpl. lra. }
  split; [exact H1 | split; [exact H2 | split; [exact H3|]]].
  exact (frontier_covers_leaves ex_tree 2 [1%nat] _ H1 H2 H3).
Defined.

(** ** More on the cell-to-particle descent *)

Lemma c2p_leaf_body_untouched (sp fc : point_t) (J H : list R) (bi : body_holder)
    (s : c2p_state) (r : body_ptr) :
  h_body bi <> r ->
  getBody (c2p_bodies (c2p_leaf_body sp fc J H bi s)) r = getBody (c2p_bodies s) r.
Proof.
  intros Hne. unfold c2p_leaf_body. destruct (h_local bi); simpl; [|reflexivity].
  apply getBody_setAcceleration_other. congruence.
Qed.

Lemma c2p_fold_untouched (sp fc : point_t) (J H : list R) (r : body_ptr)
    (l : list body_holder) :
  ~ In r (map h_body l) ->
  forall s,
    getBody (c2p_bodies (fold_left (fun s bi => c2p_leaf_body sp fc J H bi s) l s)) r
    = getBody (c2p_bodies s) r.
Proof.
  induction l as [|bi l IH]; intros Hn s; simpl; [reflexivity|].
  simpl in Hn. rewrite IH by tauto. apply c2p_leaf_body_untouched. tauto.
Qed.

Lemma c2p_fold_nbody (sp fc : point_t) (J H : list R) (l : list body_holder) :
  Forall (fun bi => h_local bi = true) l ->
  forall s,
    nbody (fold_left (fun s bi => c2p_leaf_body sp fc J H bi s) l s)
    = (nbody s + List.length l)%nat.
Proof.
  induction 1 as [|bi l Hbi _ IH]; intros s; simpl; [lia|].
  rewrite IH. unfold c2p_leaf_body. rewrite Hbi. simpl. lia.
Qed.

(** X14.  The descent leaves alone every body that no visited holder points
    to, keeps the number of bodies of the store, and advances [nbody] by the
    number of holders it visits. *)
Theorem sink_traversal_c2p_touches_only_visited (b : branch_t)
    (sinkPosition fc : point_t) (jacobi hessian : list R) (s : c2p_state) :
  (forall r, ~ In r (map h_body (c2p_visited b)) ->
     getBody (c2p_bodies (sink_traversal_c2p b sinkPosition fc jacobi hessian s)) r
     = getBody (c2p_bodies s) r)
  /\ List.length (c2p_bodies (sink_traversal_c2p b sinkPosition fc jacobi hessian s))
     = List.length (c2p_bodies s)
  /\ nbody (sink_traversal_c2p b sinkPosition fc jacobi hessian s)
     = (nbody s + List.length (c2p_visited b))%nat.
Proof.
  split; [|split].
  - intros r Hn. rewrite sink_traversal_c2p_visited. apply c2p_fold_untouched. exact Hn.
  - apply (sink_traversal_c2p_same_bodies b sinkPosition fc jacobi hessian s).
  - rewrite sink_traversal_c2p_visited. apply c2p_fold_nbody. apply c2p_visited_local.
Qed.

Lemma c2p_visited_massless (c : branch_t) : getMass c = 0 -> c2p_visited c = [].
Proof.
  intros Em. assert (Hle : dle (getMass c) 0 = true) by (apply dle_true; lra).
  destruct c; simpl; rewrite Hle; reflexivity.
Qed.

Lemma c2p_visited_prune (b : branch_t) : c2p_visited (prune b) = c2p_visited b.
Proof.
  induction b as [i ents | i cs IH] using branch_nested_ind; [reflexivity|].
  cbn [prune c2p_visited]. change (getMass (Node i _)) with (i_mass i).
  destruct (dle (i_mass i) 0); [reflexivity|].
  induction IH as [|c cs Hc _ IHcs]; simpl; [reflexivity|].
  destruct (deq (getMass c) 0) eqn:Em.
  - rewrite IHcs. apply deq_true in Em.
    rewrite (c2p_visited_massless c Em). reflexivity.
  - simpl. rewrite Hc, IHcs. reflexivity.
Qed.

(** X15.  Branches of mass zero are invisible to the descent: on the tree
    with these branches removed it ends in the same state. *)
Theorem sink_traversal_c2p_ignores_massless_branches (b : branch_t)
    (sinkPosition fc : point_t) (jacobi hessian : list R) (s : c2p_state) :
  sink_traversal_c2p (prune b) sinkPosition fc jacobi hessian s
  = sink_traversal_c2p b sinkPosition fc jacobi hessian s.
Proof. rewrite !sink_traversal_c2p_visited, c2p_visited_prune. reflexivity. Qed.

(** X16.  For a holder that sits at the expansion point the value added to
    the acceleration is [fc]: the Jacobian and the Hessian do not enter. *)
Theorem taylor_grav_at_expansion_point (fc : point_t) (jacobi hessian : list R)
    (bi : body_holder) :
  taylor_grav (h_position bi) fc jacobi hessian bi = fc.
Proof.
  unfold taylor_grav.
  replace (psub (h_position bi) (h_position bi)) with pzero
    by (unfold psub, pzero; f_equal; ring).
  generalize (aget jacobi) as J. generalize (aget hessian) as H. intros H J.
  destruct fc as [fx fy fz]. unroll. f_equal; field.
Qed.

(** ** More on the reduction *)

(** X17.  The reduction returns exactly when, for every peer chunk and every
    owned slot, the two cells agree on position and identifier and every
    Hessian component summed up to that chunk is below 1000. *)
Theorem reduce_cells_returns_iff_checks_pass (size ncells : nat)
    (rc : list mpi_cell_t) :
  (0 < size)%nat ->
  List.length rc = (ncells * size)%nat ->
  (forall j, (j < ncells)%nat -> wf_cell (cget rc j)) ->
  (exists rc', reduce_cells size ncells rc = Ok rc')
  <-> (forall t j, (1 <= t < size)%nat -> (j < ncells)%nat -> checks_pass rc ncells t j).
Proof.
  intros Hsize Hlen Hwf.
  assert (Hle : (ncells <= List.length rc)%nat) by nia.
  split.
  - intros (rc' & Hrun) t j Ht Hj.
    destruct (reduce_cells_inv size ncells rc rc' Hsize Hle Hwf Hrun) as (_ & _ & Hred).
    destruct (Hred j Hj) as (_ & _ & _ & _ & _ & Hchk). apply Hchk. exact Ht.
  - intros Hchk. apply reduce_cells_total; assumption.
Qed.

Lemma reduce_cells_returns_iff_witness :
  (0 < 2)%nat
  /\ List.length ex_recvcells = (1 * 2)%nat
  /\ (forall j, (j < 1)%nat -> wf_cell (cget ex_recvcells j))
  /\ ((exists rc', reduce_cells 2 1 ex_recvcells = Ok rc')
      <-> (forall t j, (1 <= t < 2)%nat -> (j < 1)%nat -> checks_pass ex_recvcells 1 t j)).
Proof.
  assert (H1 : (0 < 2)%nat) by lia.
  assert (H2 : List.length ex_recvcells = (1 * 2)%nat) by reflexivity.
  split; [exact H1 | split; [exact H2 | split; [exact ex_recvcells_wf|]]].
  exact (reduce_cells_returns_iff_checks_pass 2 1 ex_recvcells H1 H2 ex_recvcells_wf).
Defined.

(** X18.  A returning reduction keeps the size of the array and every cell
    past the owned slots: the chunks of the peers are read, never written. *)
Theorem reduce_cells_keeps_peer_chunks (size ncells : nat) (rc rc' : list mpi_cell_t) :
  (0 < size)%nat ->
  List.length rc = (ncells * size)%nat ->
  (forall j, (j < ncells)%nat -> wf_cell (cget rc j)) ->
  reduce_cells size ncells rc = Ok rc' ->
  List.length rc' = List.length rc
  /\ (forall m, (ncells <= m)%nat -> cget rc' m = cget rc m).
Proof.
  intros Hsize Hlen Hwf Hrun.
  assert (Hle : (ncells <= List.length rc)%nat) by nia.
  destruct (reduce_cells_inv size ncells rc rc' Hsize Hle Hwf Hrun) as (Hl & Hrest & _).
  split; assumption.
Qed.

Lemma reduce_cells_keeps_peer_chunks_witness :
  (0 < 2)%nat
  /\ List.length ex_recvcells = (1 * 2)%nat
  /\ (forall j, (j < 1)%nat -> wf_cell (cget ex_recvcells j))
  /\ exists rc',
       reduce_cells 2 1 ex_recvcells = Ok rc'
       /\ List.length rc' = List.length ex_recvcells
       /\ (forall m, (1 <= m)%nat -> cget rc' m = cget ex_recvcells m).
Proof.
  assert (H1 : (0 < 2)%nat) by lia.
  assert (H2 : List.length ex_recvcells = (1 * 2)%nat) by reflexivity.
  split; [exact H1 | split; [exact H2 | split; [exact ex_recvcells_wf|]]].
  destruct ex_recvcells_returns as (rc' & Hrc').
  exists rc'. split; [exact Hrc'|].
  exact (reduce_cells_keeps_peer_chunks 2 1 ex_recvcells rc' H1 H2 ex_recvcells_wf Hrc').
Defined.

Lemma for_rangeM_id {S : Type} (lo hi : nat) (body : nat -> S -> result S) (s : S) :
  (forall i t, body i t = Ok t) -> for_rangeM lo hi body s = Ok s.
Proof.
  intros Hb. unfold for_rangeM. generalize (seq lo (hi - lo)) as l.
  induction l as [|x l IH]; simpl; [reflexivity|].
  rewrite Hb. exact IH.
Qed.

(** X19.  With a single process, or with no owned cell, the reduction returns
    the array as it is: nothing is compared and no Hessian component is held
    against the bound of 1000. *)
Theorem reduce_cells_nothing_to_reduce (size ncells : nat) (rc : list mpi_cell_t) :
  (size <= 1)%nat \/ ncells = 0%nat ->
  reduce_cells size ncells rc = Ok rc.
Proof.
  intros [Hsize | ->]; unfold reduce_cells.
  - unfold for_rangeM. replace (size - 1)%nat with 0%nat by lia. reflexivity.
  - apply for_rangeM_id. intros i t. reflexivity.
Qed.

Lemma reduce_cells_nothing_to_reduce_witness :
  ((1 <= 1)%nat \/ 1%nat = 0%nat)
  /\ reduce_cells 1 1 ex_recvcells_high = Ok ex_recvcells_high.
Proof.
  assert (H : (1 <= 1)%nat \/ 1%nat = 0%nat) by (left; lia).
  split; [exact H|].
  exact (reduce_cells_nothing_to_reduce 1 1 ex_recvcells_high H).
Defined.

(** ** Propagation to the particles *)

(** X20.  One cell is applied when its identifier resolves to a branch under
    which the descent visits a holder; [nbody] then advances by the number
    of visited holders.  Otherwise the step stops: at [assert(sink!=nullptr)]
    when the identifier does not resolve, at [assert(subparts.size()!=0)]
    when the descent visits nothing (the branch has no positive mass, or no
    local holder under positive masses). *)
Theorem apply_cell_outcome (root : branch_t) (cell : mpi_cell_t) (s : nat * store) :
  match apply_cell root cell s with
  | Ok s' =>
      exists sink,
        tree_get (c_id cell) root = Some sink
        /\ c2p_visited sink <> []
        /\ fst s' = (fst s + List.length (c2p_visited sink))%nat
  | Abort e =>
      (e = AssertSinkFound /\ tree_get (c_id cell) root = None)
      \/ (e = AssertSubparts
          /\ exists sink, tree_get (c_id cell) root = Some sink /\ c2p_visited sink = [])
  end.
Proof.
  unfold apply_cell. destruct (tree_get (c_id cell) root) as [sink|]; [|left; auto].
  rewrite sink_traversal_c2p_visited.
  rewrite c2p_fold_neighbors by apply c2p_visited_local.
  rewrite c2p_fold_nbody by apply c2p_visited_local.
  cbn [neighbors nbody app]. rewrite length_map.
  destruct (c2p_visited sink) as [|bi l] eqn:E; cbn [List.length Nat.eqb negb assert bind].
  - right. split; [reflexivity|]. exists sink. auto.
  - exists sink. split; [reflexivity|]. rewrite E. split; [discriminate|]. reflexivity.
Qed.

Lemma pidx_pscale (c : R) (a : point_t) (i : nat) : pidx (pscale c a) i = c * pidx a i.
Proof. destruct i as [|[|i]]; reflexivity. Qed.

Lemma pidx_psub (a b : point_t) (i : nat) : pidx (psub a b) i = pidx a i - pidx b i.
Proof. destruct i as [|[|i]]; reflexivity. Qed.

Lemma pidx_pzero (i : nat) : pidx pzero i = 0.
Proof. destruct i as [|[|i]]; reflexivity. Qed.

Lemma direct_grav_component (st : store) (bi : body_ptr) (l : list body_ptr) (c : nat) :
  pidx (direct_grav st bi l) c = sum_R (map (pair_term st c bi) l).
Proof.
  unfold direct_grav. rewrite <- (Rplus_0_l (sum_R _)). rewrite <- (pidx_pzero c) at 1.
  generalize pzero as g. induction l as [|nb l IH]; intros g; simpl; [ring|].
  rewrite IH. unfold pair_term. cbv zeta.
  destruct (dlt 0 _); [|ring].
  rewrite pidx_padd, pidx_pscale, pidx_psub. ring.
Qed.

Lemma distance_sym (a b : point_t) : distance a b = distance b a.
Proof. unfold distance. f_equal. ring. Qed.

(** Action and reaction between two bodies cancel. *)
Lemma pair_term_antisymmetric (st : store) (c : nat) (a b : body_ptr) :
  bd_mass (getBody st a) * pair_term st c a b
  + bd_mass (getBody st b) * pair_term st c b a = 0.
Proof.
  unfold pair_term. cbv zeta.
  rewrite (distance_sym (bd_position (getBody st b))).
  destruct (dlt 0 _); [|ring]. unfold Rdiv. ring.
Qed.

Lemma sum_R_map_plus {A : Type} (f g : A -> R) (l : list A) :
  sum_R (map (fun x => f x + g x) l) = sum_R (map f l) + sum_R (map g l).
Proof. induction l as [|x l IH]; simpl; [ring | rewrite IH; ring]. Qed.

Lemma sum_R_map_scale {A : Type} (k : R) (f : A -> R) (l : list A) :
  sum_R (map (fun x => k * f x) l) = k * sum_R (map f l).
Proof. induction l as [|x l IH]; simpl; [ring | rewrite IH; ring]. Qed.

Lemma sum_R_map_zero {A : Type} (f : A -> R) (l : list A) :
  (forall x, f x = 0) -> sum_R (map f l) = 0.
Proof. intros H. induction l as [|x l IH]; simpl; [reflexivity | rewrite H, IH; ring]. Qed.

Lemma sum_R_map_pointwise {A : Type} (f g : A -> R) (l : list A) :
  (forall x, f x = g x) -> sum_R (map f l) = sum_R (map g l).
Proof. intros H. induction l as [|x l IH]; simpl; [reflexivity | rewrite H, IH; ring]. Qed.

(** A double sum of terms that cancel in pairs is zero. *)
Lemma double_sum_antisymmetric {A : Type} (F : A -> A -> R) (l : list A) :
  (forall x y, F x y + F y x = 0) ->
  sum_R (map (fun x => sum_R (map (F x) l)) l) = 0.
Proof.
  intros Hanti. induction l as [|x l IH]; simpl; [reflexivity|].
  rewrite (sum_R_map_plus (fun y => F y x) (fun y => sum_R (map (F y) l))), IH.
  assert (Hxx : F x x = 0) by (pose proof (Hanti x x); lra).
  assert (Hcross : sum_R (map (F x) l) + sum_R (map (fun y => F y x) l) = 0).
  { rewrite <- sum_R_map_plus. apply sum_R_map_zero. intros y. apply Hanti. }
  lra.
Qed.

Lemma direct_grav_conserves_momentum_aux (st : store) (subparts : list body_ptr)
    (c : nat) :
  sum_R (map (fun bi => bd_mass (getBody st bi) * pidx (direct_grav st bi subparts) c)
           subparts) = 0.
Proof.
  rewrite (sum_R_map_pointwise _
             (fun bi => sum_R (map (fun nb => bd_mass (getBody st bi)
                                             * pair_term st c bi nb) subparts))).
  - apply (double_sum_antisymmetric
             (fun bi nb => bd_mass (getBody st bi) * pair_term st c bi nb)).
    intros x y. apply pair_term_antisymmetric.
  - intros bi. rewrite direct_grav_component, sum_R_map_scale. reflexivity.
Qed.

Lemma sum_R_map_pointwise_in {A : Type} (f g : A -> R) (l : list A) :
  (forall x, In x l -> f x = g x) -> sum_R (map f l) = sum_R (map g l).
Proof.
  induction l as [|x l IH]; intros H; simpl; [reflexivity|].
  rewrite (H x) by (left; reflexivity). rewrite IH; [reflexivity|].
  intros y Hy. apply H. right. exact Hy.
Qed.

(** X21.  The direct sum over a set of bodies exerts no net force on it: the
    values [grav] it computes, weighted by the masses, sum to zero in every
    component. *)
Theorem direct_grav_conserves_momentum (st : store) (subparts : list body_ptr)
    (c : nat) :
  sum_R (map (fun bi => bd_mass (getBody st bi) * pidx (direct_grav st bi subparts) c)
           subparts) = 0.
Proof. apply direct_grav_conserves_momentum_aux. Qed.

Lemma direct_grav_same_bodies (st st' : store) (bi : body_ptr) (l : list body_ptr) :
  same_bodies st st' -> direct_grav st' bi l = direct_grav st bi l.
Proof.
  intros (_ & Hsame). unfold direct_grav. apply fold_left_pointwise. intros g nb.
  destruct (Hsame bi) as (Hp & _). destruct (Hsame nb) as (Hp' & Hm').
  rewrite Hp, Hp', Hm'. reflexivity.
Qed.

Lemma direct_sum_fold_acceleration (st : store) (subparts : list body_ptr)
    (r : body_ptr) (c : nat) (l : list body_ptr) :
  forall cur,
    same_bodies st cur -> (r < List.length cur)%nat ->
    pidx (bd_acceleration (getBody
            (fold_left (fun st bi =>
               setAcceleration bi
                 (padd (bd_acceleration (getBody st bi)) (direct_grav st bi subparts)) st)
               l cur) r)) c
    = pidx (bd_acceleration (getBody cur r)) c
      + sum_R (map (fun bi => pidx (direct_grav st bi subparts) c)
                 (filter (fun bi => (bi =? r)%nat) l)).
Proof.
  induction l as [|bi l IH]; intros cur Hsame Hr; simpl; [ring|].
  rewrite IH.
  - rewrite (direct_grav_same_bodies st cur) by exact Hsame.
    destruct (Nat.eqb_spec bi r) as [-> | Hne]; simpl.
    + rewrite getBody_setAcceleration_same by exact Hr. rewrite pidx_padd. ring.
    + rewrite getBody_setAcceleration_other by congruence. ring.
  - eapply same_bodies_trans; [exact Hsame | apply setAcceleration_same_bodies].
  - rewrite setAcceleration_length. exact Hr.
Qed.

(** X22.  For bodies listed once each, the direct sum adds to the
    acceleration of each listed body the value [grav] computed from the
    positions and masses of the listed bodies, and to nothing else; these
    additions, weighted by the masses, sum to zero. *)
Theorem direct_sum_adds_pairwise_attraction (subparts : list body_ptr) (st : store)
    (c : nat) :
  NoDup subparts ->
  (forall r, In r subparts -> (r < List.length st)%nat) ->
  (forall r, (r < List.length st)%nat ->
     pidx (bd_acceleration (getBody (direct_sum subparts st) r)) c
     = pidx (bd_acceleration (getBody st r)) c
       + (if in_dec Nat.eq_dec r subparts then pidx (direct_grav st r subparts) c else 0))
  /\ sum_R (map (fun r => bd_mass (getBody st r)
                          * (pidx (bd_acceleration (getBody (direct_sum subparts st) r)) c
                             - pidx (bd_acceleration (getBody st r)) c))
              subparts) = 0.
Proof.
  intros Hnd Hrange.
  assert (Hper : forall r, (r < List.length st)%nat ->
     pidx (bd_acceleration (getBody (direct_sum subparts st) r)) c
     = pidx (bd_acceleration (getBody st r)) c
       + (if in_dec Nat.eq_dec r subparts then pidx (direct_grav st r subparts) c else 0)).
  { intros r Hr. unfold direct_sum.
    rewrite (direct_sum_fold_acceleration st subparts r c subparts st
               (same_bodies_refl st) Hr).
    f_equal. destruct (in_dec Nat.eq_dec r subparts) as [Hin | Hnin].
    - assert (E : filter (fun bi => (bi =? r)%nat) subparts = [r]).
      { clear Hrange. induction subparts as [|x l IH]; [contradiction|].
        inversion Hnd as [|? ? Hx Hl]; subst. simpl.
        destruct (Nat.eqb_spec x r) as [-> | Hne].
        - f_equal. apply filter_none. intros y Hy. apply Nat.eqb_neq.
          intros ->. contradiction.
        - apply IH; [exact Hl | destruct Hin; [contradiction | assumption]]. }
      rewrite E. simpl. ring.
    - rewrite filter_none; [reflexivity|].
      intros y Hy. apply Nat.eqb_neq. intros ->. contradiction. }
  split; [exact Hper|].
  rewrite (sum_R_map_pointwise_in _
             (fun r => bd_mass (getBody st r) * pidx (direct_grav st r subparts) c)).
  - apply direct_grav_conserves_momentum_aux.
  - intros r Hin. rewrite (Hper r (Hrange r Hin)).
    destruct (in_dec Nat.eq_dec r subparts); [ring | contradiction].
Qed.

Lemma direct_sum_adds_pairwise_attraction_witness :
  NoDup [0%nat; 1%nat]
  /\ (forall r, In r [0%nat; 1%nat] -> (r < List.length ex_pair)%nat)
  /\ (forall r, (r < List.length ex_pair)%nat ->
        pidx (bd_acceleration (getBody (direct_sum [0%nat; 1%nat] ex_pair) r)) 0
        = pidx (bd_acceleration (getBody ex_pair r)) 0
          + (if in_dec Nat.eq_dec r [0%nat; 1%nat]
             then pidx (direct_grav ex_pair r [0%nat; 1%nat]) 0 else 0))
  /\ sum_R (map (fun r => bd_mass (getBody ex_pair r)
                          * (pidx (bd_acceleration
                                     (getBody (direct_sum [0%nat; 1%nat] ex_pair) r)) 0
                             - pidx (bd_acceleration (getBody ex_pair r)) 0))
              [0%nat; 1%nat]) = 0.
Proof.
  assert (H1 : NoDup [0%nat; 1%nat]).
  { constructor; [simpl; intros [H | []]; discriminate|].
    constructor; [simpl; tauto | constructor]. }
  assert (H2 : forall r, In r [0%nat; 1%nat] -> (r < List.length ex_pair)%nat).
  { intros r [<- | [<- | []]]; simpl; lia. }
  split; [exact H1 | split; [exact H2|]].
  exact (direct_sum_adds_pairwise_attraction [0%nat; 1%nat] ex_pair 0 H1 H2).
Defined.

(** ** The scatter with any number of processes *)

Lemma for_loop_S {S : Type} (n : nat) (body : nat -> S -> S) (s : S) :
  for_loop (Datatypes.S n) body s = body n (for_loop n body s).
Proof. unfold for_loop. rewrite seq_S, fold_left_app. reflexivity. Qed.

Lemma for_loop_inv {S : Type} (P : nat -> S -> Prop) (body : nat -> S -> S)
    (n : nat) (s : S) :
  P 0%nat s ->
  (forall k t, (k < n)%nat -> P k t -> P (Datatypes.S k) (body k t)) ->
  P n (for_loop n body s).
Proof.
  intros H0 Hstep. induction n as [|n IH]; [exact H0|].
  rewrite for_loop_S. apply Hstep; [lia|]. apply IH. intros k t Hk. apply Hstep. lia.
Qed.

Lemma iget_repeat_zero (n j : nat) : iget (repeat 0%nat n) j = 0%nat.
Proof.
  unfold iget. revert j. induction n as [|n IH]; intros [|j]; simpl; auto.
Qed.

Lemma iget_counts (all_vcells : list (list mpi_cell_t)) (j : nat) :
  iget (map (@List.length mpi_cell_t) all_vcells) j = List.length (nth j all_vcells []).
Proof.
  unfold iget. change 0%nat with (List.length (@nil mpi_cell_t)). apply map_nth.
Qed.

Lemma firstn_succ_nth {A : Type} (l : list A) (d : A) :
  forall j, (j < List.length l)%nat -> firstn (S j) l = firstn j l ++ [nth j l d].
Proof.
  induction l as [|x l IH]; intros [|j] Hj; simpl in *; try lia; try reflexivity.
  rewrite <- IH by lia. reflexivity.
Qed.

Lemma cells_before_S (all_vcells : list (list mpi_cell_t)) (j : nat) :
  (j < List.length all_vcells)%nat ->
  cells_before all_vcells (S j)
  = (cells_before all_vcells j + List.length (nth j all_vcells []))%nat.
Proof.
  intros Hj. unfold cells_before.
  rewrite (firstn_succ_nth all_vcells [] j Hj), concat_app, length_app.
  simpl. rewrite app_nil_r. reflexivity.
Qed.

Lemma iget_upd_same (k : nat) (f : nat -> nat) (l : list nat) :
  (k < List.length l)%nat -> iget (upd k f l) k = f (iget l k).
Proof. apply nth_upd_same. Qed.

Lemma iget_upd_other (k j : nat) (f : nat -> nat) (l : list nat) :
  j <> k -> iget (upd k f l) j = iget l j.
Proof. apply nth_upd_other. Qed.

Section Scatter.

Variable sizeof_mpi_cell_t : positive.

(** The offsets loop yields the total number of cells, the sizes in bytes
    and the displacements in bytes. *)
Lemma exchange_offsets_inv (all_vcells : list (list mpi_cell_t)) :
  offsets_inv (sizeof_cell sizeof_mpi_cell_t) all_vcells (List.length all_vcells)
    (exchange_offsets sizeof_mpi_cell_t (List.length all_vcells)
       (map (@List.length mpi_cell_t) all_vcells)).
Proof.
  unfold exchange_offsets.
  apply (for_loop_inv (offsets_inv (sizeof_cell sizeof_mpi_cell_t) all_vcells)).
  - unfold offsets_inv. repeat split.
    + apply length_map.
    + apply repeat_length.
    + intros j Hj. lia.
    + intros j _. apply iget_counts.
    + intros j Hj _. assert (j = 0%nat) by lia. subst j.
      rewrite iget_repeat_zero. reflexivity.
    + intros j _. apply iget_repeat_zero.
  - intros k [[t nr] no] Hk (Ht & Hlnr & Hlno & Hdone & Htodo & Hoff & Hzero).
    cbv beta iota zeta. unfold offsets_inv.
    assert (Hnrk : iget (upd k (fun x => (x * sizeof_cell sizeof_mpi_cell_t)%nat) nr) k
                   = (List.length (nth k all_vcells []) * sizeof_cell sizeof_mpi_cell_t)%nat).
    { rewrite iget_upd_same by lia. rewrite Htodo by lia. reflexivity. }
    split; [|split; [|split; [|split; [|split; [|split]]]]].
    + rewrite cells_before_S by exact Hk. rewrite Ht, Htodo by lia. reflexivity.
    + rewrite upd_length. exact Hlnr.
    + destruct (_ <? _)%nat; rewrite ?upd_length; exact Hlno.
    + intros j Hj. destruct (Nat.eq_dec j k) as [-> | Hne]; [exact Hnrk|].
      rewrite iget_upd_other by exact Hne. apply Hdone. lia.
    + intros j Hj. rewrite iget_upd_other by lia. apply Htodo. lia.
    + intros j Hj Hjs. destruct (Nat.ltb_spec k (List.length all_vcells - 1)) as [Hlt | Hge].
      * destruct (Nat.eq_dec j (k + 1)) as [-> | Hne].
        -- rewrite iget_upd_same by lia. rewrite Hnrk, (Hzero (k + 1)%nat) by lia.
           rewrite (Hoff k) by lia. replace (k + 1)%nat with (S k) by lia.
           rewrite cells_before_S by exact Hk. nia.
        -- rewrite iget_upd_other by exact Hne. apply Hoff; lia.
      * apply Hoff; lia.
    + intros j Hj. destruct (_ <? _)%nat.
      * rewrite iget_upd_other by lia. apply Hzero. lia.
      * apply Hzero. lia.
Qed.

(** [MPI_Allgatherv] with these sizes and displacements lays the blocks out
    one after the other. *)
Lemma allgatherv_concat (nrecv noffsets : list nat) (rest : list (list mpi_cell_t)) :
  forall done,
    (forall i, (i < List.length (done ++ rest))%nat ->
       (iget nrecv i / sizeof_cell sizeof_mpi_cell_t)%nat
       = List.length (nth i (done ++ rest) [])) ->
    (forall i, (i < List.length (done ++ rest))%nat ->
       (iget noffsets i / sizeof_cell sizeof_mpi_cell_t)%nat
       = cells_before (done ++ rest) i) ->
    fold_left (fun buf (x : nat * list mpi_cell_t) =>
       let '(i, data) := x in
       write_at (iget noffsets i / sizeof_cell sizeof_mpi_cell_t)
         (firstn (iget nrecv i / sizeof_cell sizeof_mpi_cell_t) data) buf)
      (combine (seq (List.length done) (List.length rest)) rest)
      (concat done ++ repeat cell_default (List.length (concat rest)))
    = concat (done ++ rest).
Proof.
  induction rest as [|v rest IH]; intros done Hn Ho.
  - simpl. rewrite !app_nil_r. reflexivity.
  - cbn [List.length seq combine fold_left].
    assert (Hi : (List.length done < List.length (done ++ v :: rest))%nat)
      by (rewrite length_app; simpl; lia).
    rewrite (Hn _ Hi), (Ho _ Hi). rewrite app_nth2, Nat.sub_diag by lia. cbn [nth].
    rewrite firstn_all.
    assert (Hcb : cells_before (done ++ v :: rest) (List.length done)
                  = List.length (concat done)).
    { unfold cells_before. rewrite firstn_app, firstn_all, Nat.sub_diag. simpl.
      rewrite app_nil_r. reflexivity. }
    rewrite Hcb. cbn [concat]. rewrite length_app, repeat_app.
    rewrite (write_at_app v (concat done) (repeat cell_default (List.length v)) _
               (repeat_length _ _)).
    replace (concat done ++ v ++ repeat cell_default (List.length (concat rest)))
      with (concat (done ++ [v]) ++ repeat cell_default (List.length (concat rest)))
      by (rewrite concat_app; simpl; rewrite app_nil_r, <- app_assoc; reflexivity).
    replace (S (List.length done)) with (List.length (done ++ [v]))
      by (rewrite length_app; simpl; lia).
    replace (done ++ v :: rest) with ((done ++ [v]) ++ rest) in *
      by (rewrite <- app_assoc; reflexivity).
    apply IH; assumption.
Qed.

Lemma nth_concat_block (all_vcells : list (list mpi_cell_t)) (rank i : nat) :
  (rank < List.length all_vcells)%nat ->
  (i < List.length (nth rank all_vcells []))%nat ->
  nth (i + cells_before all_vcells rank) (concat all_vcells) cell_default
  = nth i (nth rank all_vcells []) cell_default.
Proof.
  revert rank. induction all_vcells as [|v l IH]; intros [|rank] Hr Hi; simpl in *; try lia.
  - unfold cells_before. simpl. rewrite Nat.add_0_r. apply app_nth1. exact Hi.
  - unfold cells_before. simpl. rewrite length_app.
    rewrite app_nth2 by lia.
    replace (i + (List.length v + List.length (concat (firstn rank l))) - List.length v)%nat
      with (i + cells_before l rank)%nat by (unfold cells_before; lia).
    apply IH; [lia | exact Hi].
Qed.

(** On one rank: the assertion on the own cells holds, the catalog is the
    concatenation of the frontiers, the sizes are in bytes. *)
Lemma mpi_exchange_cells_rank_returns (all_vcells : list (list mpi_cell_t))
    (rank : nat) (p : process) :
  mpi_exchange_cells_rank sizeof_mpi_cell_t all_vcells rank p
  = Ok (exchanged (sizeof_cell sizeof_mpi_cell_t) all_vcells p).
Proof.
  unfold mpi_exchange_cells_rank.
  pose proof (exchange_offsets_inv all_vcells) as Hinv.
  destruct (exchange_offsets _ _ _) as [[t nr] no].
  destruct Hinv as (Ht & Hlnr & Hlno & Hdone & _ & Hoff & _).
  assert (Hnr : forall i, (i < List.length all_vcells)%nat ->
            (iget nr i / sizeof_cell sizeof_mpi_cell_t)%nat
            = List.length (nth i all_vcells [])).
  { intros i Hi. rewrite Hdone by exact Hi. apply div_sizeof. }
  assert (Hno : forall i, (i < List.length all_vcells)%nat ->
            (iget no i / sizeof_cell sizeof_mpi_cell_t)%nat = cells_before all_vcells i).
  { intros i Hi. rewrite Hoff by lia. apply div_sizeof. }
  assert (Hbuf : allgatherv sizeof_mpi_cell_t all_vcells nr no (repeat cell_default t)
                 = concat all_vcells).
  { unfold allgatherv. subst t. unfold cells_before. rewrite firstn_all.
    apply (allgatherv_concat nr no all_vcells []); assumption. }
  rewrite Hbuf.
  assert (Hloop : for_loopM (List.length (nth rank all_vcells [])) (fun i (_ : unit) =>
            assert (peq (position (nth i (nth rank all_vcells []) cell_default))
                        (position (cget (concat all_vcells)
                           (i + iget no rank / sizeof_cell sizeof_mpi_cell_t))))
              AssertOwnOrder) tt = Ok tt).
  { destruct (for_loopM_total (fun _ (_ : unit) => True)
               (fun i (_ : unit) =>
                  assert (peq (position (nth i (nth rank all_vcells []) cell_default))
                              (position (cget (concat all_vcells)
                                 (i + iget no rank / sizeof_cell sizeof_mpi_cell_t))))
                    AssertOwnOrder)
               (List.length (nth rank all_vcells [])) tt I) as ([] & H & _); [|exact H].
    intros k [] Hk _. exists tt. split; [|exact I].
    destruct (Nat.lt_ge_cases rank (List.length all_vcells)) as [Hr | Hr].
    - rewrite (Hno rank Hr). unfold cget. rewrite nth_concat_block by assumption.
      rewrite peq_refl. reflexivity.
    - rewrite nth_overflow in Hk by exact Hr. simpl in Hk. lia. }
  rewrite Hloop. cbn [bind]. unfold exchanged. f_equal. f_equal.
  apply (nth_ext _ _ 0%nat 0%nat).
  - rewrite length_map. exact Hlnr.
  - intros j Hj. rewrite Hlnr in Hj. fold (iget nr j). rewrite Hdone by exact Hj.
    symmetry.
    apply (map_nth (fun v : list mpi_cell_t =>
                      (List.length v * sizeof_cell sizeof_mpi_cell_t)%nat) all_vcells [] j).
Qed.

Lemma mapiM_from_all_ok {A B : Type} (f : nat -> A -> result B) (g : A -> B)
    (l : list A) :
  (forall i x, f i x = Ok (g x)) ->
  forall k, mapiM_from f k l = Ok (map g l).
Proof.
  intros Hf. induction l as [|x l IH]; intros k; simpl; [reflexivity|].
  rewrite Hf, IH. reflexivity.
Qed.

(** The model of the scatter returns for every world. *)
Lemma mpi_exchange_cells_returns (maxMass : R) (w : list process) :
  mpi_exchange_cells sizeof_mpi_cell_t maxMass w
  = Ok (map (exchanged (sizeof_cell sizeof_mpi_cell_t)
               (map (fun p => traverse maxMass (p_tree p) []) w)) w).
Proof.
  unfold mpi_exchange_cells, on_every_rank.
  apply mapiM_from_all_ok. intros i x. apply mpi_exchange_cells_rank_returns.
Qed.

(** X23.  With any number of processes, when the frontiers of all the ranks
    together take no more bytes than an [int] holds, a returning scatter
    leaves on every rank the same catalog: the frontiers of all the ranks one
    after the other in rank order, with their sizes in bytes; trees,
    particles and output are as before. *)
Theorem mpi_exchange_cells_gives_every_rank_the_catalog (maxMass : R)
    (w w' : list process) :
  fits_int (List.length (concat (map (fun p => traverse maxMass (p_tree p) []) w))
            * sizeof_cell sizeof_mpi_cell_t) ->
  mpi_exchange_cells sizeof_mpi_cell_t maxMass w = Ok w' ->
  w' = map (exchanged (sizeof_cell sizeof_mpi_cell_t)
              (map (fun p => traverse maxMass (p_tree p) []) w)) w.
Proof.
  intros _ Hrun. rewrite mpi_exchange_cells_returns in Hrun.
  injection Hrun as <-. reflexivity.
Qed.

End Scatter.

Lemma traverse_ex_leaf : traverse 2 ex_leaf [] = [cell_of_branch ex_leaf].
Proof. unfold ex_leaf. cbn [traverse getMass info_of i_mass is_leaf]. dcmp. reflexivity. Qed.

(** Two processes, each with the leaf [ex_leaf]: both end with the two cells. *)
Lemma mpi_exchange_cells_catalog_witness :
  let w := [ex_process; ex_process] in
  fits_int (List.length (concat (map (fun p => traverse 2 (p_tree p) []) w))
            * sizeof_cell 1%positive)
  /\ exists w',
       mpi_exchange_cells 1%positive 2 w = Ok w'
       /\ w' = map (exchanged (sizeof_cell 1%positive)
                      (map (fun p => traverse 2 (p_tree p) []) w)) w.
Proof.
  assert (Hfit : fits_int
            (List.length
               (concat (map (fun p => traverse 2 (p_tree p) []) [ex_process; ex_process]))
             * sizeof_cell 1%positive)).
  { cbn [map p_tree ex_process]. rewrite traverse_ex_leaf.
    unfold fits_int, INT_MAX. simpl. lia. }
  split; [exact Hfit|].
  eexists. split; [apply mpi_exchange_cells_returns|].
  exact (mpi_exchange_cells_gives_every_rank_the_catalog 1%positive 2
           [ex_process; ex_process] _ Hfit
           (mpi_exchange_cells_returns 1%positive 2 [ex_process; ex_process])).
Defined.


(** ** The compute phase *)

Lemma compute_cell_computed (fresh_id : branch_id_t) (root : branch_t) (macangle : R)
    (cell : mpi_cell_t) (out : list string) (r : mpi_cell_t * list string) :
  compute_cell fresh_id root macangle cell out = Ok r -> computed cell (fst r).
Proof.
  unfold compute_cell.
  destruct (tree_traversal_c2c _ _ _ _) as [s'|e] eqn:E; cbn [bind]; [|discriminate].
  intros H. injection H as <-. cbn [fst].
  apply tree_traversal_c2c_sizes in E. destruct E as (E9 & E27). cbn [fst a_jacobi a_hessian] in *.
  unfold computed, same_header. cbn [position bmin bmax c_id dfcdr dfcdrdr]. auto.
Qed.

Lemma compute_cells_fold (fresh_id : branch_id_t) (root : branch_t) (macangle : R)
    (l : list mpi_cell_t) :
  forall acc out res,
    fold_left (fun r cell => bind r (fun s : list mpi_cell_t * list string =>
        c <- compute_cell fresh_id root macangle cell (snd s) ;;
        Ok (fst s ++ [fst c], snd c))) l (Ok (acc, out)) = Ok res ->
    exists l', fst res = acc ++ l' /\ Forall2 computed l l'.
Proof.
  induction l as [|cell l IH]; intros acc out res Hrun; simpl in Hrun.
  - injection Hrun as <-. exists []. rewrite app_nil_r. split; [reflexivity | constructor].
  - destruct (compute_cell fresh_id root macangle cell out) as [c|e] eqn:E; cbn [bind] in Hrun.
    + apply IH in Hrun. destruct Hrun as (l' & Hres & Hall).
      exists (fst c :: l'). rewrite Hres, <- app_assoc. split; [reflexivity|].
      constructor; [eapply compute_cell_computed; exact E | exact Hall].
    + rewrite fold_bind_abort in Hrun. discriminate.
Qed.

Lemma mpi_compute_fmm_rank_computed (fresh_id : branch_id_t) (macangle : R)
    (p p' : process) :
  mpi_compute_fmm_rank fresh_id macangle p = Ok p' -> computed_process p p'.
Proof.
  unfold mpi_compute_fmm_rank, for_eachM.
  destruct (fold_left _ _ _) as [res|e] eqn:E; cbn [bind]; [|discriminate].
  intros H. injection H as <-.
  apply compute_cells_fold in E. destruct E as (l' & Hres & Hall). simpl in Hres.
  unfold computed_process. cbn [p_tree p_bodies nrecvCOM recvCOM].
  rewrite Hres. auto.
Qed.

(** X24.  A returning compute phase leaves on every rank the tree, the
    particles (accelerations included), the byte counts, the number of cells
    of the catalog and the position, box and identifier of each cell; only
    the tensor fields of the cells change, and their sizes stay. *)
Theorem mpi_compute_fmm_changes_only_tensors (fresh_id : branch_id_t) (macangle : R)
    (w w' : list process) :
  mpi_compute_fmm fresh_id macangle w = Ok w' ->
  Forall2 computed_process w w'.
Proof.
  unfold mpi_compute_fmm, on_every_rank. intros Hrun.
  eapply mapiM_from_Forall2; [|exact Hrun].
  intros i x y. apply mpi_compute_fmm_rank_computed.
Qed.

Lemma ex_process_scattered_computes :
  exists w', mpi_compute_fmm 0 (1 / 2) [ex_process_scattered] = Ok w'.
Proof.
  unfold mpi_compute_fmm, on_every_rank, mpi_compute_fmm_rank, for_eachM,
    ex_process_scattered, compute_cell.
  cbn [mapiM_from recvCOM fold_left bind p_tree p_stdout snd fst].
  cbn [tree_traversal_c2c ex_leaf].
  unfold getMass. cbn [info_of i_mass]. dcmp.
  change (getBMin (fresh_sink 0 _)) with (getBMin ex_leaf).
  change (getBMax (fresh_sink 0 _)) with (getBMax ex_leaf).
  unfold ex_leaf. rewrite !peq_refl. cbn [andb bind]. eexists. reflexivity.
Qed.

Lemma mpi_compute_fmm_changes_only_tensors_witness :
  exists w',
    mpi_compute_fmm 0 (1 / 2) [ex_process_scattered] = Ok w'
    /\ Forall2 computed_process [ex_process_scattered] w'.
Proof.
  destruct ex_process_scattered_computes as (w' & Hw').
  exists w'. split; [exact Hw'|].
  exact (mpi_compute_fmm_changes_only_tensors 0 (1 / 2) [ex_process_scattered] w' Hw').
Defined.

(** ** The gather with any number of processes *)

Lemma for_range_inv {S : Type} (P : nat -> S -> Prop) (body : nat -> S -> S)
    (lo n : nat) (s : S) :
  P lo s ->
  (forall k t, (lo <= k < lo + n)%nat -> P k t -> P (Datatypes.S k) (body k t)) ->
  P (lo + n)%nat (for_range lo (lo + n) body s).
Proof.
  intros H0 Hstep. unfold for_range. replace (lo + n - lo)%nat with n by lia.
  induction n as [|n IH].
  - simpl. rewrite Nat.add_0_r. exact H0.
  - rewrite seq_S, fold_left_app. simpl. rewrite Nat.add_succ_r.
    apply Hstep; [lia|]. apply IH. intros k t Hk. apply Hstep. lia.
Qed.

Lemma iget_byte_counts (sz : nat) (all_vcells : list (list mpi_cell_t)) (j : nat) :
  iget (byte_counts sz all_vcells) j = (List.length (nth j all_vcells []) * sz)%nat.
Proof.
  unfold iget, byte_counts.
  apply (map_nth (fun v : list mpi_cell_t => (List.length v * sz)%nat) all_vcells [] j).
Qed.

Lemma iget_repeat (x n j : nat) : (j < n)%nat -> iget (repeat x n) j = x.
Proof.
  unfold iget. revert j. induction n as [|n IH]; intros [|j] Hj; simpl; try lia; auto.
  apply IH. lia.
Qed.

Lemma cells_before_le (all_vcells : list (list mpi_cell_t)) (k : nat) :
  (k < List.length all_vcells)%nat ->
  (cells_before all_vcells k + List.length (nth k all_vcells [])
   <= List.length (concat all_vcells))%nat.
Proof.
  intros Hk. rewrite <- cells_before_S by exact Hk. unfold cells_before.
  rewrite <- (firstn_skipn (S k) all_vcells) at 2.
  rewrite concat_app, length_app. lia.
Qed.

Lemma slice_length {A : Type} (from len : nat) (l : list A) :
  (from + len <= List.length l)%nat -> List.length (slice from len l) = len.
Proof.
  intros H. unfold slice. rewrite length_firstn, length_skipn. lia.
Qed.

Lemma nth_slice {A : Type} (from len j : nat) (l : list A) (d : A) :
  (j < len)%nat -> nth j (slice from len l) d = nth (from + j) l d.
Proof.
  intros Hj. unfold slice. rewrite nth_firstn.
  replace (j <? len)%nat with true by (symmetry; apply Nat.ltb_lt; exact Hj).
  rewrite nth_skipn. reflexivity.
Qed.

Lemma concat_uniform_length {A : Type} (n : nat) (ls : list (list A)) :
  Forall (fun l => List.length l = n) ls ->
  List.length (concat ls) = (n * List.length ls)%nat.
Proof.
  induction 1 as [|l ls Hl _ IH]; simpl; [lia|].
  rewrite length_app, Hl, IH. lia.
Qed.

Lemma nth_concat_uniform {A : Type} (n : nat) (d : A) (ls : list (list A)) :
  Forall (fun l => List.length l = n) ls ->
  forall i j, (j < n)%nat ->
    nth (i * n + j) (concat ls) d = nth j (nth i ls []) d.
Proof.
  induction 1 as [|l ls Hl _ IH]; intros i j Hj.
  - simpl. destruct (i * n + j)%nat, i, j; reflexivity.
  - destruct i as [|i]; simpl.
    + apply app_nth1. lia.
    + rewrite app_nth2 by lia. rewrite Hl.
      replace (n + i * n + j - n)%nat with (i * n + j)%nat by lia.
      apply IH. exact Hj.
Qed.

Section Gather.

Variable sizeof_mpi_cell_t : positive.

(** The displacement loop yields, for the ranks of the world, the byte
    position of the cells of each rank in a catalog and the byte position of
    each chunk in the receive buffer. *)
Lemma gather_offsets_spec (size : nat) (all_vcells : list (list mpi_cell_t))
    (rank : nat) :
  size = List.length all_vcells ->
  gather_offsets_inv (sizeof_cell sizeof_mpi_cell_t) all_vcells rank size
    (gather_offsets size rank
       (byte_counts (sizeof_cell sizeof_mpi_cell_t) all_vcells)).
Proof.
  intros E. destruct size as [|n].
  - unfold gather_offsets, for_range, gather_offsets_inv. simpl. rewrite <- E.
    repeat split; intros; lia.
  - unfold gather_offsets.
    apply (for_range_inv
             (gather_offsets_inv (sizeof_cell sizeof_mpi_cell_t) all_vcells rank)
             _ 1 n).
    + unfold gather_offsets_inv. rewrite !repeat_length.
      split; [exact E | split; [exact E|]].
      intros j Hj _. assert (j = 0%nat) by lia. subst j.
      rewrite !iget_repeat by lia. unfold cells_before. simpl. auto.
    + intros k [so no] Hk (Hlso & Hlno & Hdone). unfold gather_offsets_inv.
      rewrite !upd_length. split; [exact Hlso | split; [exact Hlno|]].
      intros j Hj Hjs. destruct (Nat.eq_dec j k) as [-> | Hne].
      * rewrite !iget_upd_same by lia.
        destruct (Hdone (k - 1)%nat) as (Hs & Hn); [lia | lia|].
        rewrite Hs, Hn, iget_byte_counts.
        replace (cells_before all_vcells k)
          with (cells_before all_vcells (S (k - 1)))
          by (f_equal; lia).
        rewrite cells_before_S by lia. split; nia.
      * rewrite !iget_upd_other by exact Hne. apply Hdone; lia.
Qed.

Lemma Forall_prefix {A : Type} (P : A -> Prop) (l : list A) :
  Forall P l -> forall n, Forall P (firstn n l).
Proof.
  induction 1 as [|x l Hx _ IH]; intros [|n]; simpl; constructor; auto.
Qed.

Lemma cells_before_uniform (n : nat) (ls : list (list mpi_cell_t)) (i : nat) :
  Forall (fun l => List.length l = n) ls -> (i <= List.length ls)%nat ->
  cells_before ls i = (i * n)%nat.
Proof.
  intros Hall Hi. unfold cells_before.
  rewrite (concat_uniform_length n) by (apply Forall_prefix; exact Hall).
  rewrite length_firstn, Nat.min_l by exact Hi. apply Nat.mul_comm.
Qed.

Lemma fold_left_agree {A C : Type} (f g : C -> A -> C) (l : list A) :
  (forall c x, In x l -> f c x = g c x) ->
  forall c, fold_left f l c = fold_left g l c.
Proof.
  induction l as [|a l IH]; intros H c; [reflexivity|].
  simpl. rewrite (H c a) by (left; reflexivity).
  apply IH. intros c' x Hx. apply H. right. exact Hx.
Qed.

Lemma fold_left_combine_map {A B C : Type} (f : C -> nat * B -> C) (g : A -> B)
    (l : list A) :
  forall (k : nat) (c : C),
    fold_left (fun c (x : nat * A) => f c (fst x, g (snd x)))
      (combine (seq k (List.length l)) l) c
    = fold_left f (combine (seq k (List.length (map g l))) (map g l)) c.
Proof.
  induction l as [|a l IH]; intros k c; [reflexivity|].
  simpl. apply IH.
Qed.

(** What a process that holds the catalog ships to [rank]. *)
Lemma sent_block (all_vcells : list (list mpi_cell_t)) (size i rank : nat)
    (sender : process) :
  size = List.length all_vcells -> (rank < size)%nat ->
  holds_catalog (sizeof_cell sizeof_mpi_cell_t) all_vcells sender ->
  slice (iget (fst (gather_offsets size i (nrecvCOM sender))) rank
           / sizeof_cell sizeof_mpi_cell_t)
        (iget (nrecvCOM sender) rank / sizeof_cell sizeof_mpi_cell_t)
        (recvCOM sender)
  = block_for all_vcells rank sender.
Proof.
  intros E Hr [Hn _]. rewrite Hn. unfold block_for.
  pose proof (gather_offsets_spec size all_vcells i E) as Hinv.
  destruct (gather_offsets size i
              (byte_counts (sizeof_cell sizeof_mpi_cell_t) all_vcells))
    as [so no].
  destruct Hinv as (_ & _ & Hdone).
  destruct (Hdone rank) as [Hs _]; [exact Hr | lia|].
  cbn [fst]. rewrite Hs, iget_byte_counts, !(div_sizeof sizeof_mpi_cell_t).
  reflexivity.
Qed.

Lemma block_for_length (all_vcells : list (list mpi_cell_t)) (rank : nat)
    (sender : process) :
  (rank < List.length all_vcells)%nat ->
  holds_catalog (sizeof_cell sizeof_mpi_cell_t) all_vcells sender ->
  List.length (block_for all_vcells rank sender)
  = List.length (nth rank all_vcells []).
Proof.
  intros Hr [_ Hl]. unfold block_for. apply slice_length.
  rewrite Hl. apply cells_before_le. exact Hr.
Qed.

(** The receive buffer of [rank] after the all-to-all: the blocks of the
    senders, in rank order. *)
Lemma alltoallv_blocks (all_vcells : list (list mpi_cell_t)) (w : list process)
    (rank : nat) :
  List.length w = List.length all_vcells -> (rank < List.length w)%nat ->
  Forall (holds_catalog (sizeof_cell sizeof_mpi_cell_t) all_vcells) w ->
  alltoallv sizeof_mpi_cell_t w rank
    (repeat (iget (byte_counts (sizeof_cell sizeof_mpi_cell_t) all_vcells) rank)
       (List.length w))
    (snd (gather_offsets (List.length w) rank
            (byte_counts (sizeof_cell sizeof_mpi_cell_t) all_vcells)))
    (repeat cell_default
       (iget (byte_counts (sizeof_cell sizeof_mpi_cell_t) all_vcells) rank
          / sizeof_cell sizeof_mpi_cell_t * List.length w))
  = concat (map (block_for all_vcells rank) w).
Proof.
  intros E Hr Hall.
  set (ncells := List.length (nth rank all_vcells [])).
  assert (Hblocks : Forall (fun l => List.length l = ncells)
                      (map (block_for all_vcells rank) w)).
  { apply Forall_map. eapply Forall_impl; [|exact Hall].
    intros p Hp. apply block_for_length; [lia | exact Hp]. }
  unfold alltoallv.
  rewrite (fold_left_agree _
    (fun buf (x : nat * process) =>
       (fun buf (y : nat * list mpi_cell_t) =>
          let '(i, data) := y in
          write_at
            (iget (snd (gather_offsets (List.length w) rank
                          (byte_counts (sizeof_cell sizeof_mpi_cell_t) all_vcells))) i
               / sizeof_cell sizeof_mpi_cell_t)
            (firstn
               (iget (repeat
                        (iget (byte_counts (sizeof_cell sizeof_mpi_cell_t) all_vcells)
                           rank) (List.length w)) i
                  / sizeof_cell sizeof_mpi_cell_t) data) buf)
         buf (fst x, block_for all_vcells rank (snd x)))
    (combine (seq 0 (List.length w)) w)).
  2: { intros buf [i sender] Hin. cbn [fst snd].
       assert (Hs : In sender w) by (eapply in_combine_r; exact Hin).
       rewrite (sent_block all_vcells (List.length w) i rank sender E Hr).
       - reflexivity.
       - rewrite Forall_forall in Hall. apply Hall. exact Hs. }
  rewrite (fold_left_combine_map
             (fun buf (y : nat * list mpi_cell_t) =>
                let '(i, data) := y in
                write_at
                  (iget (snd (gather_offsets (List.length w) rank
                     (byte_counts (sizeof_cell sizeof_mpi_cell_t) all_vcells))) i
                     / sizeof_cell sizeof_mpi_cell_t)
                  (firstn
                     (iget (repeat
                        (iget (byte_counts (sizeof_cell sizeof_mpi_cell_t) all_vcells)
                           rank) (List.length w)) i
                        / sizeof_cell sizeof_mpi_cell_t) data) buf)
             (block_for all_vcells rank) w 0).
  rewrite iget_byte_counts, (div_sizeof sizeof_mpi_cell_t). fold ncells.
  pose proof (allgatherv_concat sizeof_mpi_cell_t
                (repeat (ncells * sizeof_cell sizeof_mpi_cell_t)%nat (List.length w))
                (snd (gather_offsets (List.length w) rank
                        (byte_counts (sizeof_cell sizeof_mpi_cell_t) all_vcells)))
                (map (block_for all_vcells rank) w) []) as Hcat.
  cbn [app List.length concat] in Hcat.
  rewrite (concat_uniform_length ncells _ Hblocks) in Hcat.
  rewrite length_map in Hcat. rewrite length_map. apply Hcat.
  - intros i Hi. rewrite iget_repeat by exact Hi.
    rewrite (div_sizeof sizeof_mpi_cell_t). symmetry.
    rewrite Forall_forall in Hblocks. apply Hblocks. apply nth_In.
    rewrite length_map. exact Hi.
  - intros i Hi.
    rewrite (cells_before_uniform ncells _ i Hblocks) by (rewrite length_map; lia).
    pose proof (gather_offsets_spec (List.length w) all_vcells rank E) as Hinv.
    destruct (gather_offsets (List.length w) rank
                (byte_counts (sizeof_cell sizeof_mpi_cell_t) all_vcells))
      as [so no].
    destruct Hinv as (_ & _ & Hdone).
    destruct (Hdone i) as [_ Hn]; [exact Hi | lia|].
    cbn [snd]. rewrite Hn, iget_byte_counts. fold ncells.
    replace (i * (ncells * sizeof_cell sizeof_mpi_cell_t))%nat
      with (i * ncells * sizeof_cell sizeof_mpi_cell_t)%nat by lia.
    apply (div_sizeof sizeof_mpi_cell_t).
Qed.

(** X26.  When every rank holds the byte counts and a catalog of the size the
    scatter gives, and the counts fit an [int] (the bytes of the catalog, and
    [nrecvCOM[rank]*size]), the displacement loop of the gather sets
    [soffsets[k]] to the bytes of the catalog before the cells of rank [k]
    and [noffsets[k]] to [k * nrecvCOM[rank]].  With these displacements the
    all-to-all fills the receive buffer of [rank] exactly (the size assertion
    passes), and chunk [i] holds in slot [j] the copy that rank [i] keeps of
    the [j]-th frontier cell of [rank]. *)
Theorem mpi_gather_cells_routes_chunks (all_vcells : list (list mpi_cell_t))
    (w : list process) (rank : nat) (p d : process) (i j : nat) :
  List.length w = List.length all_vcells ->
  Forall (holds_catalog (sizeof_cell sizeof_mpi_cell_t) all_vcells) w ->
  holds_catalog (sizeof_cell sizeof_mpi_cell_t) all_vcells p ->
  fits_int (List.length (concat all_vcells) * sizeof_cell sizeof_mpi_cell_t) ->
  fits_int (iget (nrecvCOM p) rank * List.length w) ->
  (rank < List.length w)%nat -> (i < List.length w)%nat ->
  (j < List.length (nth rank all_vcells []))%nat ->
  let size := List.length w in
  let ncells := (iget (nrecvCOM p) rank / sizeof_cell sizeof_mpi_cell_t)%nat in
  let offsets := gather_offsets size rank (nrecvCOM p) in
  let recvcells :=
    alltoallv sizeof_mpi_cell_t w rank (repeat (iget (nrecvCOM p) rank) size)
      (snd offsets) (repeat cell_default (ncells * size)) in
  (forall k, (k < size)%nat ->
     iget (fst offsets) k
     = (cells_before all_vcells k * sizeof_cell sizeof_mpi_cell_t)%nat
     /\ iget (snd offsets) k = (k * iget (nrecvCOM p) rank)%nat)
  /\ List.length recvcells = (ncells * size)%nat
  /\ chunk_cell recvcells ncells i j
     = cget (recvCOM (nth i w d)) (cells_before all_vcells rank + j).
Proof.
  intros E Hall [Hn _] _ _ Hr Hi Hj. cbv zeta. rewrite Hn. split.
  { intros k Hk.
    pose proof (gather_offsets_spec (List.length w) all_vcells rank E) as Hinv.
    destruct (gather_offsets (List.length w) rank
                (byte_counts (sizeof_cell sizeof_mpi_cell_t) all_vcells))
      as [so no].
    destruct Hinv as (_ & _ & Hdone). cbn [fst snd]. apply Hdone; lia. }
  rewrite (alltoallv_blocks all_vcells w rank E Hr Hall).
  rewrite iget_byte_counts, (div_sizeof sizeof_mpi_cell_t).
  assert (Hblocks : Forall (fun l => List.length l
                                     = List.length (nth rank all_vcells []))
                      (map (block_for all_vcells rank) w)).
  { apply Forall_map. eapply Forall_impl; [|exact Hall].
    intros q Hq. apply block_for_length; [lia | exact Hq]. }
  split.
  - rewrite (concat_uniform_length _ _ Hblocks), length_map. reflexivity.
  - unfold chunk_cell, cget.
    rewrite (nth_concat_uniform _ cell_default _ Hblocks i j Hj).
    rewrite (nth_indep _ [] (block_for all_vcells rank d))
      by (rewrite length_map; exact Hi).
    rewrite (map_nth (block_for all_vcells rank) w d i).
    unfold block_for. apply nth_slice. exact Hj.
Qed.

End Gather.

(** Two processes after the scatter, each owning one cell: on rank 1 the
    slot 0 of chunk 0 is the second cell of the catalog of rank 0. *)
Lemma mpi_gather_cells_routes_chunks_witness :
  let all_vcells := [[cell_of_branch ex_leaf]; [cell_of_branch ex_leaf]] in
  let q := exchanged (sizeof_cell 1%positive) all_vcells ex_process in
  let w := [q; q] in
  List.length w = List.length all_vcells
  /\ Forall (holds_catalog (sizeof_cell 1%positive) all_vcells) w
  /\ fits_int (List.length (concat all_vcells) * sizeof_cell 1%positive)
  /\ fits_int (iget (nrecvCOM q) 1 * List.length w)
  /\ (1 < List.length w)%nat
  /\ (0 < List.length (nth 1 all_vcells []))%nat
  /\ chunk_cell
       (alltoallv 1%positive w 1 (repeat (iget (nrecvCOM q) 1) 2)
          (snd (gather_offsets 2 1 (nrecvCOM q)))
          (repeat cell_default (iget (nrecvCOM q) 1 / sizeof_cell 1%positive * 2)))
       (iget (nrecvCOM q) 1 / sizeof_cell 1%positive) 0 0
     = cget (recvCOM q) 1.
Proof.
  set (all_vcells := [[cell_of_branch ex_leaf]; [cell_of_branch ex_leaf]]).
  set (q := exchanged (sizeof_cell 1%positive) all_vcells ex_process).
  assert (Hc : holds_catalog (sizeof_cell 1%positive) all_vcells q)
    by (split; reflexivity).
  assert (Hw : Forall (holds_catalog (sizeof_cell 1%positive) all_vcells) [q; q])
    by (repeat constructor; exact Hc).
  assert (Hf1 : fits_int (List.length (concat all_vcells) * sizeof_cell 1%positive))
    by (unfold fits_int, INT_MAX; simpl; lia).
  assert (Hf2 : fits_int (iget (nrecvCOM q) 1 * List.length [q; q]))
    by (unfold fits_int, INT_MAX; simpl; lia).
  assert (H1 : (1 < 2)%nat) by lia.
  assert (H0 : (0 < 2)%nat) by lia.
  assert (Hj : (0 < 1)%nat) by lia.
  cbv zeta.
  refine (conj eq_refl (conj Hw (conj Hf1 (conj Hf2 (conj H1 (conj Hj _)))))).
  exact (proj2 (proj2 (mpi_gather_cells_routes_chunks 1%positive all_vcells [q; q] 1
                         q q 0 0 eq_refl Hw Hc Hf1 Hf2 H1 H0 Hj))).
Defined.
